(** * Spatial stacking core of the carmen geocoder

    A shallow embedding of [lib/geocoder/spatialmatch.js]: archetype
    collapse and expansion, the [stackable] enumerator, [rebalance], the
    [Spatialmatch] and [Cover] constructors, the deduplication pass of
    [coalesceFinalize] and the [spatialmatch] pipeline around them.

    JavaScript numbers that carry fractional values (weights, relevances,
    scores) are IEEE 754 doubles and are modelled by Rocq's primitive
    binary64 floats.  Token masks, ids and zoom levels are integers and are
    modelled by [Z]; index ordinals are [nat].  The bit operators [&] and
    [|] go through ECMAScript's ToInt32, which is written out below. *)

From Stdlib Require Import ZArith Floats Uint63 Ascii String List Lia Bool.
From stdpp Require Import base option list gmap sets.
Import ListNotations.

#[local] Set Warnings "-inexact-float".
#[local] Open Scope Z_scope.

(** ** JavaScript numbers *)

Module Js.

(** ECMAScript ToInt32 on an integral number. *)
Definition to_int32 (z : Z) : Z :=
  let r := z mod 2 ^ 32 in
  if r <? 2 ^ 31 then r else r - 2 ^ 32.

(** [a & b] *)
Definition and (a b : Z) : Z := Z.land (to_int32 a) (to_int32 b).

(** [a | b] *)
Definition or (a b : Z) : Z := Z.lor (to_int32 a) (to_int32 b).

(** A [length] (or another small non-negative integer) as a double. *)
Definition of_nat (n : nat) : float :=
  PrimFloat.of_uint63 (Uint63.of_Z (Z.of_nat n)).

(** An integer (below 2^53 in magnitude) as a double. *)
Definition of_Z (z : Z) : float :=
  if z <? 0 then PrimFloat.opp (PrimFloat.of_uint63 (Uint63.of_Z (- z)))
  else PrimFloat.of_uint63 (Uint63.of_Z z).

(** [Math.min(a, b)]: NaN if either argument is NaN, and -0 below +0. *)
Definition min (a b : float) : float :=
  if PrimFloat.is_nan a || PrimFloat.is_nan b then PrimFloat.nan
  else if PrimFloat.ltb a b then a
  else if PrimFloat.ltb b a then b
  else match PrimFloat.classify a with
       | NZero => a
       | _ => b
       end.

(** Equality of the strings [String(a)] and [String(b)] of two numbers.
    Number-to-string conversion gives distinct strings to numerically
    distinct values, gives "0" to both zeros and "NaN" to every NaN. *)
Definition same_string (a b : float) : bool :=
  PrimFloat.eqb a b || (PrimFloat.is_nan a && PrimFloat.is_nan b).

(** [z.toString(2)] for an integral number: the binary digits of the
    magnitude, most significant first, behind a minus sign if negative. *)
Fixpoint binary_digits (p : positive) (low : string) : string :=
  match p with
  | xH => String "1" low
  | xO q => binary_digits q (String "0" low)
  | xI q => binary_digits q (String "1" low)
  end.

Definition toString2 (z : Z) : string :=
  match z with
  | Z0 => "0"
  | Zpos p => binary_digits p ""
  | Zneg p => String "-" (binary_digits p "")
  end.

(** [s.split(c).length] for a one-character separator [c]. *)
Fixpoint split_length (c : ascii) (s : string) : nat :=
  match s with
  | EmptyString => 1
  | String d rest =>
      if Ascii.eqb d c then S (split_length c rest) else split_length c rest
  end.

End Js.

(** ** Maps in insertion order *)

(** A JavaScript [Map] as the list of its entries in insertion order;
    [eqb] compares keys. *)
Module JsMap.
Section Ops.
Context {K V : Type} (eqb : K -> K -> bool).

Fixpoint get (k : K) (m : list (K * V)) : option V :=
  match m with
  | [] => None
  | (k', v) :: more => if eqb k k' then Some v else get k more
  end.

(** Setting a key that is present replaces its value in place. *)
Fixpoint set (k : K) (v : V) (m : list (K * V)) : list (K * V) :=
  match m with
  | [] => [(k, v)]
  | (k', v') :: more =>
      if eqb k k' then (k', v) :: more else (k', v') :: set k v more
  end.

Definition keys (m : list (K * V)) : list K := map fst m.
Definition values (m : list (K * V)) : list V := map snd m.
End Ops.
End JsMap.

(** ** Data model *)

(** Modelled from the spec: [PREFIX_SCAN] of the cache library, which the
    data model gives as the enumeration {disabled, enabled}. *)
Inductive PrefixScan := disabled | enabled.

Definition PrefixScan_eqb (a b : PrefixScan) : bool :=
  match a, b with
  | disabled, disabled | enabled, enabled => true
  | _, _ => false
  end.

(** A subquery is the array of its tokens with an [edit_distance]
    property attached. *)
Record Subquery := {
  tokens : list string;
  edit_distance : Z
}.

Inductive Address := address_data (payload : string).

Record Phrasematch := {
  subquery : Subquery;
  weight : float;
  mask : Z;
  scorefactor : float;
  idx : nat;
  zoom : Z;
  editMultiplier : float;
  prefix : PrefixScan;
  proxMatch : bool;
  catMatch : bool;
  partialNumber : bool;
  radius : option float;
  address : option Address
}.

(** The object literal built in [collapseToArchetypes]. *)
Record Archetype := {
  a_mask : Z;
  a_weight : float;
  a_editMultiplier : float;
  a_zoom : Z;
  a_idx : nat;
  a_scorefactor : float;
  a_proxMatch : bool;
  a_catMatch : bool;
  a_prefix : PrefixScan;
  exemplars : list Phrasematch
}.

(** [{ phrasematches, idx, nmask, bmask }], over phrasematches or over
    archetypes.  [bmask] is an array indexed by index ordinal; only the
    truthiness of its entries is used. *)
Record PhrasematchResult (A : Type) := {
  phrasematches : list A;
  r_idx : nat;
  nmask : Z;
  bmask : list bool
}.
Arguments phrasematches {A}.
Arguments r_idx {A}.
Arguments nmask {A}.
Arguments bmask {A}.

(** An array of stack elements with the two scalars [relev] and [adjRelev]
    attached to the array object. *)
Record Stack (A : Type) := {
  elems : list A;
  relev : float;
  adjRelev : float
}.
Arguments elems {A}.
Arguments relev {A}.
Arguments adjRelev {A}.

(** What [stackable] reads of a stack element; it is called with
    archetypes by [spatialmatch] and accepts raw phrasematches as well. *)
Class StackItem (A : Type) := {
  item_mask : A -> Z;
  item_idx : A -> nat;
  item_weight : A -> float;
  item_editMultiplier : A -> float
}.

#[export] Instance Phrasematch_item : StackItem Phrasematch := {|
  item_mask := mask;
  item_idx := idx;
  item_weight := weight;
  item_editMultiplier := editMultiplier
|}.

#[export] Instance Archetype_item : StackItem Archetype := {|
  item_mask := a_mask;
  item_idx := a_idx;
  item_weight := a_weight;
  item_editMultiplier := a_editMultiplier
|}.

(** ** collapseToArchetypes *)

(** The signature string [mask-weight-editMultiplier-prefix], kept as its
    four components.  In the joined string a "-" behind an "e" belongs to
    an exponent, one at the start or behind another "-" is a sign, and
    every other one is a separator; so two signatures are the same string
    exactly when their components are. *)
Definition Signature : Type := Z * float * float * PrefixScan.

Definition signature (inMatch : Phrasematch) : Signature :=
  (mask inMatch, weight inMatch, editMultiplier inMatch, prefix inMatch).

Definition signature_eqb (s t : Signature) : bool :=
  let '(m1, w1, e1, p1) := s in
  let '(m2, w2, e2, p2) := t in
  (m1 =? m2) && Js.same_string w1 w2 && Js.same_string e1 e2
  && PrefixScan_eqb p1 p2.

Definition new_archetype (r_idx : nat) (inMatch : Phrasematch) : Archetype := {|
  a_mask := mask inMatch;
  a_weight := weight inMatch;
  a_editMultiplier := editMultiplier inMatch;
  a_zoom := zoom inMatch;
  a_idx := r_idx;
  a_scorefactor := scorefactor inMatch;
  a_proxMatch := proxMatch inMatch;
  a_catMatch := catMatch inMatch;
  a_prefix := prefix inMatch;
  exemplars := []
|}.

Definition push_exemplar (outMatch : Archetype) (inMatch : Phrasematch) : Archetype := {|
  a_mask := a_mask outMatch;
  a_weight := a_weight outMatch;
  a_editMultiplier := a_editMultiplier outMatch;
  a_zoom := a_zoom outMatch;
  a_idx := a_idx outMatch;
  a_scorefactor := a_scorefactor outMatch;
  a_proxMatch := a_proxMatch outMatch;
  a_catMatch := a_catMatch outMatch;
  a_prefix := a_prefix outMatch;
  exemplars := exemplars outMatch ++ [inMatch]
|}.

(** One round of the inner loop on [uniqMap]: get the entry of the
    signature, create one if there is none, and push [inMatch] onto its
    exemplars.  The entry is an object shared with the map, so that the
    push shows in the map; a new entry goes to the end of the map. *)
Definition uniq_push (r_idx : nat) (uniqMap : list (Signature * Archetype))
    (inMatch : Phrasematch) : list (Signature * Archetype) :=
  let sig := signature inMatch in
  let outMatch :=
    match JsMap.get signature_eqb sig uniqMap with
    | Some outMatch => outMatch
    | None => new_archetype r_idx inMatch
    end in
  JsMap.set signature_eqb sig (push_exemplar outMatch inMatch) uniqMap.

Definition build_uniqMap (r_idx : nat) (ms : list Phrasematch)
    : list (Signature * Archetype) :=
  fold_left (uniq_push r_idx) ms [].

(** The condition of the low-confidence penalty.  [exemplars[0]] exists in
    every group: a group is created by the round that pushes its first
    exemplar. *)
Definition low_confidence (group : Archetype) : bool :=
  match exemplars group with
  | [] => false
  | first :: _ =>
      (length (tokens (subquery first)) =? 1)%nat
      && (edit_distance (subquery first) =? 0)
      && negb (PrefixScan_eqb (a_prefix group) disabled)
      && (2 <? length (exemplars group))%nat
  end.

Definition penalise (group : Archetype) : Archetype :=
  if low_confidence group then {|
    a_mask := a_mask group;
    a_weight := a_weight group;
    a_editMultiplier := (a_editMultiplier group * 0.99)%float;
    a_zoom := a_zoom group;
    a_idx := a_idx group;
    a_scorefactor := a_scorefactor group;
    a_proxMatch := a_proxMatch group;
    a_catMatch := a_catMatch group;
    a_prefix := a_prefix group;
    exemplars := exemplars group
  |} else group.

Definition collapse_result (inResult : PhrasematchResult Phrasematch)
    : PhrasematchResult Archetype :=
  let uniqMap := build_uniqMap (r_idx inResult) (phrasematches inResult) in
  let collapsed := JsMap.values uniqMap in
  {| phrasematches := map penalise collapsed;
     r_idx := r_idx inResult;
     nmask := nmask inResult;
     bmask := bmask inResult |}.

Definition collapseToArchetypes (phrasematchResults : list (PhrasematchResult Phrasematch))
    : list (PhrasematchResult Archetype) :=
  map collapse_result phrasematchResults.

(** ** Completions *)

(** A call either returns its value or throws (here always the TypeError
    of reading a property of [undefined]). *)
Inductive Completion (T : Type) :=
  | Normal (v : T)
  | Throw.
Arguments Normal {T}.
Arguments Throw {T}.

Definition bind {T U : Type} (c : Completion T) (k : T -> Completion U) : Completion U :=
  match c with
  | Normal v => k v
  | Throw => Throw
  end.

Notation "'try' x <- c ; k" := (bind c (fun x => k))
  (at level 10, x name, c at level 100, k at level 200).

(** ** stackable *)

Record Memo (A : Type) := {
  stacks : list (Stack A);
  maxStacks : list (Stack A);
  maxRelev : float
}.
Arguments stacks {A}.
Arguments maxStacks {A}.
Arguments maxRelev {A}.

(** [bmask[i]] as a condition: a missing entry is [undefined], falsy. *)
Definition bmask_at (bmask : list bool) (i : nat) : bool :=
  match bmask !! i with
  | Some b => b
  | None => false
  end.

Section Stackable.
Context {A : Type} `{StackItem A}.
Variable limit : Z.

(** The block guarded by [targetStack.relev > 0.5]. *)
Definition memo_offer (memo : Memo A) (targetStack : Stack A) : Memo A :=
  if (0.5 <? relev targetStack)%float then
    if (maxRelev memo <? relev targetStack)%float then
      if limit <=? Z.of_nat (length (maxStacks memo)) then
        {| stacks := maxStacks memo;
           maxStacks := [targetStack];
           maxRelev := relev targetStack |}
      else
        {| stacks := stacks memo;
           maxStacks := maxStacks memo ++ [targetStack];
           maxRelev := relev targetStack |}
    else if (relev targetStack =? maxRelev memo)%float then
      {| stacks := stacks memo;
         maxStacks := maxStacks memo ++ [targetStack];
         maxRelev := maxRelev memo |}
    else if Z.of_nat (length (maxStacks memo)) <? limit then
      {| stacks := stacks memo ++ [targetStack];
         maxStacks := maxStacks memo;
         maxRelev := maxRelev memo |}
    else memo
  else memo.

(** [stack.length && stack[0].idx >= next.idx && mask && mask < next.mask] *)
Definition wrong_direction (stack : list A) (mask : Z) (next : A) : bool :=
  match stack with
  | [] => false
  | first :: _ =>
      (item_idx next <=? item_idx first)%nat
      && negb (mask =? 0)
      && (mask <? item_mask next)
  end.

(** [targetStack]; [rel] and [adj] are the frame's [relev] and [adjRelev]. *)
Definition make_targetStack (stack : list A) (mask : Z) (rel adj : float)
    (next : A) : Stack A :=
  {| elems := if item_mask next <? mask then next :: stack else stack ++ [next];
     relev := (rel + item_weight next)%float;
     adjRelev := (adj + item_weight next * item_editMultiplier next)%float |}.

(** The tail of the top frame: concatenate and apply the length penalty. *)
Definition length_penalised (stack : Stack A) : Stack A :=
  let lengthPenalty :=
    (0.9 + 0.1 / Js.of_nat (match length (elems stack) with O => 1 | n => n end))%float in
  {| elems := elems stack;
     relev := relev stack;
     adjRelev := (adjRelev stack * lengthPenalty)%float |}.

Definition finish (memo : Memo A) : list (Stack A) :=
  map length_penalised (stacks memo ++ maxStacks memo).

(** One frame of [stackable] with the memo threaded through.  [rest] is
    [phrasematchResults] from position [idx] on, so that
    [phrasematchResults[idx + 1] !== undefined] reads "the tail of [rest]
    is not empty"; [nmask'], [rel] and [adj] are the frame's [nmask],
    [relev] and [adjRelev].  The frame's return value is [undefined]
    ([None]) except in the frame of [idx = 0] that reaches its end. *)
Fixpoint stackable_frame (rest : list (PhrasematchResult A)) (memo : Memo A)
    (idx : nat) (mask nmask' : Z) (stack : list A) (rel adj : float)
    {struct rest} : Memo A * Completion (option (list (Stack A))) :=
  match rest with
  | [] => (memo, Throw)
  | phrasematchResult :: later =>
      (* Recurse, skipping this level *)
      let memo :=
        match later with
        | [] => memo
        | _ :: _ => fst (stackable_frame later memo (S idx) mask nmask' stack rel adj)
        end in
      if negb (Js.and nmask' (nmask phrasematchResult) =? 0) then (memo, Normal None)
      else if existsb (fun s => bmask_at (bmask phrasematchResult) (item_idx s)) stack
      then (memo, Normal None)
      else
        (* Recurse, including this level *)
        let memo :=
          fold_left
            (fun memo next =>
               if negb (Js.and mask (item_mask next) =? 0) then memo
               else if wrong_direction stack mask next then memo
               else
                 let targetStack := make_targetStack stack mask rel adj next in
                 let targetMask := Js.or mask (item_mask next) in
                 let targetNmask := Js.or nmask' (nmask phrasematchResult) in
                 let memo := memo_offer memo targetStack in
                 match later with
                 | [] => memo
                 | _ :: _ =>
                     fst (stackable_frame later memo (S idx) targetMask targetNmask
                            (elems targetStack) (relev targetStack)
                            (adjRelev targetStack))
                 end)
            (phrasematches phrasematchResult) memo in
        (memo, Normal (if (idx =? 0)%nat then Some (finish memo) else None))
  end.

End Stackable.

(** The call [stackable(phrasematchResults, limit)], which starts the top
    frame on a fresh memo. *)
Definition stackable {A : Type} `{StackItem A}
    (phrasematchResults : list (PhrasematchResult A)) (limit : Z)
    : Completion (option (list (Stack A))) :=
  snd (stackable_frame limit phrasematchResults
         {| stacks := []; maxStacks := []; maxRelev := 0 |} 0 0 0 [] 0 0).

(** ** expandFromArchetypes *)

(** The loop of the innermost round. *)
Fixpoint expand_last (exs : list Phrasematch) (rel adj : float) (maxOut : Z)
    (soFar : list Phrasematch) (out : list (Stack Phrasematch))
    : list (Stack Phrasematch) * bool :=
  match exs with
  | [] => (out, false)
  | exemplar :: more =>
      let outStack := {| elems := soFar ++ [exemplar]; relev := rel; adjRelev := adj |} in
      let out := out ++ [outStack] in
      if maxOut <=? Z.of_nat (length out) then (out, true)
      else expand_last more rel adj maxOut soFar out
  end.

(** [rest] is the stack from position [matchIdx] on; [rel] and [adj] are
    the [relev] and [adjRelev] of the whole stack; the result is [out]
    after the call with the returned flag. *)
Fixpoint expandFromArchetypesInner (rest : list Archetype) (rel adj : float)
    (maxOut : Z) (soFar : list Phrasematch) (out : list (Stack Phrasematch))
    {struct rest} : Completion (list (Stack Phrasematch) * bool) :=
  match rest with
  | [] => Throw
  | [innermost] =>
      Normal (expand_last (exemplars innermost) rel adj maxOut soFar out)
  | arch :: ((_ :: _) as deeper) =>
      (fix each (exs : list Phrasematch) (out : list (Stack Phrasematch)) :=
         match exs with
         | [] => Normal (out, false)
         | exemplar :: more =>
             try r <- expandFromArchetypesInner deeper rel adj maxOut (soFar ++ [exemplar]) out;
             let '(out, done) := r in
             if done then Normal (out, true) else each more out
         end) (exemplars arch) out
  end.

Fixpoint expand_stacks (stacks : list (Stack Archetype)) (maxOut : Z)
    (out : list (Stack Phrasematch)) : Completion (list (Stack Phrasematch)) :=
  match stacks with
  | [] => Normal out
  | stack :: more =>
      try r <- expandFromArchetypesInner (elems stack) (relev stack) (adjRelev stack) maxOut [] out;
      let '(out, done) := r in
      if done then Normal out else expand_stacks more maxOut out
  end.

Definition expandFromArchetypes (stacks : list (Stack Archetype)) (maxOut : Z)
    : Completion (list (Stack Phrasematch)) :=
  expand_stacks stacks maxOut [].

(** ** allowed *)

Record Options := {
  proximity : option (float * float);     (* [lon, lat] *)
  bbox : option (list float);
  allowed_idx : option (gmap nat bool);
  stackable_limit : Z;
  spatialmatch_stack_limit : Z
}.

Definition allowed {A : Type} `{StackItem A} (stacks : list (Stack A)) (options : Options)
    : list (Stack A) :=
  match allowed_idx options with
  | None => stacks
  | Some allowed_idx =>
      List.filter
        (fun stack =>
           let stack_maxidx :=
             fold_left (fun m e => Nat.max m (item_idx e)) (elems stack) 0%nat in
           match allowed_idx !! stack_maxidx with
           | Some true => true
           | _ => false
           end)
        stacks
  end.

(** [array.slice(0, n)]: a negative [n] counts from the end. *)
Definition slice0 {T : Type} (l : list T) (n : Z) : list T :=
  if 0 <=? n then firstn (Z.to_nat n) l
  else firstn (length l - Z.to_nat (- n)) l.

(** ** Results of the coalesce primitive, covers and spatialmatches *)

Record CacheCover := {
  cc_x : Z;
  cc_y : Z;
  cc_relev : float;
  cc_id : Z;
  cc_idx : nat;
  cc_tmpid : Z;
  cc_distance : float;
  cc_score : float;
  cc_scoredist : float;
  cc_matches_language : bool
}.

(** An array of cache covers with [relev] attached. *)
Record CacheSpatialmatch := {
  cs_relev : float;
  cs_covers : list CacheCover
}.

Record Cover := {
  c_x : Z;
  c_y : Z;
  c_relev : float;
  c_id : Z;
  c_idx : nat;
  c_tmpid : Z;
  c_distance : float;
  c_score : float;
  c_scoredist : float;
  c_scorefactor : float;
  c_matches_language : bool;
  c_prefix : PrefixScan;
  c_mask : Z;
  c_text : string;
  c_zoom : Z
}.

Record Spatialmatch := {
  sm_relev : float;
  covers : list Cover;
  sm_partialNumber : bool;
  sm_address : option Address;
  scoredist : float
}.

(** The stack [rebalance] returns: clones with [relev] attached. *)
Record Rebalanced := {
  rb_elems : list Phrasematch;
  rb_relev : float
}.

Record CoalesceOpts := {
  centerzxy : option (list Z);
  co_radius : option float;
  bboxzxy : option (list Z)
}.

(** What the callback of [spatialmatch] receives on success. *)
Record Output := {
  results : list Spatialmatch;
  sets : gmap Z Cover;
  waste : list (list nat)
}.

Inductive CallbackArgs :=
  | CallbackError (err : string)
  | CallbackResult (out : Output).

(** The state the pipeline acts on: the calls made to the coalesce
    primitive, and the [waste] array. *)
Record World := {
  coalesce_calls : list (Rebalanced * CoalesceOpts);
  w_waste : list (list nat)
}.

(** A number as a condition. *)
Definition truthy (x : float) : bool :=
  negb (PrimFloat.eqb x 0 || PrimFloat.is_nan x).

(** [x || y] on numbers. *)
Definition or_else (x y : float) : float := if truthy x then x else y.

(** ** Array.prototype.sort and the comparators *)

(** A stable sort, as ECMAScript 2019 asks for: insertion from the left,
    each element going behind the elements the comparator does not put it
    before.  Under a comparator that orders the elements consistently this
    is the order of every engine; under another one the order is the
    engine's own.  The comparator returns a number or [undefined], or
    throws. *)
Section Sort.
Context {T : Type}.
Variable comparefn : T -> T -> Completion (option float).

(** Whether the comparator puts [x] before [y]: its value is negative;
    [undefined] and NaN count as +0. *)
Definition puts_before (x y : T) : Completion bool :=
  try v <- comparefn x y;
  Normal match v with
         | Some n => PrimFloat.ltb n 0
         | None => false
         end.

Fixpoint sort_insert (x : T) (sorted : list T) : Completion (list T) :=
  match sorted with
  | [] => Normal [x]
  | y :: more =>
      try first <- puts_before x y;
      if first then Normal (x :: y :: more)
      else try rest <- sort_insert x more; Normal (y :: rest)
  end.

Fixpoint sort_from (l sorted : list T) : Completion (list T) :=
  match l with
  | [] => Normal sorted
  | x :: more =>
      try sorted <- sort_insert x sorted;
      sort_from more sorted
  end.

Definition array_sort (l : list T) : Completion (list T) := sort_from l [].

End Sort.

(** [(a.zoom - b.zoom) || (a.idx - b.idx) || (b.mask - a.mask)], the
    differences of integers taken in [Z]. *)
Definition sortByZoomIdx (a b : Archetype) : Completion (option float) :=
  Normal (Some (or_else (Js.of_Z (a_zoom a - a_zoom b))
                  (or_else (Js.of_Z (Z.of_nat (a_idx a) - Z.of_nat (a_idx b)))
                           (Js.of_Z (a_mask b - a_mask a))))).

(** A boolean as a number. *)
Definition of_bool (b : bool) : float := if b then 1%float else 0%float.

(** The loop of [sortByRelevLengthIdx] over the positions of two stacks of
    the same length, from the last to the first: [pairs] holds the
    elements of the two stacks at each position, last position first. *)
Fixpoint first_idx_difference (pairs : list (Archetype * Archetype)) : option float :=
  match pairs with
  | [] => None
  | (x, y) :: more =>
      let second := Js.of_Z (Z.of_nat (a_idx x) - Z.of_nat (a_idx y)) in
      if truthy second then Some second else first_idx_difference more
  end.

(** The operands of [||] are evaluated as far as needed: the last
    elements are read, and throw on an empty stack, only when the first
    three differences are falsy, and the loop over the positions is
    reached only when the lengths are equal.  The function returns
    [undefined] when nothing tells the stacks apart. *)
Definition sortByRelevLengthIdx (a b : Stack Archetype) : Completion (option float) :=
  let first :=
    or_else (adjRelev b - adjRelev a)%float
      (or_else (Js.of_Z (Z.of_nat (length (elems a)) - Z.of_nat (length (elems b))))
               (relev b - relev a)%float) in
  if truthy first then Normal (Some first)
  else
    match last (elems b), last (elems a) with
    | Some lb, Some la =>
        let first :=
          or_else (of_bool (a_proxMatch lb) - of_bool (a_proxMatch la))%float
            (or_else (of_bool (a_catMatch lb) - of_bool (a_catMatch la))%float
                     (a_scorefactor lb - a_scorefactor la)%float) in
        if truthy first then Normal (Some first)
        else Normal (first_idx_difference (rev (combine (elems a) (elems b))))
    | _, _ => Throw
    end.

(** [covers[0]] is read, and throws on a spatialmatch without covers,
    only when relev and scoredist do not tell the two apart. *)
Definition sortByRelev (a b : Spatialmatch) : Completion (option float) :=
  let first := or_else (sm_relev b - sm_relev a)%float (scoredist b - scoredist a)%float in
  if truthy first then Normal (Some first)
  else
    match covers a, covers b with
    | ca :: _, cb :: _ =>
        let has_address (sm : Spatialmatch) :=
          of_bool (match sm_address sm with Some _ => true | None => false end) in
        Normal (Some (or_else (Js.of_Z (Z.of_nat (c_idx ca) - Z.of_nat (c_idx cb)))
                              (has_address b - has_address a)%float))
    | _, _ => Throw
    end.

Section Pipeline.

(** Collaborators outside this module. *)
Variable roundTo : float -> Z -> float.
Variable decode3BitLogScale : float -> float -> float.
Variable center2zxy : float * float -> Z -> list Z.
Variable bufferPoint_miles : float -> float * float -> float -> list float.
Variable bbox_intersection : list float -> list float -> option (list float).
Variable insideTile : list float -> Z -> list Z.
Variable COALESCE_PROXIMITY_RADIUS : float.
(** [coalesce]: what its callback receives as [cacheSpatialmatches]. *)
Variable coalesce : Rebalanced -> CoalesceOpts -> option (list CacheSpatialmatch).
(** The order in which the calls of [coalesce] complete and their
    callbacks run: positions among the stacks, the first to complete
    first.  The calls it does not name complete after those it names, in
    the order in which they were made. *)
Variable completion : list nat.

(** *** rebalance *)

(** Modelled from the spec: the [clone] method of a phrasematch, which
    copies the phrasematch so that the rebalanced stack does not alias the
    stack it is made from; here with the assignment to the clone's
    weight. *)
Definition clone_with_weight (m : Phrasematch) (w : float) : Phrasematch := {|
  subquery := subquery m;
  weight := w;
  mask := mask m;
  scorefactor := scorefactor m;
  idx := idx m;
  zoom := zoom m;
  editMultiplier := editMultiplier m;
  prefix := prefix m;
  proxMatch := proxMatch m;
  catMatch := catMatch m;
  partialNumber := partialNumber m;
  radius := radius m;
  address := address m
|}.

Definition rebalance (query : list string) (stack : list Phrasematch) : Rebalanced :=
  let stackMask := fold_left (fun stackMask m => Js.or stackMask (mask m)) stack 0 in
  let garbage :=
    if (length query =? Js.split_length "1" (Js.toString2 stackMask) - 1)%nat
    then 0%nat else 1%nat in
  let totalLengthBonus := (0.01 * Js.of_nat (garbage + length stack))%float in
  let weightPerMatch := (1 / Js.of_nat (garbage + length stack) - 0.01)%float in
  let '(stackClone, totalWeight) :=
    fold_left
      (fun '(stackClone, totalWeight) m =>
         let w := roundTo ((weightPerMatch + totalLengthBonus * weight m)
                           * editMultiplier m)%float 8 in
         (stackClone ++ [clone_with_weight m w], (totalWeight + w)%float))
      stack ([], 0%float) in
  {| rb_elems := stackClone;
     rb_relev := Js.min (roundTo totalWeight 8) 1 |}.

(** *** Cover and Spatialmatch *)

(** [phrasematch] is [undefined] when the stack has no entry for the
    cover's idx. *)
Definition new_Cover (cacheCover : CacheCover) (phrasematch : option Phrasematch)
    : Completion Cover :=
  match phrasematch with
  | None => Throw
  | Some phrasematch =>
      Normal {|
        c_x := cc_x cacheCover;
        c_y := cc_y cacheCover;
        c_relev := cc_relev cacheCover;
        c_id := cc_id cacheCover;
        c_idx := cc_idx cacheCover;
        c_tmpid := cc_tmpid cacheCover;
        c_distance := cc_distance cacheCover;
        c_score := decode3BitLogScale (cc_score cacheCover) (scorefactor phrasematch);
        c_scoredist :=
          if (7 <? cc_scoredist cacheCover)%float
          then (scorefactor phrasematch / 7 * cc_scoredist cacheCover)%float
          else decode3BitLogScale (cc_scoredist cacheCover) (scorefactor phrasematch);
        c_scorefactor := scorefactor phrasematch;
        c_matches_language := cc_matches_language cacheCover;
        c_prefix := prefix phrasematch;
        c_mask := mask phrasematch;
        c_text := String.concat " " (tokens (subquery phrasematch));
        c_zoom := zoom phrasematch
      |}
  end.

(** The loop of the constructor: the covers and the address so far. *)
Fixpoint spatialmatch_covers (cacheCovers : list CacheCover)
    (stackByIdx : list (nat * Phrasematch)) (addressDataByIdx : list (nat * Address))
    (covers : list Cover) (address : option Address)
    : Completion (list Cover * option Address) :=
  match cacheCovers with
  | [] => Normal (covers, address)
  | cacheCover :: more =>
      try cover <- new_Cover cacheCover (JsMap.get Nat.eqb (cc_idx cacheCover) stackByIdx);
      let address :=
        match address with
        | Some a => Some a
        | None => JsMap.get Nat.eqb (cc_idx cacheCover) addressDataByIdx
        end in
      spatialmatch_covers more stackByIdx addressDataByIdx (covers ++ [cover]) address
  end.

Definition new_Spatialmatch (cacheSpatialmatch : CacheSpatialmatch)
    (stackByIdx : list (nat * Phrasematch)) (addressDataByIdx : list (nat * Address))
    (partialNumber : bool) : Completion Spatialmatch :=
  try r <- spatialmatch_covers (cs_covers cacheSpatialmatch) stackByIdx addressDataByIdx [] None;
  let '(covers, address) := r in
  match covers with
  | [] => Throw
  | first :: _ =>
      Normal {|
        sm_relev := cs_relev cacheSpatialmatch;
        covers := covers;
        sm_partialNumber := partialNumber;
        sm_address := address;
        scoredist :=
          if partialNumber then (c_scoredist first * 300)%float else c_scoredist first
      |}
  end.

(** *** coalesceStack *)

(** The entries are set from the last element of the stack to the first. *)
Definition getStackByIdx (stack : list Phrasematch) : list (nat * Phrasematch) :=
  fold_left (fun byIdx m => JsMap.set Nat.eqb (idx m) m byIdx) (rev stack) [].

Definition address_by_idx (stack : list Phrasematch) : list (nat * Address) :=
  fold_left
    (fun byIdx m =>
       match address m with
       | Some a => JsMap.set Nat.eqb (idx m) a byIdx
       | None => byIdx
       end)
    stack [].

Fixpoint spatialmatches_of (cacheSpatialmatches : list CacheSpatialmatch)
    (stackByIdx : list (nat * Phrasematch)) (addressDataByIdx : list (nat * Address))
    (partialNumber : bool) : Completion (list Spatialmatch) :=
  match cacheSpatialmatches with
  | [] => Normal []
  | c :: more =>
      try sm <- new_Spatialmatch c stackByIdx addressDataByIdx partialNumber;
      try rest <- spatialmatches_of more stackByIdx addressDataByIdx partialNumber;
      Normal (sm :: rest)
  end.

(** The call of [coalesce] with its callback. *)
Definition coalesce_then (stack : Rebalanced) (coalesceOpts : CoalesceOpts)
    (addressDataByIdx : list (nat * Address)) (partialNumber : bool) (w : World)
    : Completion (World * list Spatialmatch) :=
  let stackByIdx := getStackByIdx (rb_elems stack) in
  let cacheSpatialmatches :=
    match coalesce stack coalesceOpts with
    | Some l => l
    | None => []
    end in
  let waste :=
    match cacheSpatialmatches with
    | [] => w_waste w ++ [JsMap.keys stackByIdx]
    | _ :: _ => w_waste w
    end in
  try spatialmatches <-
    spatialmatches_of cacheSpatialmatches stackByIdx addressDataByIdx partialNumber;
  Normal ({| coalesce_calls := coalesce_calls w ++ [(stack, coalesceOpts)];
             w_waste := waste |}, spatialmatches).

(** The result is what the stack's callback receives.  [options] is
    [None] when the caller passed none. *)
Definition coalesceStack (options : option Options) (stack : Rebalanced) (w : World)
    : Completion (World * list Spatialmatch) :=
  let elements := rb_elems stack in
  let partialNumber :=
    match last elements with
    | Some m => partialNumber m
    | None => false
    end in
  let addressDataByIdx := address_by_idx elements in
  match options with
  | None =>
      coalesce_then stack {| centerzxy := None; co_radius := None; bboxzxy := None |}
                    addressDataByIdx partialNumber w
  | Some options =>
      try centre <-
        match proximity options with
        | None => Normal (None, None)
        | Some prox =>
            let maxZoom := fold_left (fun maxZoom m => Z.max maxZoom (zoom m)) (rev elements) 0 in
            match last elements with
            | None => Throw
            | Some m =>
                let r :=
                  match radius m with
                  | Some r => if truthy r then r else COALESCE_PROXIMITY_RADIUS
                  | None => COALESCE_PROXIMITY_RADIUS
                  end in
                Normal (Some (center2zxy prox maxZoom), Some r)
            end
        end;
      let with_bbox (b : list float) :=
        match elements with
        | [] => Throw
        | first :: _ =>
            coalesce_then stack
              {| centerzxy := fst centre; co_radius := snd centre;
                 bboxzxy := Some (insideTile b (zoom first)) |}
              addressDataByIdx partialNumber w
        end in
      match proximity options with
      | Some prox =>
          if partialNumber then
            let pnBbox := bufferPoint_miles (snd prox) prox 10 in
            match bbox options with
            | Some b =>
                match bbox_intersection pnBbox b with
                | None => Normal (w, [])
                | Some pnBbox => with_bbox pnBbox
                end
            | None => with_bbox pnBbox
            end
          else
            match bbox options with
            | Some b => with_bbox b
            | None =>
                coalesce_then stack
                  {| centerzxy := fst centre; co_radius := snd centre; bboxzxy := None |}
                  addressDataByIdx partialNumber w
            end
      | None =>
          match bbox options with
          | Some b => with_bbox b
          | None =>
              coalesce_then stack
                {| centerzxy := fst centre; co_radius := snd centre; bboxzxy := None |}
                addressDataByIdx partialNumber w
          end
      end
  end.

(** *** coalesceStacks *)

(** What one stack leaves behind on the queue: the call of [coalesce]
    made for it, if one is made, the entry that the callback of the call
    pushes to [waste], if it pushes one, and the spatialmatches handed to
    the queue for the stack. *)
Record Task := {
  t_calls : list (Rebalanced * CoalesceOpts);
  t_waste : list (list nat);
  t_results : list Spatialmatch
}.

(** [q.defer(coalesceStack, stack)]: the three are what [coalesceStack]
    adds to a world without calls and waste. *)
Definition defer (options : option Options) (stack : Rebalanced) : Completion Task :=
  try r <- coalesceStack options stack {| coalesce_calls := []; w_waste := [] |};
  Normal {| t_calls := coalesce_calls (fst r);
            t_waste := w_waste (fst r);
            t_results := snd r |}.

Fixpoint defer_all (options : option Options) (stacks : list Rebalanced)
    : Completion (list Task) :=
  match stacks with
  | [] => Normal []
  | stack :: more =>
      try task <- defer options stack;
      try tasks <- defer_all options more;
      Normal (task :: tasks)
  end.

(** The positions 0 .. n-1 in the order of completion that [schedule]
    gives: the positions it names, each at its first mention, then the
    others in ascending order. *)
Definition completion_order (schedule : list nat) (n : nat) : list nat :=
  let named := remove_dups (List.filter (fun p => (p <? n)%nat) schedule) in
  named ++ List.filter (fun p => negb (bool_decide (p ∈ named))) (seq 0 n).

(** The tasks in the order in which their calls complete. *)
Definition completed (tasks : list Task) : list Task :=
  omap (fun p => tasks !! p) (completion_order completion (length tasks)).

(** [queue()] sets no limit on the tasks that run together, so that every
    [q.defer] starts its stack at once: the calls of [coalesce] are made
    in the order of the stacks.  Their callbacks run later, as the calls
    complete, and it is then that an entry is pushed to [waste]; the
    queue hands the result lists to [awaitAll] in the order of the
    stacks. *)
Definition coalesceStacks (options : option Options) (stacks : list Rebalanced) (w : World)
    : Completion (World * list (list Spatialmatch)) :=
  try tasks <- defer_all options stacks;
  Normal ({| coalesce_calls := coalesce_calls w ++ concat (map t_calls tasks);
             w_waste := w_waste w ++ concat (map t_waste (completed tasks)) |},
          map t_results tasks).

(** *** coalesceFinalize *)

Record Dedup := {
  d_sets : gmap Z Cover;
  doneAscending : gset Z;
  doneDescending : gset Z;
  doneSingle : gset Z;
  filteredSpatialmatches : list Spatialmatch
}.

(** The loop over [covers] that keeps the best cover of each feature. *)
Definition best_covers (sets : gmap Z Cover) (covers : list Cover) : gmap Z Cover :=
  fold_left
    (fun sets cover =>
       let id := c_tmpid cover in
       match sets !! id with
       | None => <[id := cover]> sets
       | Some held =>
           if (c_relev held <? c_relev cover)%float then <[id := cover]> sets else sets
       end)
    covers sets.

(** One round of the loop over [combined]. *)
Definition dedup_step (d : Dedup) (spatialmatch : Spatialmatch) : Completion Dedup :=
  let covers := covers spatialmatch in
  let sets := best_covers (d_sets d) covers in
  match covers with
  | [] => Throw
  | first :: others =>
      let tmpid := c_tmpid first in
      let second_idx := match others with c :: _ => Some (c_idx c) | [] => None end in
      let descending :=
        match second_idx with Some i => (i <? c_idx first)%nat | None => false end in
      let ascending :=
        match second_idx with Some i => (c_idx first <? i)%nat | None => false end in
      if (1 <? length covers)%nat && descending
         && negb (bool_decide (tmpid ∈ doneDescending d)) then
        Normal {| d_sets := sets;
                  doneAscending := doneAscending d;
                  doneDescending := {[ tmpid ]} ∪ doneDescending d;
                  doneSingle := doneSingle d;
                  filteredSpatialmatches := filteredSpatialmatches d ++ [spatialmatch] |}
      else if (1 <? length covers)%nat && ascending
              && negb (bool_decide (tmpid ∈ doneAscending d)) then
        Normal {| d_sets := sets;
                  doneAscending := {[ tmpid ]} ∪ doneAscending d;
                  doneDescending := doneDescending d;
                  doneSingle := doneSingle d;
                  filteredSpatialmatches := filteredSpatialmatches d ++ [spatialmatch] |}
      else if (length covers =? 1)%nat
              && negb (bool_decide (tmpid ∈ doneAscending d))
              && negb (bool_decide (tmpid ∈ doneDescending d))
              && negb (bool_decide (tmpid ∈ doneSingle d)) then
        Normal {| d_sets := sets;
                  doneAscending := doneAscending d;
                  doneDescending := doneDescending d;
                  doneSingle := {[ tmpid ]} ∪ doneSingle d;
                  filteredSpatialmatches := filteredSpatialmatches d ++ [spatialmatch] |}
      else
        Normal {| d_sets := sets;
                  doneAscending := doneAscending d;
                  doneDescending := doneDescending d;
                  doneSingle := doneSingle d;
                  filteredSpatialmatches := filteredSpatialmatches d |}
  end.

Fixpoint dedup_loop (combined : list Spatialmatch) (d : Dedup) : Completion Dedup :=
  match combined with
  | [] => Normal d
  | spatialmatch :: more =>
      try d <- dedup_step d spatialmatch;
      dedup_loop more d
  end.

(** The pass over the sorted array [combined]. *)
Definition dedup (combined : list Spatialmatch) : Completion Dedup :=
  dedup_loop combined
    {| d_sets := ∅; doneAscending := ∅; doneDescending := ∅; doneSingle := ∅;
       filteredSpatialmatches := [] |}.

Definition coalesceFinalize (waste : list (list nat)) (err : option string)
    (results : list (list Spatialmatch)) : Completion CallbackArgs :=
  match err with
  | Some e => Normal (CallbackError e)
  | None =>
      try combined <- array_sort sortByRelev (concat results);
      try d <- dedup combined;
      Normal (CallbackResult {| results := filteredSpatialmatches d;
                                sets := d_sets d;
                                waste := waste |})
  end.

(** *** spatialmatch *)

(** A run of [spatialmatch]: the stacks before rebalancing, the calls
    made to the coalesce primitive, and what the callback received. *)
Record Run := {
  run_stacks : list (Stack Phrasematch);
  run_calls : list (Rebalanced * CoalesceOpts);
  run_callback : CallbackArgs
}.

(** [arch_stacks.forEach((arch_stack) => { arch_stack.sort(sortByZoomIdx); })]:
    each array is sorted in place and keeps its relev and adjRelev. *)
Fixpoint sort_each (arch_stacks : list (Stack Archetype))
    : Completion (list (Stack Archetype)) :=
  match arch_stacks with
  | [] => Normal []
  | arch_stack :: more =>
      try sorted <- array_sort sortByZoomIdx (elems arch_stack);
      try rest <- sort_each more;
      Normal ({| elems := sorted;
                 relev := relev arch_stack;
                 adjRelev := adjRelev arch_stack |} :: rest)
  end.

Definition build_stacks (phrasematchResults : list (PhrasematchResult Phrasematch))
    (options : option Options) : Completion (list (Stack Phrasematch)) :=
  match phrasematchResults with
  | [] => Normal []
  | _ :: _ =>
      let archetypes := collapseToArchetypes phrasematchResults in
      match options with
      | None => Throw
      | Some options =>
          try stacked <- stackable archetypes (stackable_limit options);
          match stacked with
          | None => Throw
          | Some arch_stacks =>
              let arch_stacks := allowed arch_stacks options in
              try arch_stacks <- sort_each arch_stacks;
              try arch_stacks <- array_sort sortByRelevLengthIdx arch_stacks;
              let arch_stacks := slice0 arch_stacks (spatialmatch_stack_limit options) in
              expandFromArchetypes arch_stacks (spatialmatch_stack_limit options)
          end
      end
  end.

Definition spatialmatch (query : list string)
    (phrasematchResults : list (PhrasematchResult Phrasematch))
    (options : option Options) : Completion Run :=
  try stacks <- build_stacks phrasematchResults options;
  let rebalanced := map (fun stack => rebalance query (elems stack)) stacks in
  try r <- coalesceStacks options rebalanced {| coalesce_calls := []; w_waste := [] |};
  try args <- coalesceFinalize (w_waste (fst r)) None (snd r);
  Normal {| run_stacks := stacks;
            run_calls := coalesce_calls (fst r);
            run_callback := args |}.

End Pipeline.

(** ** Where the elements of a stack come from *)

(** [zs] pairs each element of a stack with the position in
    [phrasematchResults] of the result it is drawn from: the positions are
    pairwise distinct, every element is a phrasematch of its result, the
    masks of two elements and the nmasks of their two results are disjoint
    under [&], and the bmask of the later of two results is not set at the
    idx of the element drawn from the earlier one. *)
Definition drawn_from {A : Type} `{StackItem A} (results : list (PhrasematchResult A))
    (zs : list (nat * A)) : Prop :=
  NoDup (map fst zs)
  /\ (forall p e, (p, e) ∈ zs -> exists r, results !! p = Some r /\ e ∈ phrasematches r)
  /\ (forall p e q f, (p, e) ∈ zs -> (q, f) ∈ zs -> p <> q ->
        Js.and (item_mask e) (item_mask f) = 0)
  /\ (forall p e q f r s, (p, e) ∈ zs -> (q, f) ∈ zs -> p <> q ->
        results !! p = Some r -> results !! q = Some s ->
        Js.and (nmask r) (nmask s) = 0)
  /\ (forall p e q f r, (p, e) ∈ zs -> (q, f) ∈ zs -> (q < p)%nat ->
        results !! p = Some r ->
        bmask_at (bmask r) (item_idx f) = false).

(** Every phrasematch carries the idx of its result, and no two results
    have the same idx. *)
Definition one_result_per_idx {A : Type} `{StackItem A}
    (results : list (PhrasematchResult A)) : Prop :=
  NoDup (map r_idx results)
  /\ (forall r e, r ∈ results -> e ∈ phrasematches r -> item_idx e = r_idx r).

(** ** The cartesian product of the exemplars, as the spec words it *)

(** All ways to pick one exemplar per archetype, in stack order, the
    choice at the last position varying fastest. *)
Fixpoint exemplar_product (archs : list Archetype) : list (list Phrasematch) :=
  match archs with
  | [] => [[]]
  | arch :: deeper =>
      flat_map (fun exemplar => map (cons exemplar) (exemplar_product deeper))
               (exemplars arch)
  end.

(** The number of such picks: the product of the sizes of the
    exemplars lists. *)
Definition product_size (archs : list Archetype) : nat :=
  fold_right (fun arch n => (length (exemplars arch) * n)%nat) 1%nat archs.

(** An expanded stack carries the scalars of the archetype stack. *)
Definition expanded (stack : Stack Archetype) (picked : list Phrasematch) : Stack Phrasematch :=
  {| elems := picked; relev := relev stack; adjRelev := adjRelev stack |}.

Definition full_expansion (stacks : list (Stack Archetype)) : list (Stack Phrasematch) :=
  flat_map (fun stack => map (expanded stack) (exemplar_product (elems stack))) stacks.

(** ** The population count, as the spec words it *)

(** The number of set bits among the 32 low bits. *)
Definition bitcount (width : nat) (z : Z) : nat :=
  list_sum (map (fun i => if Z.testbit z (Z.of_nat i) then 1%nat else 0%nat) (seq 0 width)).

Definition popcount (z : Z) : nat := bitcount 32 z.

(** The weight [rebalance] gives an element of a stack of [size]
    elements, as the spec words it. *)
Definition rebalanced_weight (roundTo : float -> Z -> float) (garbage size : nat)
    (m : Phrasematch) : float :=
  let totalLengthBonus := (0.01 * Js.of_nat (garbage + size))%float in
  let weightPerMatch := (1 / Js.of_nat (garbage + size) - 0.01)%float in
  roundTo ((weightPerMatch + totalLengthBonus * weight m) * editMultiplier m)%float 8.

(** ** Directions of a spatialmatch, as the spec words them *)

Definition first_tmpid_is (t : Z) (sm : Spatialmatch) : bool :=
  match covers sm with
  | first :: _ => c_tmpid first =? t
  | [] => false
  end.

(** [covers[0].idx > covers[1].idx] *)
Definition is_descending (sm : Spatialmatch) : bool :=
  match covers sm with
  | first :: second :: _ => (c_idx second <? c_idx first)%nat
  | _ => false
  end.

(** [covers[0].idx < covers[1].idx] *)
Definition is_ascending (sm : Spatialmatch) : bool :=
  match covers sm with
  | first :: second :: _ => (c_idx first <? c_idx second)%nat
  | _ => false
  end.

Definition is_single (sm : Spatialmatch) : bool :=
  match covers sm with
  | [_] => true
  | _ => false
  end.

Definition descending_of (t : Z) (sm : Spatialmatch) : bool :=
  is_descending sm && first_tmpid_is t sm.

Definition ascending_of (t : Z) (sm : Spatialmatch) : bool :=
  is_ascending sm && first_tmpid_is t sm.

Definition single_of (t : Z) (sm : Spatialmatch) : bool :=
  is_single sm && first_tmpid_is t sm.

(** ** The scores of a stack, summed in the order of stacking *)

(** [relev] after stacking the elements of [order] one after the other. *)
Definition weights_sum {A : Type} `{StackItem A} (order : list A) : float :=
  fold_left (fun rel e => (rel + item_weight e)%float) order 0%float.

(** [adjRelev] after stacking the elements of [order], before the length
    penalty. *)
Definition adjusted_sum {A : Type} `{StackItem A} (order : list A) : float :=
  fold_left (fun adj e => (adj + item_weight e * item_editMultiplier e)%float)
            order 0%float.

(** [.9 + (.1 / (stack.length || 1))] *)
Definition lengthPenalty_of (size : nat) : float :=
  (0.9 + 0.1 / Js.of_nat (match size with O => 1 | n => n end))%float.

(** The stacks of one archetype each, for the archetypes of a result. *)
Definition lone_stacks (rel adj : Archetype -> float) (archs : list Archetype)
    : list (Stack Archetype) :=
  map (fun g => {| elems := [g]; relev := rel g; adjRelev := adj g |}) archs.

(** A spatialmatch that the pass can keep for the feature [t]: one of the
    three kinds, its first cover being of [t]. *)
Definition of_tmpid (t : Z) (sm : Spatialmatch) : bool :=
  descending_of t sm || ascending_of t sm || single_of t sm.

(** What [sets] holds for a feature after the covers [all] went by:
    nothing when no cover is of the feature, and else a cover of the
    feature that no later cover of the feature beats on relev. *)
Definition best_cover_of (all : list Cover) (id : Z) (held : option Cover) : Prop :=
  match held with
  | None => Forall (fun c => c_tmpid c <> id) all
  | Some h =>
      c_tmpid h = id
      /\ exists before after,
           all = before ++ h :: after
           /\ Forall (fun c => c_tmpid c = id -> (c_relev h <? c_relev c)%float = false) after
  end.

(** [top] is the highest idx among the elements of a stack, 0 for a stack
    without elements or with idx 0 only. *)
Definition highest_idx {A : Type} `{StackItem A} (elements : list A) (top : nat) : Prop :=
  Forall (fun e => (item_idx e <= top)%nat) elements
  /\ (top = 0%nat \/ exists e, e ∈ elements /\ item_idx e = top).

(** [partialNumber] of the last element of a stack, [false] on a stack
    without elements. *)
Definition ends_in_partialNumber (stack : Rebalanced) : bool :=
  match last (rb_elems stack) with
  | Some m => partialNumber m
  | None => false
  end.

(** [zs] pairs each element of a stack of phrasematches with the
    position of the result it is drawn from: the positions are pairwise
    distinct, every element is a phrasematch of its result, and the
    masks, the nmasks and the bmasks allow the results together, the
    bmask of the later result being read at the idx of the earlier
    one. *)
Definition stacked_from (rs : list (PhrasematchResult Phrasematch))
    (zs : list (nat * Phrasematch)) : Prop :=
  NoDup (map fst zs)
  /\ (forall p e, (p, e) ∈ zs -> exists r, rs !! p = Some r /\ e ∈ phrasematches r)
  /\ (forall p e q f, (p, e) ∈ zs -> (q, f) ∈ zs -> p <> q ->
        Js.and (mask e) (mask f) = 0)
  /\ (forall p e q f r s, (p, e) ∈ zs -> (q, f) ∈ zs -> p <> q ->
        rs !! p = Some r -> rs !! q = Some s ->
        Js.and (nmask r) (nmask s) = 0)
  /\ (forall p e q f r s, (p, e) ∈ zs -> (q, f) ∈ zs -> (q < p)%nat ->
        rs !! p = Some r -> rs !! q = Some s ->
        bmask_at (bmask r) (r_idx s) = false).

(** The first exemplars of the archetypes of a result, in the order of
    the archetypes. *)
Definition group_heads (archs : list Archetype) : list Phrasematch :=
  omap (fun g => head (exemplars g)) archs.

(** The address data of the last element of the stack that has the idx
    and address data. *)
Definition last_address (i : nat) (stack : list Phrasematch) : option Address :=
  head (omap (fun m => if (idx m =? i)%nat then address m else None) (rev stack)).

(** ** Sample inputs *)

Definition one_token : Subquery := {| tokens := ["main"%string]; edit_distance := 0 |}.

(** A phrasematch of index [i] over the tokens [m], of weight [w]. *)
Definition sample_match (m : Z) (i : nat) (w : float) : Phrasematch := {|
  subquery := one_token;
  weight := w;
  mask := m;
  scorefactor := 1;
  idx := i;
  zoom := 6;
  editMultiplier := 1;
  prefix := enabled;
  proxMatch := false;
  catMatch := false;
  partialNumber := false;
  radius := None;
  address := None
|}.

Definition sample_result {A : Type} (i : nat) (nm : Z) (bm : list bool) (l : list A)
    : PhrasematchResult A :=
  {| phrasematches := l; r_idx := i; nmask := nm; bmask := bm |}.

(** A fuzzy variant of [sample_match 1 0 1]: same signature, other
    scoring fields. *)
Definition other_variant : Phrasematch := {|
  subquery := one_token;
  weight := 1;
  mask := 1;
  scorefactor := 2;
  idx := 3;
  zoom := 7;
  editMultiplier := 1;
  prefix := enabled;
  proxMatch := true;
  catMatch := true;
  partialNumber := false;
  radius := None;
  address := None
|}.

Definition fuzzy_result : PhrasematchResult Phrasematch :=
  sample_result 0 1 [] [sample_match 1 0 1; other_variant; sample_match 1 0 1].

Definition fuzzy_archetype : Archetype := {|
  a_mask := 1;
  a_weight := 1;
  a_editMultiplier := 0.99;
  a_zoom := 6;
  a_idx := 0;
  a_scorefactor := 1;
  a_proxMatch := false;
  a_catMatch := false;
  a_prefix := enabled;
  exemplars := [sample_match 1 0 1; other_variant; sample_match 1 0 1]
|}.

(** Two indexes, the second the more relevant; with [limit = 1] the memo
    holds [held_memo] when the stack of the first index alone,
    [late_candidate], is offered. *)
Definition two_levels : list (PhrasematchResult Phrasematch) :=
  [sample_result 0 1 [] [sample_match 1 0 0.6];
   sample_result 1 2 [] [sample_match 2 1 0.7]].

Definition held_memo : Memo Phrasematch :=
  {| stacks := [];
     maxStacks := [make_targetStack [] 0 0 0 (sample_match 2 1 0.7)];
     maxRelev := 0.7 |}.

Definition late_candidate : Stack Phrasematch :=
  make_targetStack [] 0 0 0 (sample_match 1 0 0.6).

(** The masks of the stacks [stackable] returns, [[]] if it returns none. *)
Definition stack_masks {A : Type} `{StackItem A}
    (r : Completion (option (list (Stack A)))) : list (list Z) :=
  match r with
  | Normal (Some l) => map (fun s => map item_mask (elems s)) l
  | _ => []
  end.

(** The elements of the stacks [stackable] returns, [[]] if it returns
    none. *)
Definition stack_elems {A : Type}
    (r : Completion (option (list (Stack A)))) : list (list A) :=
  match r with
  | Normal (Some l) => map elems l
  | _ => []
  end.

(** Three indexes whose matches cover the first, the third and the second
    token of a query. *)
Definition three_levels : list (PhrasematchResult Phrasematch) :=
  [sample_result 0 1 [] [sample_match 1 0 0.3];
   sample_result 1 2 [] [sample_match 4 1 0.3];
   sample_result 2 4 [] [sample_match 2 2 0.3]].

(** The bmask of the first result excludes index 1; the bmask of the
    second does not exclude index 0. *)
Definition one_sided_bmask : list (PhrasematchResult Phrasematch) :=
  [sample_result 0 1 [false; true] [sample_match 1 0 0.5];
   sample_result 1 2 [] [sample_match 2 1 0.5]].

(** Two results of the same index. *)
Definition shared_idx : list (PhrasematchResult Phrasematch) :=
  [sample_result 0 1 [] [sample_match 2 0 0.5];
   sample_result 0 2 [] [sample_match 1 0 0.5]].

Definition three_levels_stacks : list (Stack Phrasematch) :=
  match stackable three_levels 10 with
  | Normal (Some l) => l
  | _ => []
  end.

(** The stack of all three. *)
Definition three_levels_full : Stack Phrasematch :=
  nth 3 three_levels_stacks {| elems := []; relev := 0; adjRelev := 0 |}.

(** An archetype of index 1 with two exemplars, and a stack of it under
    [fuzzy_archetype]. *)
Definition city_archetype : Archetype := {|
  a_mask := 2;
  a_weight := 0.5;
  a_editMultiplier := 1;
  a_zoom := 6;
  a_idx := 1;
  a_scorefactor := 1;
  a_proxMatch := false;
  a_catMatch := false;
  a_prefix := enabled;
  exemplars := [sample_match 2 1 0.5; sample_match 2 1 0.5]
|}.

Definition fuzzy_stack : Stack Archetype :=
  {| elems := [fuzzy_archetype; city_archetype]; relev := 1; adjRelev := 0.95 |}.

Definition lone_stack : Stack Archetype :=
  {| elems := [fuzzy_archetype]; relev := 1; adjRelev := 0.99 |}.

(** A stand-in for [roundTo] that leaves its argument as it is. *)
Definition unrounded (x : float) (places : Z) : float := x.

Definition two_matches : list Phrasematch :=
  [sample_match 1 0 0.5; sample_match 2 1 0.5].

(** A stand-in for [decode3BitLogScale]. *)
Definition scaled (code factor : float) : float := (code * factor)%float.

Definition sample_cacheCover (i : nat) (tmpid : Z) : CacheCover := {|
  cc_x := 1;
  cc_y := 2;
  cc_relev := 1;
  cc_id := tmpid;
  cc_idx := i;
  cc_tmpid := tmpid;
  cc_distance := 0;
  cc_score := 3;
  cc_scoredist := 3;
  cc_matches_language := true
|}.

Definition sample_cacheSpatialmatch : CacheSpatialmatch :=
  {| cs_relev := 1; cs_covers := [sample_cacheCover 0 7] |}.

Definition sample_stackByIdx : list (nat * Phrasematch) := [(0%nat, sample_match 1 0 1)].

Definition sample_cover (i : nat) (tmpid : Z) : Cover := {|
  c_x := 1;
  c_y := 2;
  c_relev := 1;
  c_id := tmpid;
  c_idx := i;
  c_tmpid := tmpid;
  c_distance := 0;
  c_score := 3;
  c_scoredist := 3;
  c_scorefactor := 1;
  c_matches_language := true;
  c_prefix := enabled;
  c_mask := 1;
  c_text := "main";
  c_zoom := 6
|}.

Definition sample_spatialmatch (r : float) (cs : list Cover) : Spatialmatch :=
  {| sm_relev := r; covers := cs; sm_partialNumber := false; sm_address := None;
     scoredist := 3 |}.

(** A descending pair, an ascending pair and a second descending pair of
    the same tmpid. *)
Definition descending_pair : Spatialmatch :=
  sample_spatialmatch 1 [sample_cover 2 7; sample_cover 1 8].
Definition ascending_pair : Spatialmatch :=
  sample_spatialmatch 0.9 [sample_cover 1 7; sample_cover 2 9].
Definition later_descending_pair : Spatialmatch :=
  sample_spatialmatch 0.8 [sample_cover 2 7; sample_cover 1 10].

Definition three_pairs : list Spatialmatch :=
  [descending_pair; ascending_pair; later_descending_pair].

(** The first stack [stackable] returns on [three_levels]. *)
Definition three_levels_pair : Stack Phrasematch :=
  nth 0 three_levels_stacks {| elems := []; relev := 0; adjRelev := 0 |}.

(** A result whose phrasematches fall into two groups, and its two
    archetypes. *)
Definition mixed_result : PhrasematchResult Phrasematch :=
  sample_result 0 3 [] [sample_match 1 0 1; sample_match 2 0 1; sample_match 1 0 1].

Definition mixed_first : Archetype :=
  nth 0 (phrasematches (collapse_result mixed_result)) city_archetype.

Definition mixed_second : Archetype :=
  nth 1 (phrasematches (collapse_result mixed_result)) city_archetype.

(** Single-cover results of the feature 7, and a pair whose covers share
    an idx. *)
Definition lone_cover : Spatialmatch := sample_spatialmatch 1 [sample_cover 1 7].
Definition later_lone_cover : Spatialmatch := sample_spatialmatch 0.5 [sample_cover 3 7].
Definition same_idx_pair : Spatialmatch :=
  sample_spatialmatch 1 [sample_cover 1 7; sample_cover 1 8].

(** Options whose filter allows idx 0 and not idx 1. *)
Definition only_countries : Options :=
  {| proximity := None; bbox := None;
     allowed_idx := Some {[ 0%nat := true; 1%nat := false ]};
     stackable_limit := 10; spatialmatch_stack_limit := 4 |}.

Definition stack_of (ms : list Phrasematch) : Stack Phrasematch :=
  {| elems := ms; relev := 1; adjRelev := 1 |}.

(** A coalesce result of two covers, a stack map for them and address
    data for idx 0. *)
Definition two_cover_result : CacheSpatialmatch :=
  {| cs_relev := 1; cs_covers := [sample_cacheCover 1 7; sample_cacheCover 0 8] |}.

Definition two_level_stackByIdx : list (nat * Phrasematch) :=
  [(0%nat, sample_match 1 0 1); (1%nat, sample_match 2 1 1)].

Definition one_address : list (nat * Address) := [(0%nat, address_data "9"%string)].

(** Stand-ins for the collaborators of [coalesceStack]. *)
Definition tile_centre (prox : float * float) (z : Z) : list Z := [z; 0; 0].
Definition point_box (lat : float) (p : float * float) (miles : float) : list float :=
  [fst p; snd p; fst p; snd p].
Definition no_overlap (a b : list float) : option (list float) := None.
Definition whole_tile (b : list float) (z : Z) : list Z := [z; 0; 0; 0; 0].

(** A coalesce primitive that finds nothing for a stack of one element
    and [two_cover_result] for every other stack. *)
Definition sample_coalesce (stack : Rebalanced) (coalesceOpts : CoalesceOpts)
    : option (list CacheSpatialmatch) :=
  match rb_elems stack with
  | [_] => None
  | _ => Some [two_cover_result]
  end.

Definition country_stack : Rebalanced :=
  {| rb_elems := [sample_match 1 0 1]; rb_relev := 1 |}.
Definition two_level_stack : Rebalanced :=
  {| rb_elems := [sample_match 1 0 0.5; sample_match 2 1 0.5]; rb_relev := 1 |}.

Definition near_options : Options :=
  {| proximity := Some (0%float, 0%float); bbox := None; allowed_idx := None;
     stackable_limit := 10; spatialmatch_stack_limit := 4 |}.

Definition fresh_world : World := {| coalesce_calls := []; w_waste := [] |}.

(** A coalesce primitive that finds nothing. *)
Definition no_coalesce (stack : Rebalanced) (coalesceOpts : CoalesceOpts)
    : option (list CacheSpatialmatch) := None.

(** A phrasematch whose mask has all 32 bits set, as [|] gives it, and a
    query of 32 tokens. *)
Definition covering_match : Phrasematch := sample_match (-1) 0 1.
Definition thirty_two_tokens : list string := repeat "a"%string 32.


(* ================================================================== *)
(** * Properties *)

(** ** ToInt32 and the bit operators *)

Lemma to_int32_range z : - 2 ^ 31 <= Js.to_int32 z < 2 ^ 31.
Proof.
  unfold Js.to_int32.
  pose proof (Z.mod_pos_bound z (2 ^ 32) ltac:(lia)) as Hr.
  destruct (Z.ltb_spec (z mod 2 ^ 32) (2 ^ 31)); lia.
Qed.

Lemma to_int32_small z : - 2 ^ 31 <= z < 2 ^ 31 -> Js.to_int32 z = z.
Proof.
  intros Hz. unfold Js.to_int32.
  destruct (Z.leb_spec 0 z) as [Hpos | Hneg].
  - rewrite Z.mod_small by lia.
    destruct (Z.ltb_spec z (2 ^ 31)); lia.
  - replace (z mod 2 ^ 32) with (z + 2 ^ 32).
    + destruct (Z.ltb_spec (z + 2 ^ 32) (2 ^ 31)); lia.
    + apply Z.mod_unique with (q := -1); lia.
Qed.

(** Bit [i] of ToInt32 is bit [i] of the argument below the sign bit, and
    the sign bit above it. *)
Lemma to_int32_testbit z i :
  0 <= i -> Z.testbit (Js.to_int32 z) i = Z.testbit z (Z.min i 31).
Proof.
  intros Hi. unfold Js.to_int32.
  pose proof (Z.mod_pos_bound z (2 ^ 32) ltac:(lia)) as Hr.
  assert (Hlow : forall j, 0 <= j < 32 -> Z.testbit (z mod 2 ^ 32) j = Z.testbit z j).
  { intros j Hj. apply Z.mod_pow2_bits_low. lia. }
  assert (Hhigh : forall j, 32 <= j -> Z.testbit (z mod 2 ^ 32) j = false).
  { intros j Hj. apply Z.mod_pow2_bits_high. lia. }
  destruct (Z.ltb_spec (z mod 2 ^ 32) (2 ^ 31)) as [Hsmall | Hbig].
  - assert (H31 : forall j, 31 <= j -> Z.testbit (z mod 2 ^ 32) j = false).
    { intros j Hj. rewrite <- (Z.mod_small (z mod 2 ^ 32) (2 ^ 31)) by lia.
      apply Z.mod_pow2_bits_high. lia. }
    destruct (Z.min_spec i 31) as [[Hlt ->] | [Hge ->]].
    + apply Hlow. lia.
    + rewrite H31 by lia. rewrite <- (Hlow 31) by lia. symmetry. apply H31. lia.
  - assert (Hsign : Z.testbit (z mod 2 ^ 32) 31 = true).
    { apply Z.testbit_true; [lia|].
      replace (z mod 2 ^ 32 / 2 ^ 31) with 1; [reflexivity|].
      apply Z.div_unique with (r := z mod 2 ^ 32 - 2 ^ 31); lia. }
    assert (Hm : forall j, 0 <= j ->
                   Z.testbit (- 2 ^ 32) j = if j <? 32 then false else true).
    { intros j Hj. change (- 2 ^ 32) with (Z.shiftl (-1) 32).
      rewrite Z.shiftl_spec by lia.
      destruct (Z.ltb_spec j 32).
      - apply Z.testbit_neg_r. lia.
      - apply Z.bits_m1. lia. }
    assert (Hdisj : Z.land (z mod 2 ^ 32) (- 2 ^ 32) = 0).
    { apply Z.bits_inj'. intros j Hj.
      rewrite Z.land_spec, Z.bits_0, Hm by lia.
      destruct (Z.ltb_spec j 32); [apply andb_false_r|].
      rewrite Hhigh by lia. reflexivity. }
    replace (z mod 2 ^ 32 - 2 ^ 32) with (Z.lor (z mod 2 ^ 32) (- 2 ^ 32)).
    2:{ rewrite <- Z.lxor_lor by exact Hdisj.
        rewrite <- Z.add_nocarry_lxor by exact Hdisj. lia. }
    rewrite Z.lor_spec, Hm by lia.
    destruct (Z.min_spec i 31) as [[Hlt ->] | [Hge ->]].
    + destruct (Z.ltb_spec i 32); [|lia]. rewrite orb_false_r. apply Hlow. lia.
    + rewrite <- (Hlow 31), Hsign by lia.
      destruct (Z.ltb_spec i 32).
      * replace i with 31 by lia. rewrite Hsign. reflexivity.
      * apply orb_true_r.
Qed.

Lemma to_int32_lor a b :
  Js.to_int32 (Z.lor (Js.to_int32 a) (Js.to_int32 b))
  = Z.lor (Js.to_int32 a) (Js.to_int32 b).
Proof.
  apply Z.bits_inj'. intros i Hi.
  rewrite to_int32_testbit by exact Hi.
  rewrite !Z.lor_spec, !to_int32_testbit by lia.
  replace (Z.min (Z.min i 31) 31) with (Z.min i 31) by lia. reflexivity.
Qed.

Lemma js_and_comm a b : Js.and a b = Js.and b a.
Proof. unfold Js.and. apply Z.land_comm. Qed.

(** A mask disjoint from a union is disjoint from both parts. *)
Lemma js_and_or_disjoint m a b :
  Js.and (Js.or m a) b = 0 -> Js.and m b = 0 /\ Js.and a b = 0.
Proof.
  unfold Js.and, Js.or. rewrite to_int32_lor, Z.land_lor_distr_l.
  intros Hz. apply Z.lor_eq_0_iff in Hz. exact Hz.
Qed.

(** On masks below 2^31, [&] is the bitwise conjunction of the integers. *)
Lemma js_and_small a b :
  0 <= a < 2 ^ 31 -> 0 <= b < 2 ^ 31 -> Js.and a b = Z.land a b.
Proof.
  intros Ha Hb. unfold Js.and. rewrite !to_int32_small by lia. reflexivity.
Qed.

(** ** collapseToArchetypes: the shape of a group *)

Lemma fold_push_exemplars l : forall g,
  exemplars (fold_left push_exemplar l g) = exemplars g ++ l
  /\ a_mask (fold_left push_exemplar l g) = a_mask g
  /\ a_weight (fold_left push_exemplar l g) = a_weight g
  /\ a_editMultiplier (fold_left push_exemplar l g) = a_editMultiplier g
  /\ a_zoom (fold_left push_exemplar l g) = a_zoom g
  /\ a_idx (fold_left push_exemplar l g) = a_idx g
  /\ a_scorefactor (fold_left push_exemplar l g) = a_scorefactor g
  /\ a_proxMatch (fold_left push_exemplar l g) = a_proxMatch g
  /\ a_catMatch (fold_left push_exemplar l g) = a_catMatch g
  /\ a_prefix (fold_left push_exemplar l g) = a_prefix g.
Proof.
  induction l as [|e l IH]; intros g; simpl.
  - rewrite app_nil_r. repeat split.
  - destruct (IH (push_exemplar g e)) as (-> & -> & -> & -> & -> & -> & -> & -> & -> & ->).
    simpl. rewrite <- app_assoc. repeat split.
Qed.

(** An entry of [uniqMap]: keyed by the signature of its first exemplar,
    built from that exemplar, and holding after it only phrasematches of
    the same signature. *)
Definition group_entry (r_idx : nat) (entry : Signature * Archetype) : Prop :=
  exists first rest,
    fst entry = signature first
    /\ snd entry = fold_left push_exemplar (first :: rest) (new_archetype r_idx first)
    /\ Forall (fun e => signature_eqb (signature e) (signature first) = true) rest.

Lemma JsMap_update_Forall {K V : Type} (eqb : K -> K -> bool) (P : K * V -> Prop)
    (f : V -> V) (k : K) (d : V) (m : list (K * V)) :
  Forall P m ->
  (forall k' v, P (k', v) -> eqb k k' = true -> P (k', f v)) ->
  P (k, f d) ->
  Forall P (JsMap.set eqb k
              (f (match JsMap.get eqb k m with Some v => v | None => d end)) m).
Proof.
  intros Hm Hhit Hnew. induction Hm as [|[k' v'] more Hx Hmore IH]; simpl.
  - constructor; [exact Hnew | constructor].
  - destruct (eqb k k') eqn:E.
    + constructor; [apply Hhit; assumption | assumption].
    + constructor; assumption.
Qed.

Lemma uniq_push_groups r_idx uniqMap inMatch :
  Forall (group_entry r_idx) uniqMap ->
  Forall (group_entry r_idx) (uniq_push r_idx uniqMap inMatch).
Proof.
  intros Hm. unfold uniq_push.
  apply (JsMap_update_Forall signature_eqb (group_entry r_idx)
           (fun g => push_exemplar g inMatch)); [exact Hm | |].
  - intros k' g (first & rest & Hk & Hg & Hrest) Heq.
    cbn [fst snd] in Hk, Hg. subst k' g.
    exists first, (rest ++ [inMatch]). cbn [fst snd]. split; [reflexivity|]. split.
    + change (first :: rest ++ [inMatch]) with ((first :: rest) ++ [inMatch]).
      rewrite fold_left_app. reflexivity.
    + apply Forall_app. split; [exact Hrest|].
      constructor; [exact Heq|constructor].
  - exists inMatch, []. simpl. repeat split. constructor.
Qed.

Lemma build_uniqMap_groups r_idx ms :
  Forall (group_entry r_idx) (build_uniqMap r_idx ms).
Proof.
  unfold build_uniqMap.
  assert (G : forall m, Forall (group_entry r_idx) m ->
                        Forall (group_entry r_idx) (fold_left (uniq_push r_idx) ms m)).
  { induction ms as [|x ms IH]; intros m Hm; simpl; [exact Hm|].
    apply IH, uniq_push_groups, Hm. }
  apply G. constructor.
Qed.

(** Every archetype of the output is the penalised form of a group of
    the result it comes from. *)
Lemma collapsed_archetype_origin rs r g :
  r ∈ collapseToArchetypes rs -> g ∈ phrasematches r ->
  exists inResult first rest,
    inResult ∈ rs
    /\ r_idx r = r_idx inResult
    /\ Forall (fun e => signature_eqb (signature e) (signature first) = true) rest
    /\ g = penalise (fold_left push_exemplar (first :: rest)
                       (new_archetype (r_idx inResult) first)).
Proof.
  unfold collapseToArchetypes. intros Hr Hg.
  apply list_elem_of_fmap in Hr as (inResult & -> & Hin).
  simpl in Hg. apply list_elem_of_fmap in Hg as (g0 & -> & Hg0).
  unfold JsMap.values in Hg0. apply list_elem_of_fmap in Hg0 as ([k g1] & -> & Hentry).
  pose proof (build_uniqMap_groups (r_idx inResult) (phrasematches inResult)) as Hall.
  rewrite Forall_forall in Hall. apply Hall in Hentry as (first & rest & _ & Hg1 & Hrest).
  simpl in Hg1. exists inResult, first, rest. simpl. subst g1. auto.
Qed.

(** The groups share out the phrasematches of the result: every
    phrasematch is an exemplar of one archetype. *)
Lemma uniq_push_exemplars r_idx uniqMap inMatch :
  concat (map (fun entry => exemplars (snd entry)) (uniq_push r_idx uniqMap inMatch))
  ≡ₚ concat (map (fun entry => exemplars (snd entry)) uniqMap) ++ [inMatch].
Proof.
  unfold uniq_push. generalize (signature inMatch). intros sig.
  induction uniqMap as [|[k g] more IH]; simpl.
  - reflexivity.
  - destruct (signature_eqb sig k); simpl.
    + rewrite <- !app_assoc. apply Permutation_app_head, Permutation_app_comm.
    + rewrite IH, app_assoc. reflexivity.
Qed.

Lemma build_uniqMap_exemplars r_idx ms :
  concat (map (fun entry => exemplars (snd entry)) (build_uniqMap r_idx ms)) ≡ₚ ms.
Proof.
  unfold build_uniqMap.
  assert (G : forall m,
             concat (map (fun entry => exemplars (snd entry))
                         (fold_left (uniq_push r_idx) ms m))
             ≡ₚ concat (map (fun entry => exemplars (snd entry)) m) ++ ms).
  { induction ms as [|x ms IH]; intros m; simpl.
    - rewrite app_nil_r. reflexivity.
    - rewrite IH, uniq_push_exemplars, <- app_assoc. reflexivity. }
  apply G.
Qed.

Lemma exemplars_penalise g : exemplars (penalise g) = exemplars g.
Proof. unfold penalise. destruct (low_confidence g); reflexivity. Qed.

Lemma collapse_result_exemplars inResult :
  concat (map exemplars (phrasematches (collapse_result inResult)))
  ≡ₚ phrasematches inResult.
Proof.
  unfold collapse_result, JsMap.values. simpl. rewrite !map_map.
  rewrite <- (build_uniqMap_exemplars (r_idx inResult) (phrasematches inResult)) at 2.
  replace (map (fun entry => exemplars (penalise (snd entry)))
               (build_uniqMap (r_idx inResult) (phrasematches inResult)))
    with (map (fun entry => exemplars (snd entry))
              (build_uniqMap (r_idx inResult) (phrasematches inResult)));
    [reflexivity|].
  apply map_ext. intros entry. symmetry. apply exemplars_penalise.
Qed.

Lemma PrefixScan_eqb_eq a b : PrefixScan_eqb a b = true <-> a = b.
Proof. destruct a, b; simpl; split; congruence. Qed.

(** The penalty condition, spelled out. *)
Lemma low_confidence_spec g first rest :
  exemplars g = first :: rest ->
  low_confidence g = true <->
  (length (tokens (subquery first)) = 1%nat
   /\ edit_distance (subquery first) = 0
   /\ a_prefix g <> disabled
   /\ (2 < length (exemplars g))%nat).
Proof.
  intros He. unfold low_confidence. rewrite He.
  rewrite !andb_true_iff, Nat.eqb_eq, Z.eqb_eq, negb_true_iff, Nat.ltb_lt.
  rewrite <- not_true_iff_false, PrefixScan_eqb_eq. tauto.
Qed.

Lemma low_confidence_penalise g : low_confidence (penalise g) = low_confidence g.
Proof.
  unfold penalise. destruct (low_confidence g) eqn:E; [|exact E].
  unfold low_confidence in *. simpl. exact E.
Qed.

Lemma signature_eqb_fields e first :
  signature_eqb (signature e) (signature first) = true ->
  mask e = mask first /\ prefix e = prefix first
  /\ Js.same_string (weight e) (weight first) = true
  /\ Js.same_string (editMultiplier e) (editMultiplier first) = true.
Proof.
  unfold signature_eqb, signature.
  rewrite !andb_true_iff, Z.eqb_eq, PrefixScan_eqb_eq. tauto.
Qed.

(** The fields of an archetype of the output, from the group it stands for. *)
Lemma collapsed_archetype_fields rs r g :
  r ∈ collapseToArchetypes rs -> g ∈ phrasematches r ->
  exists first rest,
    exemplars g = first :: rest
    /\ Forall (fun e => signature_eqb (signature e) (signature first) = true) rest
    /\ a_mask g = mask first /\ a_weight g = weight first /\ a_zoom g = zoom first
    /\ a_scorefactor g = scorefactor first /\ a_proxMatch g = proxMatch first
    /\ a_catMatch g = catMatch first /\ a_prefix g = prefix first
    /\ a_idx g = r_idx r
    /\ a_editMultiplier g =
         if low_confidence g then (editMultiplier first * 0.99)%float
         else editMultiplier first.
Proof.
  intros Hr Hg.
  destruct (collapsed_archetype_origin rs r g Hr Hg)
    as (inResult & first & rest & _ & Hidx & Hrest & ->).
  exists first, rest.
  set (G := fold_left push_exemplar (first :: rest) (new_archetype (r_idx inResult) first)).
  destruct (fold_push_exemplars (first :: rest) (new_archetype (r_idx inResult) first))
    as (Hex & Hm & Hw & He & Hz & Hi & Hs & Hp & Hc & Hpre).
  fold G in Hex, Hm, Hw, He, Hz, Hi, Hs, Hp, Hc, Hpre. simpl in *.
  rewrite low_confidence_penalise, exemplars_penalise, Hidx.
  unfold penalise. destruct (low_confidence G); simpl; rewrite ?He;
    repeat split; assumption.
Qed.

(** C5: in the output of [collapseToArchetypes], a group (the
    phrasematches of one result that share the signature of mask, weight,
    editMultiplier and prefix) has its editMultiplier multiplied by 0.99
    when the first exemplar's subquery has length 1 and edit distance 0,
    the group's prefix is not disabled and the group has more than two
    exemplars; in every other case the editMultiplier is the one of the
    group's key, unchanged. *)
Theorem collapse_low_confidence_penalty rs r g :
  r ∈ collapseToArchetypes rs -> g ∈ phrasematches r ->
  exists first rest,
    exemplars g = first :: rest
    /\ Forall (fun e => signature_eqb (signature e) (signature first) = true) rest
    /\ let low :=
         length (tokens (subquery first)) = 1%nat
         /\ edit_distance (subquery first) = 0
         /\ a_prefix g <> disabled
         /\ (2 < length (exemplars g))%nat in
       (low -> a_editMultiplier g = (editMultiplier first * 0.99)%float)
       /\ (~ low -> a_editMultiplier g = editMultiplier first).
Proof.
  intros Hr Hg.
  destruct (collapsed_archetype_fields rs r g Hr Hg)
    as (first & rest & Hex & Hrest & _ & _ & _ & _ & _ & _ & _ & _ & Hem).
  exists first, rest. split; [exact Hex|]. split; [exact Hrest|].
  pose proof (low_confidence_spec g first rest Hex) as Hspec.
  cbv zeta. destruct (low_confidence g).
  - split; [intros _; exact Hem|]. intros Hn. exfalso. apply Hn, Hspec. reflexivity.
  - split; [|intros _; exact Hem]. intros Hl. apply Hspec in Hl. discriminate.
Qed.

(** C6 (amended): an archetype of the output takes its mask, weight, zoom,
    scorefactor, proxMatch, catMatch and prefix from its first exemplar
    and its idx from the result it is collapsed from; its editMultiplier
    is the first exemplar's, times 0.99 under the low-confidence penalty;
    the other exemplars agree with the first on the signature only: same
    mask and prefix, and a weight and an editMultiplier that print the
    same. *)
Theorem archetype_fields_from_first_exemplar rs r g :
  r ∈ collapseToArchetypes rs -> g ∈ phrasematches r ->
  exists first rest,
    exemplars g = first :: rest
    /\ a_mask g = mask first /\ a_weight g = weight first /\ a_zoom g = zoom first
    /\ a_scorefactor g = scorefactor first /\ a_proxMatch g = proxMatch first
    /\ a_catMatch g = catMatch first /\ a_prefix g = prefix first
    /\ a_idx g = r_idx r
    /\ a_editMultiplier g =
         (if low_confidence g then (editMultiplier first * 0.99)%float
          else editMultiplier first)
    /\ Forall (fun e => mask e = mask first /\ prefix e = prefix first
                        /\ Js.same_string (weight e) (weight first) = true
                        /\ Js.same_string (editMultiplier e) (editMultiplier first) = true)
              rest.
Proof.
  intros Hr Hg.
  destruct (collapsed_archetype_fields rs r g Hr Hg)
    as (first & rest & Hex & Hrest & H1 & H2 & H3 & H4 & H5 & H6 & H7 & H8 & H9).
  exists first, rest. repeat (split; [assumption|]).
  eapply Forall_impl; [exact Hrest|].
  intros e He. apply signature_eqb_fields, He.
Qed.

Lemma fuzzy_result_collapsed :
  collapseToArchetypes [fuzzy_result] = [sample_result 0 1 [] [fuzzy_archetype]].
Proof. vm_compute. reflexivity. Qed.

Lemma collapse_low_confidence_penalty_witness :
  sample_result 0 1 [] [fuzzy_archetype] ∈ collapseToArchetypes [fuzzy_result]
  /\ fuzzy_archetype ∈ phrasematches (sample_result 0 1 [] [fuzzy_archetype])
  /\ exists first rest,
       exemplars fuzzy_archetype = first :: rest
       /\ Forall (fun e => signature_eqb (signature e) (signature first) = true) rest
       /\ let low :=
            length (tokens (subquery first)) = 1%nat
            /\ edit_distance (subquery first) = 0
            /\ a_prefix fuzzy_archetype <> disabled
            /\ (2 < length (exemplars fuzzy_archetype))%nat in
          (low -> a_editMultiplier fuzzy_archetype = (editMultiplier first * 0.99)%float)
          /\ (~ low -> a_editMultiplier fuzzy_archetype = editMultiplier first).
Proof.
  assert (H1 : sample_result 0 1 [] [fuzzy_archetype] ∈ collapseToArchetypes [fuzzy_result]).
  { rewrite fuzzy_result_collapsed. apply list_elem_of_here. }
  assert (H2 : fuzzy_archetype ∈ phrasematches (sample_result 0 1 [] [fuzzy_archetype])).
  { simpl. apply list_elem_of_here. }
  split; [exact H1|]. split; [exact H2|].
  exact (collapse_low_confidence_penalty [fuzzy_result] _ fuzzy_archetype H1 H2).
Defined.

(** Two doubles that [eqb] tells apart, the first not a NaN, differ. *)
Lemma float_neq (a b : float) :
  PrimFloat.eqb a a = true -> PrimFloat.eqb a b = false -> a <> b.
Proof. intros Hrefl Hne Heq. subst b. congruence. Qed.

(** C6, as stated, fails: under the penalty the archetype's editMultiplier
    is no exemplar's, and an exemplar that is not the first of its group
    may differ from the archetype in every scoring field outside the
    signature. *)
Lemma archetype_fields_differ_from_exemplar :
  collapseToArchetypes [fuzzy_result] = [sample_result 0 1 [] [fuzzy_archetype]]
  /\ other_variant ∈ exemplars fuzzy_archetype
  /\ Forall (fun e => a_editMultiplier fuzzy_archetype <> editMultiplier e)
            (exemplars fuzzy_archetype)
  /\ a_zoom fuzzy_archetype <> zoom other_variant
  /\ a_idx fuzzy_archetype <> idx other_variant
  /\ a_scorefactor fuzzy_archetype <> scorefactor other_variant
  /\ a_proxMatch fuzzy_archetype <> proxMatch other_variant
  /\ a_catMatch fuzzy_archetype <> catMatch other_variant.
Proof.
  split; [exact fuzzy_result_collapsed|].
  split; [simpl; apply list_elem_of_further, list_elem_of_here|].
  split.
  { simpl. repeat constructor; apply float_neq; reflexivity. }
  simpl. repeat split; try discriminate; apply float_neq; reflexivity.
Qed.

Lemma archetype_fields_from_first_exemplar_witness :
  sample_result 0 1 [] [fuzzy_archetype] ∈ collapseToArchetypes [fuzzy_result]
  /\ fuzzy_archetype ∈ phrasematches (sample_result 0 1 [] [fuzzy_archetype])
  /\ exists first rest,
       exemplars fuzzy_archetype = first :: rest
       /\ a_mask fuzzy_archetype = mask first
       /\ a_weight fuzzy_archetype = weight first
       /\ a_zoom fuzzy_archetype = zoom first
       /\ a_scorefactor fuzzy_archetype = scorefactor first
       /\ a_proxMatch fuzzy_archetype = proxMatch first
       /\ a_catMatch fuzzy_archetype = catMatch first
       /\ a_prefix fuzzy_archetype = prefix first
       /\ a_idx fuzzy_archetype = r_idx (sample_result 0 1 [] [fuzzy_archetype])
       /\ a_editMultiplier fuzzy_archetype =
            (if low_confidence fuzzy_archetype then (editMultiplier first * 0.99)%float
             else editMultiplier first)
       /\ Forall (fun e => mask e = mask first /\ prefix e = prefix first
                           /\ Js.same_string (weight e) (weight first) = true
                           /\ Js.same_string (editMultiplier e) (editMultiplier first) = true)
                 rest.
Proof.
  assert (H1 : sample_result 0 1 [] [fuzzy_archetype] ∈ collapseToArchetypes [fuzzy_result]).
  { rewrite fuzzy_result_collapsed. apply list_elem_of_here. }
  assert (H2 : fuzzy_archetype ∈ phrasematches (sample_result 0 1 [] [fuzzy_archetype])).
  { simpl. apply list_elem_of_here. }
  split; [exact H1|]. split; [exact H2|].
  exact (archetype_fields_from_first_exemplar [fuzzy_result] _ fuzzy_archetype H1 H2).
Defined.

(** ** stackable: the admission step *)

Section MemoOffer.
Context {A : Type} `{StackItem A}.
Variable limit : Z.

Lemma memo_offer_low (memo : Memo A) (t : Stack A) :
  (0.5 <? relev t)%float = false -> memo_offer limit memo t = memo.
Proof. intros Hlow. unfold memo_offer. rewrite Hlow. reflexivity. Qed.

(** The stacks a memo holds after an offer are stacks it held before,
    or the offered one. *)
Lemma memo_offer_subset (memo : Memo A) (t s : Stack A) :
  s ∈ stacks (memo_offer limit memo t) ++ maxStacks (memo_offer limit memo t) ->
  s = t \/ s ∈ stacks memo ++ maxStacks memo.
Proof.
  unfold memo_offer.
  repeat match goal with |- context [if ?c then _ else _] => destruct c end;
    simpl; rewrite ?elem_of_app, ?list_elem_of_singleton; tauto.
Qed.

End MemoOffer.

(** C1 (amended): a candidate stack with relev > 0.5 that beats the memo's
    maxRelev replaces maxStacks (which moves into stacks) when maxStacks
    holds at least [limit] stacks and is pushed into maxStacks otherwise,
    and in both cases becomes the new maxRelev; one that equals maxRelev is
    pushed into maxStacks; any other is pushed into stacks provided
    maxStacks (not stacks) holds fewer than [limit] stacks, and is dropped
    if not. *)
Theorem memo_offer_cases {A : Type} (limit : Z) (memo : Memo A) (t : Stack A) :
  (0.5 <? relev t)%float = true ->
  ((maxRelev memo <? relev t)%float = true ->
     (limit <= Z.of_nat (length (maxStacks memo)) ->
        memo_offer limit memo t =
        {| stacks := maxStacks memo; maxStacks := [t]; maxRelev := relev t |})
     /\ (Z.of_nat (length (maxStacks memo)) < limit ->
        memo_offer limit memo t =
        {| stacks := stacks memo; maxStacks := maxStacks memo ++ [t];
           maxRelev := relev t |}))
  /\ ((maxRelev memo <? relev t)%float = false ->
      (relev t =? maxRelev memo)%float = true ->
        memo_offer limit memo t =
        {| stacks := stacks memo; maxStacks := maxStacks memo ++ [t];
           maxRelev := maxRelev memo |})
  /\ ((maxRelev memo <? relev t)%float = false ->
      (relev t =? maxRelev memo)%float = false ->
        (Z.of_nat (length (maxStacks memo)) < limit ->
           memo_offer limit memo t =
           {| stacks := stacks memo ++ [t]; maxStacks := maxStacks memo;
              maxRelev := maxRelev memo |})
        /\ (limit <= Z.of_nat (length (maxStacks memo)) ->
           memo_offer limit memo t = memo)).
Proof.
  intros Hhalf. unfold memo_offer. rewrite Hhalf.
  split; [|split].
  - intros ->. split; intros Hl.
    + apply Z.leb_le in Hl. rewrite Hl. reflexivity.
    + apply Z.leb_gt in Hl. rewrite Hl. reflexivity.
  - intros -> ->. reflexivity.
  - intros -> ->. split; intros Hl.
    + apply Z.ltb_lt in Hl. rewrite Hl. reflexivity.
    + apply Z.ltb_ge in Hl. rewrite Hl. reflexivity.
Qed.

Lemma memo_offer_cases_witness :
  (0.5 <? relev late_candidate)%float = true
  /\ (maxRelev held_memo <? relev late_candidate)%float = false
  /\ (relev late_candidate =? maxRelev held_memo)%float = false
  /\ Z.of_nat (length (maxStacks held_memo)) < 2
  /\ memo_offer 2 held_memo late_candidate =
     {| stacks := stacks held_memo ++ [late_candidate];
        maxStacks := maxStacks held_memo;
        maxRelev := maxRelev held_memo |}.
Proof.
  assert (Hhalf : (0.5 <? relev late_candidate)%float = true) by reflexivity.
  assert (Hmax : (maxRelev held_memo <? relev late_candidate)%float = false) by reflexivity.
  assert (Heq : (relev late_candidate =? maxRelev held_memo)%float = false) by reflexivity.
  assert (Hlen : Z.of_nat (length (maxStacks held_memo)) < 2) by (simpl; lia).
  repeat (split; [assumption|]).
  exact (proj1 (proj2 (proj2 (memo_offer_cases 2 held_memo late_candidate Hhalf)) Hmax Heq)
           Hlen).
Defined.

(** C1, as stated, fails: a candidate below maxRelev is dropped although
    stacks holds fewer than [limit] stacks, since the test is on the
    length of maxStacks.  The state is the one [stackable] is in, on
    [two_levels] with limit 1, when the stack of the first index alone is
    offered; that stack is missing from the output. *)
Lemma offer_ignores_room_in_stacks :
  (0.5 <? relev late_candidate)%float = true
  /\ (maxRelev held_memo <? relev late_candidate)%float = false
  /\ (relev late_candidate =? maxRelev held_memo)%float = false
  /\ Z.of_nat (length (stacks held_memo)) < 1
  /\ stacks (memo_offer 1 held_memo late_candidate) <> stacks held_memo ++ [late_candidate]
  /\ memo_offer 1 held_memo late_candidate = held_memo
  /\ stack_masks (stackable two_levels 1) = [[2]; [1; 2]].
Proof.
  repeat split; try reflexivity; try (simpl; lia).
  vm_compute. discriminate.
Qed.

(** ** stackable: what every stack in the memo satisfies *)

Section StackableInvariant.
Context {A : Type} `{StackItem A}.
Variable limit : Z.
Variable results : list (PhrasematchResult A).

Definition stack_drawn (elements : list A) : Prop :=
  exists zs : list (nat * A), map snd zs = elements /\ drawn_from results zs.

Definition memo_drawn (memo : Memo A) : Prop :=
  forall s, s ∈ stacks memo ++ maxStacks memo -> stack_drawn (elems s).

(** The state of a frame: its stack is drawn from results before
    position [idx], and [mask] and [nmask'] cover the masks of the
    elements and the nmasks of their results. *)
Definition frame_drawn (idx : nat) (mask nmask' : Z) (stack : list A) : Prop :=
  exists zs : list (nat * A),
    map snd zs = stack
    /\ drawn_from results zs
    /\ (forall p e, (p, e) ∈ zs -> (p < idx)%nat)
    /\ (forall b e, Js.and mask b = 0 -> e ∈ stack -> Js.and (item_mask e) b = 0)
    /\ (forall b p e r, Js.and nmask' b = 0 -> (p, e) ∈ zs -> results !! p = Some r ->
          Js.and (nmask r) b = 0).

Lemma frame_drawn_stack idx mask nmask' stack :
  frame_drawn idx mask nmask' stack -> stack_drawn stack.
Proof. intros (zs & Hs & Hd & _). exists zs. auto. Qed.

Lemma frame_drawn_next idx mask nmask' stack :
  frame_drawn idx mask nmask' stack -> frame_drawn (S idx) mask nmask' stack.
Proof.
  intros (zs & Hs & Hd & Hlt & Hm & Hn). exists zs.
  split; [exact Hs|]. split; [exact Hd|]. split; [|split; assumption].
  intros p e Hin. apply Hlt in Hin. lia.
Qed.

Lemma memo_offer_drawn memo t :
  memo_drawn memo -> stack_drawn (elems t) -> memo_drawn (memo_offer limit memo t).
Proof.
  intros Hmemo Ht. unfold memo_drawn. intros s Hs.
  apply memo_offer_subset in Hs as [-> | Hs]; auto.
Qed.

(** Adding a phrasematch of the result at position [idx] that passed
    the gates of the frame. *)
Lemma frame_drawn_extend idx mask nmask' stack r next zs' :
  frame_drawn idx mask nmask' stack ->
  results !! idx = Some r ->
  next ∈ phrasematches r ->
  Js.and nmask' (nmask r) = 0 ->
  (forall s, s ∈ stack -> bmask_at (bmask r) (item_idx s) = false) ->
  Js.and mask (item_mask next) = 0 ->
  (forall zs, (forall x, x ∈ zs' zs <-> x = (idx, next) \/ x ∈ zs)
              /\ (forall y, y ∈ map snd (zs' zs) <-> y = next \/ y ∈ map snd zs)
              /\ (NoDup (map fst zs) -> idx ∉ map fst zs -> NoDup (map fst (zs' zs)))) ->
  forall target, (forall zs, map snd zs = stack -> map snd (zs' zs) = target) ->
  frame_drawn (S idx) (Js.or mask (item_mask next)) (Js.or nmask' (nmask r)) target.
Proof.
  intros (zs & Hs & (Hnd & Hsrc & Hmask & Hnmask & Hbmask) & Hlt & Hcm & Hcn)
         Hr Hnext Hgn Hgb Hgm Hzs' target Htarget.
  destruct (Hzs' zs) as (Hin & Hin2 & Hnd').
  assert (Hfresh : idx ∉ map fst zs).
  { intros Hi. apply list_elem_of_fmap in Hi as ([p e] & Hp & Hpe).
    simpl in Hp. subst p. apply Hlt in Hpe. lia. }
  assert (Hstack : forall q f, (q, f) ∈ zs -> f ∈ stack).
  { intros q f Hqf. rewrite <- Hs. apply list_elem_of_fmap. exists (q, f). auto. }
  exists (zs' zs). split; [apply Htarget, Hs|]. split; [|split; [|split]].
  - split; [auto|]. split; [|split; [|split]].
    + intros p e Hpe. apply Hin in Hpe as [Heq | Hpe]; [|eauto].
      inversion Heq; subst. eauto.
    + intros p e q f Hpe Hqf Hne.
      apply Hin in Hpe as [Heq1 | Hpe]; apply Hin in Hqf as [Heq2 | Hqf].
      * inversion Heq1; inversion Heq2; subst. congruence.
      * inversion Heq1; subst. rewrite js_and_comm. eapply Hcm; eauto.
      * inversion Heq2; subst. eapply Hcm; eauto.
      * eauto.
    + intros p e q f rp rq Hpe Hqf Hne Hrp Hrq.
      apply Hin in Hpe as [Heq1 | Hpe]; apply Hin in Hqf as [Heq2 | Hqf].
      * inversion Heq1; inversion Heq2; subst. congruence.
      * inversion Heq1; subst. rewrite Hr in Hrp. inversion Hrp; subst.
        rewrite js_and_comm. eapply Hcn; eauto.
      * inversion Heq2; subst. rewrite Hr in Hrq. inversion Hrq; subst.
        eapply Hcn; eauto.
      * eauto.
    + intros p e q f rp Hpe Hqf Hlt' Hrp.
      apply Hin in Hpe as [Heq1 | Hpe]; apply Hin in Hqf as [Heq2 | Hqf].
      * inversion Heq1; inversion Heq2; subst. lia.
      * inversion Heq1; subst. rewrite Hr in Hrp. inversion Hrp; subst.
        apply Hgb. eauto.
      * inversion Heq2; subst. apply Hlt in Hpe. lia.
      * eauto.
  - intros p e Hpe. apply Hin in Hpe as [Heq | Hpe].
    + inversion Heq; subst. lia.
    + apply Hlt in Hpe. lia.
  - intros b e Hb He. apply js_and_or_disjoint in Hb as [Hb1 Hb2].
    rewrite <- (Htarget zs Hs) in He. apply Hin2 in He as [-> | He]; [exact Hb2|].
    rewrite Hs in He. eauto.
  - intros b p e rp Hb Hpe Hrp. apply js_and_or_disjoint in Hb as [Hb1 Hb2].
    apply Hin in Hpe as [Heq | Hpe].
    + inversion Heq; subst. rewrite Hr in Hrp. inversion Hrp; subst. exact Hb2.
    + eauto.
Qed.

Lemma target_drawn idx mask nmask' stack r next rel adj :
  frame_drawn idx mask nmask' stack ->
  results !! idx = Some r ->
  next ∈ phrasematches r ->
  Js.and nmask' (nmask r) = 0 ->
  (forall s, s ∈ stack -> bmask_at (bmask r) (item_idx s) = false) ->
  Js.and mask (item_mask next) = 0 ->
  frame_drawn (S idx) (Js.or mask (item_mask next)) (Js.or nmask' (nmask r))
              (elems (make_targetStack stack mask rel adj next)).
Proof.
  intros Hf Hr Hnext Hgn Hgb Hgm. simpl.
  destruct (item_mask next <? mask).
  - apply (frame_drawn_extend idx mask nmask' stack r next
             (fun zs => (idx, next) :: zs)); auto.
    + intros zs. split; [|split].
      * intros x. rewrite elem_of_cons. reflexivity.
      * intros y. simpl. rewrite elem_of_cons. reflexivity.
      * intros Hnd Hfresh. simpl. apply NoDup_cons. auto.
    + intros zs <-. reflexivity.
  - apply (frame_drawn_extend idx mask nmask' stack r next
             (fun zs => zs ++ [(idx, next)])); auto.
    + intros zs. split; [|split].
      * intros x. rewrite elem_of_app, list_elem_of_singleton. tauto.
      * intros y. rewrite map_app, elem_of_app. simpl.
        rewrite list_elem_of_singleton. tauto.
      * intros Hnd Hfresh. rewrite map_app. simpl. apply NoDup_app.
        split; [exact Hnd|]. split; [|apply NoDup_singleton].
        intros x Hx Hx'. apply list_elem_of_singleton in Hx'. subst x. auto.
    + intros zs <-. rewrite map_app. reflexivity.
Qed.

(** Every frame leaves in the memo only stacks drawn from the results. *)
Lemma stackable_frame_drawn rest :
  forall pre memo idx mask nmask' stack rel adj,
    results = pre ++ rest ->
    length pre = idx ->
    frame_drawn idx mask nmask' stack ->
    memo_drawn memo ->
    memo_drawn (fst (stackable_frame limit rest memo idx mask nmask' stack rel adj)).
Proof.
  induction rest as [|r later IH];
    intros pre memo idx mask nmask' stack rel adj Hres Hlen Hframe Hmemo.
  - exact Hmemo.
  - assert (Hr : results !! idx = Some r).
    { rewrite Hres. apply list_lookup_middle. auto. }
    assert (Hdeeper : forall m mask1 nmask1 stack1 rel1 adj1,
               frame_drawn (S idx) mask1 nmask1 stack1 ->
               memo_drawn m ->
               memo_drawn
                 match later with
                 | [] => m
                 | _ :: _ =>
                     fst (stackable_frame limit later m (S idx) mask1 nmask1 stack1 rel1 adj1)
                 end).
    { intros m mask1 nmask1 stack1 rel1 adj1 Hf Hm.
      destruct later as [|r' later']; [exact Hm|].
      apply (IH (pre ++ [r])); auto.
      - rewrite <- app_assoc. exact Hres.
      - rewrite length_app. simpl. lia. }
    simpl.
    match goal with
    | |- context [if negb (Js.and nmask' (nmask r) =? 0) then (?m, _) else _] =>
        set (memo1 := m)
    end.
    assert (Hmemo1 : memo_drawn memo1).
    { apply Hdeeper; [apply frame_drawn_next, Hframe | exact Hmemo]. }
    clearbody memo1.
    destruct (Z.eqb_spec (Js.and nmask' (nmask r)) 0) as [Hgn|_]; simpl; [|exact Hmemo1].
    destruct (existsb (fun s => bmask_at (bmask r) (item_idx s)) stack) eqn:Hgb;
      simpl; [exact Hmemo1|].
    assert (Hgb' : forall s, s ∈ stack -> bmask_at (bmask r) (item_idx s) = false).
    { intros s Hs. apply not_true_is_false. intros Hset.
      assert (existsb (fun s => bmask_at (bmask r) (item_idx s)) stack = true).
      { apply existsb_exists. exists s. split; [apply list_elem_of_In, Hs | exact Hset]. }
      congruence. }
    match goal with |- context [fold_left ?f _ _] => set (step := f) end.
    assert (Hfold : forall l m,
               (forall x, x ∈ l -> x ∈ phrasematches r) ->
               memo_drawn m -> memo_drawn (fold_left step l m)).
    { induction l as [|next l IHl]; intros m Hl Hm; simpl; [exact Hm|].
      apply IHl; [intros x Hx; apply Hl; right; exact Hx|].
      unfold step.
      destruct (Z.eqb_spec (Js.and mask (item_mask next)) 0) as [Hgm|_];
        simpl; [|exact Hm].
      destruct (wrong_direction stack mask next); [exact Hm|].
      assert (Htarget : frame_drawn (S idx) (Js.or mask (item_mask next))
                          (Js.or nmask' (nmask r))
                          (elems (make_targetStack stack mask rel adj next))).
      { apply (target_drawn idx mask nmask' stack r next); auto.
        apply Hl. left. }
      apply Hdeeper; [exact Htarget|].
      apply memo_offer_drawn; [exact Hm|].
      eapply frame_drawn_stack, Htarget. }
    apply Hfold; auto.
Qed.

Lemma stackable_frame_returns rest memo idx mask nmask' stack rel adj out :
  snd (stackable_frame limit rest memo idx mask nmask' stack rel adj) = Normal (Some out) ->
  out = finish (fst (stackable_frame limit rest memo idx mask nmask' stack rel adj)).
Proof.
  destruct rest as [|r later]; simpl; [discriminate|].
  destruct (negb (Js.and nmask' (nmask r) =? 0)); simpl; [discriminate|].
  destruct (existsb (fun s => bmask_at (bmask r) (item_idx s)) stack);
    simpl; [discriminate|].
  destruct (idx =? 0)%nat; [|discriminate]. congruence.
Qed.

Lemma drawn_from_nil : drawn_from results [].
Proof.
  split; [constructor|]. repeat split; intros; exfalso;
    match goal with H : _ ∈ [] |- _ => apply elem_of_nil in H; exact H end.
Qed.

(** Every stack [stackable] returns is drawn from the results. *)
Lemma stackable_drawn out s :
  stackable results limit = Normal (Some out) -> s ∈ out -> stack_drawn (elems s).
Proof.
  unfold stackable. intros Hout Hs.
  apply stackable_frame_returns in Hout. subst out.
  unfold finish in Hs. apply list_elem_of_fmap in Hs as (s0 & -> & Hs0). simpl.
  revert s0 Hs0.
  apply (stackable_frame_drawn results []); auto.
  - exists []. split; [reflexivity|]. split; [apply drawn_from_nil|].
    split; [|split].
    + intros p e Hin. apply elem_of_nil in Hin. contradiction.
    + intros b e _ Hin. apply elem_of_nil in Hin. contradiction.
    + intros b p e r _ Hin. apply elem_of_nil in Hin. contradiction.
  - intros s Hin. simpl in Hin. apply elem_of_nil in Hin. contradiction.
Qed.

End StackableInvariant.

(** ** stackable: the stacks it returns *)

Lemma NoDup_idx_of_positions {A : Type} `{StackItem A}
    (results : list (PhrasematchResult A)) (zs : list (nat * A)) :
  NoDup (map r_idx results) ->
  NoDup (map fst zs) ->
  (forall p e, (p, e) ∈ zs ->
     exists r, results !! p = Some r /\ item_idx e = r_idx r) ->
  NoDup (map item_idx (map snd zs)).
Proof.
  intros Hidx. induction zs as [|[p e] zs IH]; intros Hnd Hsrc; simpl.
  - constructor.
  - simpl in Hnd. apply NoDup_cons in Hnd as [Hp Hnd].
    apply NoDup_cons. split.
    + intros Hin.
      apply list_elem_of_fmap in Hin as (f & Hf & Hin).
      apply list_elem_of_fmap in Hin as ([q f'] & Hq & Hin). simpl in Hq. subst f'.
      destruct (Hsrc p e) as (rp & Hrp & Hep); [left|].
      destruct (Hsrc q f) as (rq & Hrq & Hfq); [right; exact Hin|].
      assert (p = q).
      { apply (NoDup_lookup (map r_idx results) p q (r_idx rp) Hidx).
        - change (map r_idx results) with (r_idx <$> results).
          rewrite list_lookup_fmap, Hrp. reflexivity.
        - change (map r_idx results) with (r_idx <$> results).
          rewrite list_lookup_fmap, Hrq. simpl. congruence. }
      subst q. apply Hp. apply list_elem_of_fmap. exists (p, f). auto.
    + apply IH; [exact Hnd|]. intros q f Hin. apply Hsrc. right. exact Hin.
Qed.

(** On a list that is not empty the top frame passes its two gates, goes
    through its loop and returns the stacks of the memo. *)
Lemma stackable_returns {A : Type} `{StackItem A}
    (results : list (PhrasematchResult A)) (limit : Z) :
  results <> [] -> exists out, stackable results limit = Normal (Some out).
Proof.
  intros Hne. destruct results as [|r later]; [congruence|].
  unfold stackable. simpl. eexists. reflexivity.
Qed.

(** C2 (amended): on every list of phrasematch results that is not empty,
    [stackable] returns stacks, and the elements of every stack it returns
    are drawn from results at pairwise distinct positions of the list,
    have pairwise disjoint masks and come from results with pairwise
    disjoint nmasks (disjoint under JavaScript's 32-bit [&]); of two
    elements, the bmask of the result of the one drawn later is not set at
    the idx of the other; and the elements' idx are pairwise distinct
    provided that no two results have the same idx and every phrasematch
    carries the idx of its result. *)
Theorem stackable_stacks_drawn_from_results {A : Type} `{StackItem A}
    (results : list (PhrasematchResult A)) (limit : Z) :
  results <> [] ->
  exists out,
    stackable results limit = Normal (Some out)
    /\ forall s, s ∈ out ->
         exists zs : list (nat * A),
           map snd zs = elems s
           /\ drawn_from results zs
           /\ (one_result_per_idx results -> NoDup (map item_idx (elems s))).
Proof.
  intros Hne. destruct (stackable_returns results limit Hne) as (out & Hout).
  exists out. split; [exact Hout|]. intros s Hs.
  destruct (stackable_drawn limit results out s Hout Hs) as (zs & Hzs & Hd).
  exists zs. split; [exact Hzs|]. split; [exact Hd|].
  intros [Hidx Hcarry]. rewrite <- Hzs.
  destruct Hd as (Hnd & Hsrc & _).
  apply (NoDup_idx_of_positions results); auto.
  intros p e Hin. destruct (Hsrc p e Hin) as (r & Hr & He).
  exists r. split; [exact Hr|]. apply Hcarry; [|exact He].
  eapply list_elem_of_lookup_2, Hr.
Qed.

Lemma three_levels_one_result_per_idx : one_result_per_idx three_levels.
Proof.
  split.
  - apply (bool_decide_unpack (NoDup (map r_idx three_levels))). vm_compute. exact I.
  - intros r e Hr He. unfold three_levels in Hr.
    repeat (apply elem_of_cons in Hr as [-> | Hr]);
      [| | |apply elem_of_nil in Hr; contradiction];
      simpl in He; apply list_elem_of_singleton in He; subst e; reflexivity.
Qed.

Lemma stackable_stacks_drawn_from_results_witness :
  three_levels <> []
  /\ exists out,
       stackable three_levels 10 = Normal (Some out)
       /\ forall s, s ∈ out ->
            exists zs : list (nat * Phrasematch),
              map snd zs = elems s
              /\ drawn_from three_levels zs
              /\ NoDup (map item_idx (elems s)).
Proof.
  assert (Hne : three_levels <> []) by discriminate.
  split; [exact Hne|].
  destruct (stackable_stacks_drawn_from_results three_levels 10 Hne) as (out & Hout & Hall).
  exists out. split; [exact Hout|]. intros s Hs.
  destruct (Hall s Hs) as (zs & Hzs & Hd & Hidx).
  exists zs. split; [exact Hzs|]. split; [exact Hd|].
  apply Hidx, three_levels_one_result_per_idx.
Defined.

(** C2, as stated, fails twice.  On [one_sided_bmask] the stack of both
    matches is returned although the bmask of the first element's result
    is set at the idx of the second: only the bmask of the result being
    added is looked at.  On [shared_idx] the stack returned holds two
    elements of the same idx. *)
Lemma stackable_pairs_not_excluded :
  stack_elems (stackable one_sided_bmask 10)
    = [[sample_match 1 0 0.5; sample_match 2 1 0.5]]
  /\ (exists r, one_sided_bmask !! 0%nat = Some r
                /\ sample_match 1 0 0.5 ∈ phrasematches r
                /\ bmask_at (bmask r) (item_idx (sample_match 2 1 0.5)) = true)
  /\ stack_elems (stackable shared_idx 10)
       = [[sample_match 1 0 0.5; sample_match 2 0 0.5]]
  /\ item_idx (sample_match 1 0 0.5) = item_idx (sample_match 2 0 0.5).
Proof.
  split; [vm_compute; reflexivity|]. split.
  - eexists. split; [reflexivity|]. split; [apply list_elem_of_here | reflexivity].
  - split; [vm_compute; reflexivity | reflexivity].
Qed.

(** C3 fails on the code: on [three_levels] the stack of all three matches
    is returned with the match of mask 2 at position 0 and the match of
    mask 1 behind it.  A phrasematch goes to the front when its mask is
    below the union of the masks stacked so far, not when it is below the
    mask at position 0. *)
Theorem stackable_first_mask_not_smallest :
  stack_masks (stackable three_levels 10) = [[2; 4]; [1; 2]; [1; 4]; [2; 1; 4]]
  /\ exists s first other,
       three_levels_stacks !! 3%nat = Some s
       /\ elems s !! 0%nat = Some first
       /\ other ∈ elems s
       /\ item_mask other < item_mask first.
Proof.
  split; [vm_compute; reflexivity|].
  exists three_levels_full, (sample_match 2 2 0.3), (sample_match 1 0 0.3).
  split; [vm_compute; reflexivity|].
  split; [vm_compute; reflexivity|].
  split; [|simpl; lia].
  vm_compute. apply list_elem_of_further, list_elem_of_here.
Qed.

(** ** expandFromArchetypes *)

Section Expand.
Variable maxOut : Z.

(** The length at which the output stops growing: the test against
    [maxOut] follows a push, so that the first stack is always kept. *)
Let cap : nat := Z.to_nat (Z.max 1 maxOut).

(** Appending the stacks [more] to [out] up to the cap, and whether the
    cap is reached. *)
Definition emit (out more : list (Stack Phrasematch)) : list (Stack Phrasematch) * bool :=
  (out ++ firstn (cap - length out) more, (cap <=? length out + length more)%nat).

Lemma cap_test (out : list (Stack Phrasematch)) :
  (0 < length out)%nat ->
  (maxOut <=? Z.of_nat (length out)) = (cap <=? length out)%nat.
Proof.
  intros Hpos. subst cap.
  destruct (Z.leb_spec maxOut (Z.of_nat (length out)));
    destruct (Nat.leb_spec (Z.to_nat (Z.max 1 maxOut)) (length out)); lia.
Qed.

Lemma emit_nil out : (length out < cap)%nat -> emit out [] = (out, false).
Proof.
  intros Hlt. unfold emit. simpl. rewrite firstn_nil, app_nil_r, Nat.add_0_r.
  destruct (Nat.leb_spec cap (length out)); [lia | reflexivity].
Qed.

Lemma emit_full out p1 p2 :
  snd (emit out p1) = true -> emit out (p1 ++ p2) = (fst (emit out p1), true).
Proof.
  unfold emit. simpl. intros Hfull. apply Nat.leb_le in Hfull.
  rewrite firstn_app, length_app.
  replace (cap - length out - length p1)%nat with 0%nat by lia.
  simpl. rewrite app_nil_r. f_equal. apply Nat.leb_le. lia.
Qed.

Lemma emit_more out p1 p2 :
  snd (emit out p1) = false ->
  emit out (p1 ++ p2) = emit (fst (emit out p1)) p2
  /\ (length (fst (emit out p1)) < cap)%nat.
Proof.
  unfold emit. simpl. intros Hroom. apply Nat.leb_gt in Hroom.
  assert (Hall : firstn (cap - length out) p1 = p1) by (apply firstn_all2; lia).
  rewrite firstn_app, Hall, !length_app.
  split; [|lia].
  rewrite <- app_assoc. f_equal; [|f_equal; lia].
  f_equal. f_equal. f_equal. lia.
Qed.

Lemma expand_last_emit rel adj soFar exs :
  forall out, (length out < cap)%nat ->
    expand_last exs rel adj maxOut soFar out
    = emit out (map (fun exemplar =>
                       {| elems := soFar ++ [exemplar]; relev := rel; adjRelev := adj |})
                    exs).
Proof.
  induction exs as [|exemplar more IH]; intros out Hlt; simpl.
  - symmetry. apply emit_nil, Hlt.
  - set (outStack := {| elems := soFar ++ [exemplar]; relev := rel; adjRelev := adj |}).
    set (rest := map _ more).
    rewrite cap_test by (rewrite length_app; simpl; lia).
    change (outStack :: rest) with ([outStack] ++ rest).
    assert (Hone : emit out [outStack]
                   = (out ++ [outStack], (cap <=? length (out ++ [outStack]))%nat)).
    { unfold emit. rewrite length_app. simpl length.
      replace (firstn (cap - length out) [outStack]) with [outStack]; [reflexivity|].
      destruct (cap - length out)%nat eqn:E; [lia|].
      simpl. rewrite firstn_nil. reflexivity. }
    destruct (cap <=? length (out ++ [outStack]))%nat eqn:Hcap.
    + rewrite emit_full by (rewrite Hone; reflexivity). rewrite Hone. reflexivity.
    + destruct (emit_more out [outStack] rest) as [-> Hlt'];
        [rewrite Hone; reflexivity|].
      rewrite Hone in *. simpl in *. apply IH, Hlt'.
Qed.

Lemma exemplar_product_last arch :
  exemplar_product [arch] = map (fun exemplar => [exemplar]) (exemplars arch).
Proof.
  simpl. induction (exemplars arch) as [|e l IH]; simpl; [reflexivity|].
  rewrite IH. reflexivity.
Qed.

Lemma expandFromArchetypesInner_emit rel adj rest :
  rest <> [] ->
  forall soFar out, (length out < cap)%nat ->
    expandFromArchetypesInner rest rel adj maxOut soFar out
    = Normal (emit out (map (fun picked =>
                               {| elems := soFar ++ picked; relev := rel; adjRelev := adj |})
                            (exemplar_product rest))).
Proof.
  induction rest as [|arch deeper IH]; intros Hne soFar out Hlt; [congruence|].
  destruct deeper as [|arch' deeper'].
  - simpl expandFromArchetypesInner. rewrite expand_last_emit by exact Hlt.
    rewrite exemplar_product_last, map_map. reflexivity.
  - assert (Hdeeper : arch' :: deeper' <> []) by discriminate.
    specialize (IH Hdeeper). clear Hdeeper Hne.
    change (exemplar_product (arch :: arch' :: deeper'))
      with (flat_map (fun exemplar =>
                        map (cons exemplar) (exemplar_product (arch' :: deeper')))
                     (exemplars arch)).
    change (expandFromArchetypesInner (arch :: arch' :: deeper') rel adj maxOut soFar out)
      with ((fix each (exs : list Phrasematch) (out : list (Stack Phrasematch)) :=
               match exs with
               | [] => Normal (out, false)
               | exemplar :: more =>
                   try r <- expandFromArchetypesInner (arch' :: deeper') rel adj maxOut
                              (soFar ++ [exemplar]) out;
                   let '(out, done) := r in
                   if done then Normal (out, true) else each more out
               end) (exemplars arch) out).
    remember (arch' :: deeper') as deeper eqn:Edeeper. clear Edeeper.
    revert out Hlt. induction (exemplars arch) as [|exemplar more IHexs]; intros out Hlt.
    + cbn [flat_map map]. rewrite emit_nil by exact Hlt. reflexivity.
    + rewrite IH by exact Hlt.
      match goal with |- context [bind (Normal (emit out ?b)) _] => set (block := b) end.
      cbn [flat_map]. rewrite map_app, map_map.
      match goal with
      | |- context [emit out (map ?f (exemplar_product deeper) ++ ?o)] =>
          replace (map f (exemplar_product deeper)) with block
            by (apply map_ext; intros picked; rewrite <- app_assoc; reflexivity);
          set (others := o)
      end.
      destruct (emit out block) as [out' done] eqn:Hemit. cbn [bind].
      destruct done.
      * rewrite emit_full by (rewrite Hemit; reflexivity). rewrite Hemit. reflexivity.
      * destruct (emit_more out block others) as [-> Hlt'];
          [rewrite Hemit; reflexivity|].
        rewrite Hemit in *. cbn [fst] in *. apply IHexs, Hlt'.
Qed.

Lemma expand_stacks_emit stacks :
  Forall (fun stack => elems stack <> []) stacks ->
  forall out, (length out < cap)%nat ->
    expand_stacks stacks maxOut out = Normal (fst (emit out (full_expansion stacks))).
Proof.
  induction 1 as [|stack more Hne Hmore IH]; intros out Hlt.
  - cbn [expand_stacks full_expansion flat_map]. rewrite emit_nil by exact Hlt. reflexivity.
  - cbn [expand_stacks]. rewrite expandFromArchetypesInner_emit by assumption.
    unfold full_expansion. cbn [flat_map]. fold (full_expansion more).
    match goal with |- context [bind (Normal (emit out ?b)) _] => set (block := b) end.
    replace (map (expanded stack) (exemplar_product (elems stack))) with block
      by (apply map_ext; reflexivity).
    destruct (emit out block) as [out' done] eqn:Hemit. cbn [bind].
    destruct done.
    + rewrite emit_full by (rewrite Hemit; reflexivity). rewrite Hemit. reflexivity.
    + destruct (emit_more out block (full_expansion more)) as [-> Hlt'];
        [rewrite Hemit; reflexivity|].
      rewrite Hemit in *. cbn [fst] in *. apply IH, Hlt'.
Qed.

Lemma expandFromArchetypes_firstn stacks :
  Forall (fun stack => elems stack <> []) stacks ->
  expandFromArchetypes stacks maxOut = Normal (firstn cap (full_expansion stacks)).
Proof.
  intros Hne. unfold expandFromArchetypes.
  rewrite expand_stacks_emit; [|exact Hne|subst cap; simpl; lia].
  unfold emit. simpl. rewrite Nat.sub_0_r. reflexivity.
Qed.

End Expand.

Lemma exemplar_product_length archs :
  length (exemplar_product archs) = product_size archs.
Proof.
  induction archs as [|arch deeper IH]; simpl; [reflexivity|].
  rewrite <- IH. induction (exemplars arch) as [|e l IHl]; simpl; [reflexivity|].
  rewrite length_app, length_map, IHl. reflexivity.
Qed.

Lemma full_expansion_length stacks :
  length (full_expansion stacks)
  = list_sum (map (fun stack => product_size (elems stack)) stacks).
Proof.
  unfold full_expansion. induction stacks as [|stack more IH]; simpl; [reflexivity|].
  rewrite length_app, length_map, exemplar_product_length, IH. reflexivity.
Qed.

(** C9: on the stacks [spatialmatch] selects, [expandFromArchetypes]
    returns the cartesian products of the exemplars of the stacks, one
    stack after the other, each product in stack order with the last
    position varying fastest and each expanded stack carrying the relev
    and adjRelev of its archetype stack, cut after the first maxOut
    stacks.  So at most maxOut stacks are emitted, and when the products
    hold no more than that, the output is all of them and its length is
    the sum over the stacks of the product of the sizes of their
    exemplars lists.  The selected stacks hold at least one archetype
    each, as [stackable] builds them, and were cut by
    [arch_stacks.slice(0, maxOut)], maxOut being a count: at maxOut = 0
    there is no stack to expand. *)
Theorem expandFromArchetypes_product stacks maxOut :
  0 <= maxOut ->
  (maxOut = 0 -> stacks = []) ->
  Forall (fun stack => elems stack <> []) stacks ->
  exists out,
    expandFromArchetypes stacks maxOut = Normal out
    /\ out = firstn (Z.to_nat maxOut) (full_expansion stacks)
    /\ Z.of_nat (length out) <= maxOut
    /\ (Z.of_nat (length (full_expansion stacks)) <= maxOut ->
        out = full_expansion stacks
        /\ length out = list_sum (map (fun stack => product_size (elems stack)) stacks)).
Proof.
  intros Hcount Hcut Hne. exists (firstn (Z.to_nat maxOut) (full_expansion stacks)).
  split.
  - rewrite expandFromArchetypes_firstn by exact Hne.
    destruct (Z.eq_dec maxOut 0) as [Hzero|Hpos].
    + rewrite (Hcut Hzero), Hzero. reflexivity.
    + replace (Z.max 1 maxOut) with maxOut by lia. reflexivity.
  - split; [reflexivity|]. split.
    + rewrite length_firstn. lia.
    + intros Hfit. rewrite firstn_all2 by lia.
      split; [reflexivity | apply full_expansion_length].
Qed.

(** What [arch_stacks.slice(0, maxOut)] leaves at maxOut = 0. *)
Lemma slice0_zero {T : Type} (l : list T) : slice0 l 0 = [].
Proof. reflexivity. Qed.

Lemma expandFromArchetypes_product_witness :
  (exists out,
     expandFromArchetypes [fuzzy_stack] 4 = Normal out
     /\ out = firstn (Z.to_nat 4) (full_expansion [fuzzy_stack])
     /\ Z.of_nat (length out) <= 4
     /\ (Z.of_nat (length (full_expansion [fuzzy_stack])) <= 4 ->
         out = full_expansion [fuzzy_stack]
         /\ length out
            = list_sum (map (fun stack => product_size (elems stack)) [fuzzy_stack])))
  /\ (exists out,
        expandFromArchetypes (slice0 [fuzzy_stack] 0) 0 = Normal out
        /\ Z.of_nat (length out) <= 0).
Proof.
  assert (Hne : Forall (fun stack : Stack Archetype => elems stack <> []) [fuzzy_stack]).
  { constructor; [simpl; discriminate | constructor]. }
  split.
  - apply (expandFromArchetypes_product [fuzzy_stack] 4); [lia | lia | exact Hne].
  - destruct (expandFromArchetypes_product (slice0 [fuzzy_stack] 0) 0)
      as (out & Hout & _ & Hlen & _);
      [lia | intros _; apply slice0_zero | rewrite slice0_zero; constructor |].
    exists out. split; [exact Hout | exact Hlen].
Defined.

(** Taken by itself, on stacks that were not cut, the function emits one
    stack at [maxOut = 0]: the length of the output is tested after a
    push.  [spatialmatch] never calls it so. *)
Lemma expand_emits_one_stack_at_zero :
  expandFromArchetypes [lone_stack] 0
    = Normal [expanded lone_stack [sample_match 1 0 1]]
  /\ ~ (Z.of_nat (length [expanded lone_stack [sample_match 1 0 1]]) <= 0).
Proof. split; [vm_compute; reflexivity | simpl; lia]. Qed.

(** ** rebalance *)

(** Counting the pieces [toString(2)] splits into at "1" counts the set
    bits. *)
Fixpoint ones (p : positive) : nat :=
  match p with
  | xH => 1
  | xO q => ones q
  | xI q => S (ones q)
  end.

Lemma split_length_binary_digits p :
  forall low,
    Js.split_length "1" (Js.binary_digits p low)
    = (ones p + Js.split_length "1" low)%nat.
Proof.
  induction p as [q IH | q IH |]; intros low; simpl.
  - rewrite IH. simpl. lia.
  - rewrite IH. simpl. reflexivity.
  - reflexivity.
Qed.

Lemma bitcount_succ width z :
  bitcount (S width) z
  = ((if Z.testbit z 0 then 1 else 0) + bitcount width (Z.div2 z))%nat.
Proof.
  unfold bitcount. rewrite <- cons_seq, <- seq_shift. simpl. f_equal.
  rewrite map_map. f_equal. apply map_ext. intros i.
  rewrite Z.div2_spec, Z.shiftr_spec by lia.
  replace (Z.of_nat (S i)) with (Z.of_nat i + 1) by lia. reflexivity.
Qed.

Lemma bitcount_zero width : bitcount width 0 = 0%nat.
Proof.
  induction width as [|w IH]; [reflexivity|].
  rewrite bitcount_succ. simpl. exact IH.
Qed.

Lemma ones_bitcount p :
  forall width, Zpos p < 2 ^ Z.of_nat width -> ones p = bitcount width (Zpos p).
Proof.
  induction p as [q IH | q IH |]; intros width Hlt.
  - destruct width as [|w]; [simpl in Hlt; lia|].
    rewrite bitcount_succ. simpl. f_equal. apply IH.
    rewrite Nat2Z.inj_succ, Z.pow_succ_r in Hlt by lia. lia.
  - destruct width as [|w]; [simpl in Hlt; lia|].
    rewrite bitcount_succ. simpl. apply IH.
    rewrite Nat2Z.inj_succ, Z.pow_succ_r in Hlt by lia. lia.
  - destruct width as [|w]; [simpl in Hlt; lia|].
    rewrite bitcount_succ. simpl. rewrite bitcount_zero. reflexivity.
Qed.

Lemma toString2_ones_popcount z :
  0 <= z < 2 ^ 31 ->
  (Js.split_length "1" (Js.toString2 z) - 1)%nat = popcount z.
Proof.
  intros Hz. unfold popcount. destruct z as [|p|p]; [| |lia].
  - rewrite bitcount_zero. reflexivity.
  - simpl Js.toString2. rewrite split_length_binary_digits. simpl Js.split_length.
    rewrite <- (ones_bitcount p 32) by (simpl; lia). lia.
Qed.

Lemma lor_int31 a b :
  0 <= a < 2 ^ 31 -> 0 <= b < 2 ^ 31 ->
  Js.or a b = Z.lor a b /\ 0 <= Z.lor a b < 2 ^ 31.
Proof.
  intros Ha Hb. unfold Js.or.
  pose proof (to_int32_lor a b) as Hfix.
  rewrite (to_int32_small a), (to_int32_small b) in * by lia.
  split; [reflexivity|]. split; [apply Z.lor_nonneg; lia|].
  pose proof (to_int32_range (Z.lor a b)) as Hrange. rewrite Hfix in Hrange. lia.
Qed.

Lemma stackMask_lor stack :
  Forall (fun m => 0 <= mask m < 2 ^ 31) stack ->
  forall acc, 0 <= acc < 2 ^ 31 ->
    fold_left (fun stackMask m => Js.or stackMask (mask m)) stack acc
    = fold_left Z.lor (map mask stack) acc
    /\ 0 <= fold_left Z.lor (map mask stack) acc < 2 ^ 31.
Proof.
  induction 1 as [|m stack Hm Hstack IH]; intros acc Hacc; simpl; [auto|].
  destruct (lor_int31 acc (mask m) Hacc Hm) as [-> Hrange]. apply IH, Hrange.
Qed.

Lemma to_int32_idem z : Js.to_int32 (Js.to_int32 z) = Js.to_int32 z.
Proof. apply to_int32_small, to_int32_range. Qed.

Lemma to_int32_lor_bits a b :
  Js.to_int32 (Z.lor a b) = Z.lor (Js.to_int32 a) (Js.to_int32 b).
Proof.
  apply Z.bits_inj'. intros i Hi.
  rewrite Z.lor_spec, !to_int32_testbit by exact Hi. apply Z.lor_spec.
Qed.

(** The loop over the masks: [|=] keeps the signed 32-bit integer of the
    OR of the masks. *)
Lemma stackMask_int32 stack :
  forall acc,
    fold_left (fun stackMask m => Js.or stackMask (mask m)) stack (Js.to_int32 acc)
    = Js.to_int32 (fold_left Z.lor (map mask stack) acc).
Proof.
  induction stack as [|m stack IH]; intros acc; simpl; [reflexivity|].
  rewrite <- IH. f_equal. unfold Js.or. rewrite to_int32_idem. symmetry.
  apply to_int32_lor_bits.
Qed.

Lemma stackMask_of_masks stack :
  fold_left (fun stackMask m => Js.or stackMask (mask m)) stack 0
  = Js.to_int32 (fold_left Z.lor (map mask stack) 0).
Proof. apply (stackMask_int32 stack 0). Qed.

(** [toString(2)] writes a sign and the magnitude: the "1" it writes are
    the set bits of the magnitude. *)
Lemma toString2_ones_magnitude z :
  - 2 ^ 31 <= z < 2 ^ 31 ->
  (Js.split_length "1" (Js.toString2 z) - 1)%nat = popcount (Z.abs z).
Proof.
  intros Hz. unfold popcount. destruct z as [|p|p].
  - rewrite bitcount_zero. reflexivity.
  - change (Z.abs (Z.pos p)) with (Z.pos p).
    simpl Js.toString2. rewrite split_length_binary_digits. simpl Js.split_length.
    rewrite <- (ones_bitcount p 32) by (simpl; lia). lia.
  - change (Z.abs (Z.neg p)) with (Z.pos p).
    change (Js.toString2 (Z.neg p)) with (String "-" (Js.binary_digits p "")).
    change (Js.split_length "1" (String "-" (Js.binary_digits p "")))
      with (Js.split_length "1" (Js.binary_digits p "")).
    rewrite split_length_binary_digits. simpl Js.split_length.
    rewrite <- (ones_bitcount p 32) by (simpl; lia). lia.
Qed.

Section RebalanceProperties.
Variable roundTo : float -> Z -> float.

Lemma rebalance_loop (w : Phrasematch -> float) stack :
  forall stackClone totalWeight,
    fold_left
      (fun '(stackClone, totalWeight) m =>
         (stackClone ++ [clone_with_weight m (w m)], (totalWeight + w m)%float))
      stack (stackClone, totalWeight)
    = (stackClone ++ map (fun m => clone_with_weight m (w m)) stack,
       fold_left PrimFloat.add (map w stack) totalWeight).
Proof.
  induction stack as [|m stack IH]; intros stackClone totalWeight; simpl.
  - rewrite app_nil_r. reflexivity.
  - rewrite IH, <- app_assoc. reflexivity.
Qed.

(** C4 (amended): [rebalance] returns clones of the elements of the
    stack, the weight of each set to round8((weightPerMatch +
    totalLengthBonus * weight) * editMultiplier), with totalLengthBonus =
    0.01 * (garbage + stack.length) and weightPerMatch = 1 / (garbage +
    stack.length) - 0.01; the relev of the returned stack is
    min(round8(sum of the new weights), 1).  garbage is 0 if the number of
    "1" that [stackMask.toString(2)] writes equals the number of query
    tokens and 1 otherwise: [stackMask] is the OR of the masks as a signed
    32-bit integer and is written as sign and magnitude, so the number is
    the population count of the magnitude.  It is the population count of
    the OR of the masks when the masks are token bitmasks below 2^31.
    The result depends on the query through the number of its tokens
    only. *)
Theorem rebalance_weights query stack :
  let stackMask := Js.to_int32 (fold_left Z.lor (map mask stack) 0%Z) in
  let garbage :=
    if (popcount (Z.abs stackMask) =? length query)%nat then 0%nat else 1%nat in
  let out := rebalance roundTo query stack in
  rb_elems out
    = map (fun m => clone_with_weight m (rebalanced_weight roundTo garbage (length stack) m))
          stack
  /\ map weight (rb_elems out)
     = map (rebalanced_weight roundTo garbage (length stack)) stack
  /\ rb_relev out
     = Js.min (roundTo (fold_left PrimFloat.add (map weight (rb_elems out)) 0%float) 8) 1
  /\ (Forall (fun m => 0 <= mask m < 2 ^ 31) stack ->
      popcount (Z.abs stackMask) = popcount (fold_left Z.lor (map mask stack) 0%Z))
  /\ (forall query',
        length query' = length query -> rebalance roundTo query' stack = out).
Proof.
  intros stackMask garbage out.
  assert (Hout : out =
                 {| rb_elems :=
                      map (fun m => clone_with_weight m
                                      (rebalanced_weight roundTo garbage (length stack) m))
                          stack;
                    rb_relev :=
                      Js.min (roundTo
                                (fold_left PrimFloat.add
                                   (map (rebalanced_weight roundTo garbage (length stack)) stack)
                                   0%float) 8) 1 |}).
  { subst out. unfold rebalance.
    rewrite stackMask_of_masks. fold stackMask.
    rewrite toString2_ones_magnitude by apply to_int32_range.
    rewrite Nat.eqb_sym. fold garbage.
    rewrite (rebalance_loop (rebalanced_weight roundTo garbage (length stack))).
    reflexivity. }
  assert (Hweights : map weight (rb_elems out)
                     = map (rebalanced_weight roundTo garbage (length stack)) stack).
  { rewrite Hout. simpl. rewrite map_map. apply map_ext. reflexivity. }
  split; [rewrite Hout; reflexivity|]. split; [exact Hweights|].
  split; [rewrite Hweights, Hout; reflexivity|]. split.
  - intros Hmasks. destruct (stackMask_lor stack Hmasks 0 ltac:(lia)) as [_ Hrange].
    subst stackMask. rewrite to_int32_small by lia. rewrite Z.abs_eq by lia. reflexivity.
  - intros query' Hlen. subst out. unfold rebalance. rewrite Hlen. reflexivity.
Qed.

End RebalanceProperties.

Lemma rebalance_weights_witness :
  map weight (rb_elems (rebalance unrounded ["main"; "st"]%string two_matches))
  = map (rebalanced_weight unrounded 0 2) two_matches
  /\ rb_relev (rebalance unrounded ["main"; "st"]%string two_matches)
     = Js.min (unrounded (fold_left PrimFloat.add
                            (map weight
                               (rb_elems (rebalance unrounded ["main"; "st"]%string
                                            two_matches)))
                            0%float) 8) 1
  /\ popcount (Z.abs (Js.to_int32 (fold_left Z.lor (map mask two_matches) 0)))
     = popcount (fold_left Z.lor (map mask two_matches) 0).
Proof.
  destruct (rebalance_weights unrounded ["main"; "st"]%string two_matches)
    as (_ & Hweights & Hrelev & Hcount & _).
  split; [exact Hweights|]. split; [exact Hrelev|].
  apply Hcount. repeat constructor; simpl; lia.
Defined.

(** C4, as stated, fails on a query of 32 tokens that the stack covers:
    the OR of the masks has 32 set bits, [|] gives -1, which is written
    "-1", and garbage is 1 where the claim has 0. *)
Lemma rebalance_garbage_on_32_tokens :
  popcount (fold_left Z.lor (map mask [covering_match]) 0) = length thirty_two_tokens
  /\ map (rebalanced_weight unrounded 0 1) [covering_match] = [1%float]
  /\ map weight (rb_elems (rebalance unrounded thirty_two_tokens [covering_match]))
     = [0.51%float]
  /\ map weight (rb_elems (rebalance unrounded thirty_two_tokens [covering_match]))
     <> map (rebalanced_weight unrounded 0 1) [covering_match].
Proof.
  assert (Hcode : map weight (rb_elems (rebalance unrounded thirty_two_tokens
                                          [covering_match])) = [0.51%float])
    by (vm_compute; reflexivity).
  assert (Hclaim : map (rebalanced_weight unrounded 0 1) [covering_match] = [1%float])
    by (vm_compute; reflexivity).
  split; [vm_compute; reflexivity|]. split; [exact Hclaim|]. split; [exact Hcode|].
  rewrite Hcode, Hclaim. intros Heq.
  apply (f_equal (fun weights => hd 0%float weights)) in Heq. cbn [hd] in Heq.
  revert Heq. apply float_neq; reflexivity.
Qed.


(** ** Spatialmatch *)

Section SpatialmatchProperties.
Variable decode3BitLogScale : float -> float -> float.

Lemma new_Spatialmatch_inv cacheSpatialmatch stackByIdx addressDataByIdx partialNumber sm :
  new_Spatialmatch decode3BitLogScale cacheSpatialmatch stackByIdx addressDataByIdx
                   partialNumber = Normal sm ->
  exists first others address,
    spatialmatch_covers decode3BitLogScale (cs_covers cacheSpatialmatch) stackByIdx
                        addressDataByIdx [] None = Normal (first :: others, address)
    /\ sm = {| sm_relev := cs_relev cacheSpatialmatch;
               covers := first :: others;
               sm_partialNumber := partialNumber;
               sm_address := address;
               scoredist := if partialNumber then (c_scoredist first * 300)%float
                            else c_scoredist first |}.
Proof.
  unfold new_Spatialmatch.
  destruct (spatialmatch_covers _ _ _ _ _ _) as [[cs address]|]; simpl; [|discriminate].
  destruct cs as [|first others]; [discriminate|].
  intros Hsm. inversion Hsm. exists first, others, address. auto.
Qed.

(** The loop of the constructor goes through when the stack has an entry
    for the idx of every cache cover; it adds one cover per cache cover. *)
Lemma spatialmatch_covers_returns stackByIdx addressDataByIdx cacheCovers :
  Forall (fun c => is_Some (JsMap.get Nat.eqb (cc_idx c) stackByIdx)) cacheCovers ->
  forall covers address,
    exists more address',
      spatialmatch_covers decode3BitLogScale cacheCovers stackByIdx addressDataByIdx
                          covers address = Normal (covers ++ more, address')
      /\ length more = length cacheCovers.
Proof.
  induction 1 as [|c cacheCovers [m Hm] Hrest IH]; intros covers address; simpl.
  - exists [], address. rewrite app_nil_r. auto.
  - rewrite Hm. simpl.
    match goal with
    | |- context [spatialmatch_covers _ _ _ _ (covers ++ [?cover]) ?a] =>
        destruct (IH (covers ++ [cover]) a) as (more & address' & -> & Hlen);
        exists (cover :: more), address'
    end.
    rewrite <- app_assoc. simpl. auto.
Qed.

(** C8: the constructor returns whenever the coalesce result has a cover
    and the stack an entry for the idx of every cover (and throws if not);
    the Spatialmatch it constructs has the scoredist of its first cover,
    multiplied by 300 exactly when partialNumber is set; and the
    Spatialmatch constructed from the same arguments with the other
    partialNumber differs from it in partialNumber and in that factor of
    300 only. *)
Theorem Spatialmatch_scoredist cacheSpatialmatch stackByIdx addressDataByIdx partialNumber :
  cs_covers cacheSpatialmatch <> [] ->
  Forall (fun c => is_Some (JsMap.get Nat.eqb (cc_idx c) stackByIdx))
         (cs_covers cacheSpatialmatch) ->
  exists sm first others,
    new_Spatialmatch decode3BitLogScale cacheSpatialmatch stackByIdx addressDataByIdx
                     partialNumber = Normal sm
    /\ covers sm = first :: others
    /\ scoredist sm = (if partialNumber then (c_scoredist first * 300)%float
                       else c_scoredist first)
    /\ exists sm',
         new_Spatialmatch decode3BitLogScale cacheSpatialmatch stackByIdx addressDataByIdx
                          (negb partialNumber) = Normal sm'
         /\ sm_relev sm' = sm_relev sm
         /\ covers sm' = covers sm
         /\ sm_address sm' = sm_address sm
         /\ sm_partialNumber sm = partialNumber
         /\ sm_partialNumber sm' = negb partialNumber
         /\ if partialNumber then scoredist sm = (scoredist sm' * 300)%float
            else scoredist sm' = (scoredist sm * 300)%float.
Proof.
  intros Hne Hkeys.
  destruct (spatialmatch_covers_returns stackByIdx addressDataByIdx _ Hkeys [] None)
    as (more & address & Hcovers & Hlen).
  destruct more as [|first others].
  { destruct (cs_covers cacheSpatialmatch); [congruence | discriminate]. }
  simpl in Hcovers. unfold new_Spatialmatch. rewrite Hcovers. simpl.
  eexists _, first, others. split; [reflexivity|]. simpl.
  split; [reflexivity|]. split; [reflexivity|].
  eexists. split; [reflexivity|]. simpl.
  destruct partialNumber; simpl; repeat split.
Qed.

End SpatialmatchProperties.

Lemma Spatialmatch_scoredist_witness :
  cs_covers sample_cacheSpatialmatch <> []
  /\ Forall (fun c => is_Some (JsMap.get Nat.eqb (cc_idx c) sample_stackByIdx))
            (cs_covers sample_cacheSpatialmatch)
  /\ exists sm sm',
       new_Spatialmatch scaled sample_cacheSpatialmatch sample_stackByIdx [] true = Normal sm
       /\ new_Spatialmatch scaled sample_cacheSpatialmatch sample_stackByIdx [] false
          = Normal sm'
       /\ scoredist sm = (scoredist sm' * 300)%float.
Proof.
  assert (Hne : cs_covers sample_cacheSpatialmatch <> []) by discriminate.
  assert (Hkeys : Forall (fun c => is_Some (JsMap.get Nat.eqb (cc_idx c) sample_stackByIdx))
                         (cs_covers sample_cacheSpatialmatch)).
  { repeat constructor. simpl. eexists. reflexivity. }
  split; [exact Hne|]. split; [exact Hkeys|].
  destruct (Spatialmatch_scoredist scaled sample_cacheSpatialmatch sample_stackByIdx [] true
              Hne Hkeys)
    as (sm & first & others & Hsm & _ & _ & sm' & Hsm' & _ & _ & _ & _ & _ & Hfactor).
  exists sm, sm'. auto.
Defined.

(** ** spatialmatch on no phrasematch results *)

(** No task completes when there is none. *)
Lemma completed_nil completion : completed completion [] = [].
Proof.
  unfold completed. induction (completion_order completion (length (@nil Task)));
    [reflexivity | assumption].
Qed.

Section PipelineProperties.
Variable roundTo : float -> Z -> float.
Variable decode3BitLogScale : float -> float -> float.
Variable center2zxy : float * float -> Z -> list Z.
Variable bufferPoint_miles : float -> float * float -> float -> list float.
Variable bbox_intersection : list float -> list float -> option (list float).
Variable insideTile : list float -> Z -> list Z.
Variable COALESCE_PROXIMITY_RADIUS : float.
Variable coalesce : Rebalanced -> CoalesceOpts -> option (list CacheSpatialmatch).
Variable completion : list nat.

(** C10: with no phrasematch results, whatever the query and the options
    (or without options), [spatialmatch] completes without throwing,
    builds no stack, calls the coalesce primitive not once and hands the
    callback { results: [], sets: {}, waste: [] }. *)
Theorem spatialmatch_no_results query options :
  spatialmatch roundTo decode3BitLogScale center2zxy bufferPoint_miles bbox_intersection
               insideTile COALESCE_PROXIMITY_RADIUS coalesce completion query [] options
  = Normal {| run_stacks := [];
              run_calls := [];
              run_callback :=
                CallbackResult {| results := []; sets := ∅; waste := [] |} |}.
Proof.
  unfold spatialmatch. cbn [build_stacks bind map]. unfold coalesceStacks.
  cbn [defer_all bind map concat fst snd w_waste coalesce_calls app].
  rewrite completed_nil.
  unfold coalesceFinalize. cbn [map concat array_sort sort_from bind app].
  unfold dedup. cbn [dedup_loop bind filteredSpatialmatches d_sets coalesce_calls].
  reflexivity.
Qed.

End PipelineProperties.

(** ** The deduplication pass *)

Lemma filter_snoc {T : Type} (P : T -> bool) l x :
  List.filter P (l ++ [x]) = List.filter P l ++ (if P x then [x] else []).
Proof. rewrite List.filter_app. simpl. destruct (P x); reflexivity. Qed.

(** Keeping the first element of a kind: pushing an element that is the
    first of its kind, and passing over one that is not. *)
Lemma first_kept_push {T : Type} (P : T -> bool) kept seen x :
  List.filter P kept = firstn 1 (List.filter P seen) ->
  (P x = true -> List.filter P seen = []) ->
  List.filter P (kept ++ [x]) = firstn 1 (List.filter P (seen ++ [x])).
Proof.
  intros Hkept Hfirst. rewrite !filter_snoc. destruct (P x).
  - rewrite Hkept, Hfirst by reflexivity. reflexivity.
  - rewrite !app_nil_r. exact Hkept.
Qed.

Lemma first_kept_skip {T : Type} (P : T -> bool) kept seen x :
  List.filter P kept = firstn 1 (List.filter P seen) ->
  (P x = true -> List.filter P seen <> []) ->
  List.filter P kept = firstn 1 (List.filter P (seen ++ [x])).
Proof.
  intros Hkept Hlater. rewrite filter_snoc. destruct (P x).
  - destruct (List.filter P seen) as [|y l]; [exfalso; apply Hlater; reflexivity|].
    exact Hkept.
  - rewrite app_nil_r. exact Hkept.
Qed.

Lemma seen_snoc {T : Type} (P : T -> bool) seen x :
  List.filter P (seen ++ [x]) <> [] <-> List.filter P seen <> [] \/ P x = true.
Proof.
  rewrite filter_snoc. destruct (P x); destruct (List.filter P seen); simpl;
    split; intros; try tauto; try discriminate; intuition congruence.
Qed.

(** What the pass maintains, [seen] being the part of [combined] gone
    through: of each direction and tmpid it has kept the first
    spatialmatch seen, of the single-cover ones at most one, and the done
    sets record what was seen or kept. *)
Definition dedup_inv (seen : list Spatialmatch) (d : Dedup) : Prop :=
  sublist (filteredSpatialmatches d) seen
  /\ forall t,
       List.filter (descending_of t) (filteredSpatialmatches d)
         = firstn 1 (List.filter (descending_of t) seen)
       /\ List.filter (ascending_of t) (filteredSpatialmatches d)
          = firstn 1 (List.filter (ascending_of t) seen)
       /\ (length (List.filter (single_of t) (filteredSpatialmatches d)) <= 1)%nat
       /\ (t ∈ doneDescending d <-> List.filter (descending_of t) seen <> [])
       /\ (t ∈ doneAscending d <-> List.filter (ascending_of t) seen <> [])
       /\ (t ∈ doneSingle d <-> List.filter (single_of t) (filteredSpatialmatches d) <> []).

Lemma filter_none_of_not_done {T : Type} (P : T -> bool) seen (done : Prop) :
  (done <-> List.filter P seen <> []) -> ~ done -> List.filter P seen = [].
Proof.
  intros Hiff Hnot. destruct (List.filter P seen); [reflexivity|].
  exfalso. apply Hnot, Hiff. discriminate.
Qed.

Lemma dedup_inv_push seen d sm d' :
  dedup_inv seen d ->
  filteredSpatialmatches d' = filteredSpatialmatches d ++ [sm] ->
  (forall t, t ∈ doneDescending d' <-> t ∈ doneDescending d \/ descending_of t sm = true) ->
  (forall t, t ∈ doneAscending d' <-> t ∈ doneAscending d \/ ascending_of t sm = true) ->
  (forall t, t ∈ doneSingle d' <-> t ∈ doneSingle d \/ single_of t sm = true) ->
  (forall t, descending_of t sm = true -> t ∉ doneDescending d) ->
  (forall t, ascending_of t sm = true -> t ∉ doneAscending d) ->
  (forall t, single_of t sm = true -> t ∉ doneSingle d) ->
  dedup_inv (seen ++ [sm]) d'.
Proof.
  intros [Hsub Hinv] Hkept Hdd' Hda' Hds' Hnd Hna Hns. split.
  - rewrite Hkept. apply sublist_app; [exact Hsub | reflexivity].
  - intros t. destruct (Hinv t) as (Hd & Ha & Hs & Hdd & Hda & Hds).
    rewrite Hkept, Hdd', Hda', Hds', Hdd, Hda, Hds, !seen_snoc.
    split; [|split; [|split; [|tauto]]].
    + apply first_kept_push; [exact Hd|]. intros Hp.
      apply (filter_none_of_not_done _ _ _ Hdd), Hnd, Hp.
    + apply first_kept_push; [exact Ha|]. intros Hp.
      apply (filter_none_of_not_done _ _ _ Hda), Hna, Hp.
    + rewrite filter_snoc, length_app. destruct (single_of t sm) eqn:Hp; simpl; [|lia].
      rewrite (filter_none_of_not_done _ _ _ Hds) by (apply Hns, Hp). simpl. lia.
Qed.

Lemma dedup_inv_skip seen d sm d' :
  dedup_inv seen d ->
  filteredSpatialmatches d' = filteredSpatialmatches d ->
  doneDescending d' = doneDescending d ->
  doneAscending d' = doneAscending d ->
  doneSingle d' = doneSingle d ->
  (forall t, descending_of t sm = true -> t ∈ doneDescending d) ->
  (forall t, ascending_of t sm = true -> t ∈ doneAscending d) ->
  dedup_inv (seen ++ [sm]) d'.
Proof.
  intros [Hsub Hinv] Hkept Hdd' Hda' Hds' Hnd Hna. split.
  - rewrite Hkept. apply sublist_inserts_r, Hsub.
  - intros t. destruct (Hinv t) as (Hd & Ha & Hs & Hdd & Hda & Hds).
    rewrite Hkept, Hdd', Hda', Hds', !seen_snoc.
    split; [|split; [|split; [exact Hs|split; [|split; [|exact Hds]]]]].
    + apply first_kept_skip; [exact Hd|]. intros Hp. apply Hdd, Hnd, Hp.
    + apply first_kept_skip; [exact Ha|]. intros Hp. apply Hda, Hna, Hp.
    + split; [intros Hin; left; apply Hdd, Hin|].
      intros [Hseen | Hp]; [apply Hdd, Hseen | apply Hnd, Hp].
    + split; [intros Hin; left; apply Hda, Hin|].
      intros [Hseen | Hp]; [apply Hda, Hseen | apply Hna, Hp].
Qed.

Lemma kinds_of_single sm first t :
  covers sm = [first] ->
  descending_of t sm = false /\ ascending_of t sm = false
  /\ single_of t sm = (c_tmpid first =? t).
Proof.
  intros Hc. unfold descending_of, ascending_of, single_of, is_descending, is_ascending,
    is_single, first_tmpid_is. rewrite Hc. auto.
Qed.

Lemma kinds_of_stacked sm first second others t :
  covers sm = first :: second :: others ->
  descending_of t sm = (c_idx second <? c_idx first)%nat && (c_tmpid first =? t)
  /\ ascending_of t sm = (c_idx first <? c_idx second)%nat && (c_tmpid first =? t)
  /\ single_of t sm = false.
Proof.
  intros Hc. unfold descending_of, ascending_of, single_of, is_descending, is_ascending,
    is_single, first_tmpid_is. rewrite Hc. auto.
Qed.

Lemma dedup_step_inv seen d sm :
  dedup_inv seen d -> covers sm <> [] ->
  exists d', dedup_step d sm = Normal d' /\ dedup_inv (seen ++ [sm]) d'.
Proof.
  intros Hinv Hne. unfold dedup_step.
  destruct (covers sm) as [|first [|second others]] eqn:Hc; [congruence| |].
  - (* a single cover *)
    assert (Hk := fun t => kinds_of_single sm first t Hc).
    replace (1 <? length [first])%nat with false by reflexivity.
    replace (length [first] =? 1)%nat with true by reflexivity.
    destruct (bool_decide_reflect (c_tmpid first ∈ doneAscending d)) as [Ha|Ha];
      destruct (bool_decide_reflect (c_tmpid first ∈ doneDescending d)) as [Hd|Hd];
      destruct (bool_decide_reflect (c_tmpid first ∈ doneSingle d)) as [Hs|Hs];
      cbn [negb andb]; eexists; (split; [reflexivity|]).
    all: try (apply (dedup_inv_skip seen d sm); auto; intros t Hp;
              destruct (Hk t) as (Hkd & Hka & Hks); congruence).
    apply (dedup_inv_push seen d sm); auto; cbn [doneDescending doneAscending doneSingle];
      intros t; destruct (Hk t) as (Hkd & Hka & Hks); rewrite ?Hkd, ?Hka, ?Hks.
    + intuition discriminate.
    + intuition discriminate.
    + rewrite elem_of_union, elem_of_singleton, Z.eqb_eq. intuition congruence.
    + discriminate.
    + discriminate.
    + rewrite Z.eqb_eq. intros <-. exact Hs.
  - (* two covers or more *)
    assert (Hk := fun t => kinds_of_stacked sm first second others t Hc).
    replace (1 <? length (first :: second :: others))%nat with true by reflexivity.
    replace (length (first :: second :: others) =? 1)%nat with false by reflexivity.
    destruct (Nat.ltb_spec (c_idx second) (c_idx first)) as [Hdesc|Hdesc];
      destruct (Nat.ltb_spec (c_idx first) (c_idx second)) as [Hasc|Hasc];
      try lia;
      destruct (bool_decide_reflect (c_tmpid first ∈ doneAscending d)) as [Ha|Ha];
      destruct (bool_decide_reflect (c_tmpid first ∈ doneDescending d)) as [Hd|Hd];
      cbn [negb andb]; eexists; (split; [reflexivity|]);
      cbn [andb] in Hk.
    all: try (apply (dedup_inv_skip seen d sm); auto; intros t Hp;
              destruct (Hk t) as (Hkd & Hka & Hks); rewrite ?Hkd, ?Hka in Hp;
              try discriminate; apply Z.eqb_eq in Hp; subst t; assumption).
    all: apply (dedup_inv_push seen d sm); auto;
      cbn [doneDescending doneAscending doneSingle];
      intros t; destruct (Hk t) as (Hkd & Hka & Hks); rewrite ?Hkd, ?Hka, ?Hks;
      rewrite ?elem_of_union, ?elem_of_singleton, ?Z.eqb_eq;
      try discriminate; try (intuition (congruence || discriminate)).
Qed.

Lemma dedup_loop_inv combined :
  Forall (fun sm => covers sm <> []) combined ->
  forall seen d, dedup_inv seen d ->
    exists d', dedup_loop combined d = Normal d' /\ dedup_inv (seen ++ combined) d'.
Proof.
  induction 1 as [|sm more Hsm Hmore IH]; intros seen d Hinv; simpl.
  - exists d. rewrite app_nil_r. auto.
  - destruct (dedup_step_inv seen d sm Hinv Hsm) as (d1 & -> & Hinv1). simpl.
    destruct (IH (seen ++ [sm]) d1 Hinv1) as (d' & Hloop & Hinv').
    exists d'. rewrite <- app_assoc in Hinv'. auto.
Qed.

Lemma dedup_inv_start :
  dedup_inv [] {| d_sets := ∅; doneAscending := ∅; doneDescending := ∅; doneSingle := ∅;
                  filteredSpatialmatches := [] |}.
Proof.
  split; [reflexivity|]. intros t. simpl.
  repeat split; try reflexivity; try lia; try congruence;
    intros Hin; apply not_elem_of_empty in Hin; contradiction.
Qed.

(** C7: on spatialmatches of at least one cover each, sorted or not, the
    pass completes and emits a subsequence of its input that holds, for
    every tmpid of a first cover, exactly the first descending result of
    the input and exactly the first ascending one, and at most one
    single-cover result.  So a descending and an ascending result of the
    same tmpid both survive, and a second descending one does not. *)
Theorem dedup_one_per_direction combined :
  Forall (fun sm => covers sm <> []) combined ->
  exists d,
    dedup combined = Normal d
    /\ sublist (filteredSpatialmatches d) combined
    /\ forall t,
         List.filter (descending_of t) (filteredSpatialmatches d)
           = firstn 1 (List.filter (descending_of t) combined)
         /\ List.filter (ascending_of t) (filteredSpatialmatches d)
            = firstn 1 (List.filter (ascending_of t) combined)
         /\ (length (List.filter (single_of t) (filteredSpatialmatches d)) <= 1)%nat.
Proof.
  intros Hcovers.
  destruct (dedup_loop_inv combined Hcovers [] _ dedup_inv_start) as (d & Hd & Hsub & Hinv).
  exists d. split; [exact Hd|]. split; [exact Hsub|].
  intros t. destruct (Hinv t) as (H1 & H2 & H3 & _). auto.
Qed.

Lemma dedup_one_per_direction_witness :
  Forall (fun sm => covers sm <> []) three_pairs
  /\ exists d,
       dedup three_pairs = Normal d
       /\ filteredSpatialmatches d = [descending_pair; ascending_pair]
       /\ List.filter (descending_of 7) (filteredSpatialmatches d) = [descending_pair]
       /\ List.filter (ascending_of 7) (filteredSpatialmatches d) = [ascending_pair].
Proof.
  assert (Hcovers : Forall (fun sm => covers sm <> []) three_pairs).
  { repeat constructor; discriminate. }
  split; [exact Hcovers|].
  destruct (dedup_one_per_direction three_pairs Hcovers) as (d & Hd & _ & Hkinds).
  exists d. split; [exact Hd|].
  destruct (Hkinds 7) as (Hdesc & Hasc & _).
  split; [|split; [exact Hdesc | exact Hasc]].
  vm_compute in Hd. inversion Hd. reflexivity.
Defined.

(** ** stackable: size and scores of the stacks it returns *)

Section StackableScores.
Context {A : Type} `{StackItem A}.
Variable limit : Z.
Variable results : list (PhrasematchResult A).

(** A stack of the memo: it passed the test on relev, holds between one
    element and one element per result, and carries the sums of the
    weights of its elements, taken in some order. *)
Definition scored (s : Stack A) : Prop :=
  (0.5 <? relev s)%float = true
  /\ (1 <= length (elems s) <= length results)%nat
  /\ exists order, order ≡ₚ elems s
       /\ relev s = weights_sum order
       /\ adjRelev s = adjusted_sum order.

(** The state of a frame: [rel] and [adj] are the sums over the stack in
    the order of stacking. *)
Definition frame_scored (idx : nat) (stack : list A) (rel adj : float) : Prop :=
  (length stack <= idx)%nat
  /\ exists order, order ≡ₚ stack
       /\ rel = weights_sum order
       /\ adj = adjusted_sum order.

Lemma memo_offer_added (memo : Memo A) (t s : Stack A) :
  s ∈ stacks (memo_offer limit memo t) ++ maxStacks (memo_offer limit memo t) ->
  (s = t /\ (0.5 <? relev t)%float = true) \/ s ∈ stacks memo ++ maxStacks memo.
Proof.
  unfold memo_offer. destruct (0.5 <? relev t)%float; [|auto].
  repeat match goal with |- context [if ?c then _ else _] => destruct c end;
    simpl; rewrite ?elem_of_app, ?list_elem_of_singleton; tauto.
Qed.

Lemma target_scored idx stack mask rel adj next :
  frame_scored idx stack rel adj ->
  frame_scored (S idx) (elems (make_targetStack stack mask rel adj next))
               (relev (make_targetStack stack mask rel adj next))
               (adjRelev (make_targetStack stack mask rel adj next)).
Proof.
  intros (Hlen & order & Hperm & Hrel & Hadj). simpl. split.
  - destruct (item_mask next <? mask); [simpl | rewrite length_app; simpl]; lia.
  - exists (order ++ [next]). split; [|split].
    + destruct (item_mask next <? mask).
      * rewrite <- Hperm. symmetry. apply Permutation_cons_append.
      * rewrite Hperm. reflexivity.
    + unfold weights_sum. rewrite fold_left_app. simpl. rewrite Hrel. reflexivity.
    + unfold adjusted_sum. rewrite fold_left_app. simpl. rewrite Hadj. reflexivity.
Qed.

Lemma stackable_frame_scored rest :
  forall pre memo idx mask nmask' stack rel adj,
    results = pre ++ rest ->
    length pre = idx ->
    frame_scored idx stack rel adj ->
    (forall s, s ∈ stacks memo ++ maxStacks memo -> scored s) ->
    forall s,
      s ∈ stacks (fst (stackable_frame limit rest memo idx mask nmask' stack rel adj))
          ++ maxStacks (fst (stackable_frame limit rest memo idx mask nmask' stack rel adj)) ->
      scored s.
Proof.
  induction rest as [|r later IH];
    intros pre memo idx mask nmask' stack rel adj Hres Hlen Hframe Hmemo.
  - exact Hmemo.
  - assert (Hroom : (S idx <= length results)%nat).
    { rewrite Hres, length_app. simpl. lia. }
    assert (Hdeeper : forall m mask1 nmask1 stack1 rel1 adj1,
               frame_scored (S idx) stack1 rel1 adj1 ->
               (forall s, s ∈ stacks m ++ maxStacks m -> scored s) ->
               forall s,
                 s ∈ stacks
                       match later with
                       | [] => m
                       | _ :: _ =>
                           fst (stackable_frame limit later m (S idx) mask1 nmask1 stack1
                                                rel1 adj1)
                       end
                     ++ maxStacks
                          match later with
                          | [] => m
                          | _ :: _ =>
                              fst (stackable_frame limit later m (S idx) mask1 nmask1 stack1
                                                   rel1 adj1)
                          end ->
                 scored s).
    { intros m mask1 nmask1 stack1 rel1 adj1 Hf Hm.
      destruct later as [|r' later']; [exact Hm|].
      apply (IH (pre ++ [r])); auto.
      - rewrite <- app_assoc. exact Hres.
      - rewrite length_app. simpl. lia. }
    simpl.
    match goal with
    | |- context [if negb (Js.and nmask' (nmask r) =? 0) then (?m, _) else _] =>
        set (memo1 := m)
    end.
    assert (Hmemo1 : forall s, s ∈ stacks memo1 ++ maxStacks memo1 -> scored s).
    { apply Hdeeper; [|exact Hmemo].
      destruct Hframe as (Hl & Hsum). split; [lia | exact Hsum]. }
    clearbody memo1.
    destruct (negb (Js.and nmask' (nmask r) =? 0)); simpl; [exact Hmemo1|].
    destruct (existsb (fun s => bmask_at (bmask r) (item_idx s)) stack);
      simpl; [exact Hmemo1|].
    match goal with |- context [fold_left ?f _ _] => set (step := f) end.
    assert (Hfold : forall l m,
               (forall s, s ∈ stacks m ++ maxStacks m -> scored s) ->
               forall s, s ∈ stacks (fold_left step l m) ++ maxStacks (fold_left step l m) ->
                         scored s).
    { induction l as [|next l IHl]; intros m Hm; simpl; [exact Hm|].
      apply IHl. unfold step.
      destruct (negb (Js.and mask (item_mask next) =? 0)); [exact Hm|].
      destruct (wrong_direction stack mask next); [exact Hm|].
      pose proof (target_scored idx stack mask rel adj next Hframe) as Htarget.
      apply Hdeeper; [exact Htarget|].
      intros s Hs. apply memo_offer_added in Hs as [[-> Hhalf] | Hs]; [|auto].
      destruct Htarget as (Hl & order & Hperm & Hrel & Hadj).
      split; [exact Hhalf|]. split; [|exists order; auto].
      split; [|lia]. simpl.
      destruct (item_mask next <? mask); [simpl | rewrite length_app; simpl]; lia. }
    apply Hfold, Hmemo1.
Qed.

Lemma stackable_scored out s :
  stackable results limit = Normal (Some out) -> s ∈ out ->
  exists s0, s = length_penalised s0 /\ scored s0.
Proof.
  unfold stackable. intros Hout Hs.
  apply stackable_frame_returns in Hout. subst out.
  unfold finish in Hs. apply list_elem_of_fmap in Hs as (s0 & -> & Hs0).
  exists s0. split; [reflexivity|].
  revert s0 Hs0. apply (stackable_frame_scored results []); auto.
  - split; [simpl; lia|]. exists []. split; [reflexivity|]. split; reflexivity.
  - intros s Hin. simpl in Hin. apply elem_of_nil in Hin. contradiction.
Qed.

End StackableScores.

(** X1: on a list of results that is not empty, every stack [stackable]
    returns has a relev above 0.5 and holds at least one element and at
    most as many elements as there are results. *)
Theorem stackable_stacks_accepted {A : Type} `{StackItem A}
    (results : list (PhrasematchResult A)) (limit : Z) :
  results <> [] ->
  exists out,
    stackable results limit = Normal (Some out)
    /\ forall s, s ∈ out ->
         (0.5 <? relev s)%float = true
         /\ (1 <= length (elems s) <= length results)%nat.
Proof.
  intros Hne. destruct (stackable_returns results limit Hne) as (out & Hout).
  exists out. split; [exact Hout|]. intros s Hs.
  destruct (stackable_scored limit results out s Hout Hs)
    as (s0 & -> & Hhalf & Hsize & _).
  simpl. auto.
Qed.

Lemma stackable_stacks_accepted_witness :
  three_levels <> []
  /\ exists out,
       stackable three_levels 10 = Normal (Some out)
       /\ forall s, s ∈ out ->
            (0.5 <? relev s)%float = true
            /\ (1 <= length (elems s) <= length three_levels)%nat.
Proof.
  assert (Hne : three_levels <> []) by discriminate.
  split; [exact Hne|].
  exact (stackable_stacks_accepted three_levels 10 Hne).
Defined.

(** X2: the relev of every stack [stackable] returns is the sum of the
    weights of its elements, and its adjRelev the sum of their weights
    times editMultipliers, multiplied by the length penalty
    0.9 + 0.1 / length; the sums are binary64 sums from 0 over the
    elements in the order in which they were stacked, an arrangement of
    the stack. *)
Theorem stackable_stacks_scores {A : Type} `{StackItem A}
    (results : list (PhrasematchResult A)) (limit : Z) :
  results <> [] ->
  exists out,
    stackable results limit = Normal (Some out)
    /\ forall s, s ∈ out ->
         exists order,
           order ≡ₚ elems s
           /\ relev s = weights_sum order
           /\ adjRelev s
              = (adjusted_sum order * lengthPenalty_of (length (elems s)))%float.
Proof.
  intros Hne. destruct (stackable_returns results limit Hne) as (out & Hout).
  exists out. split; [exact Hout|]. intros s Hs.
  destruct (stackable_scored limit results out s Hout Hs)
    as (s0 & -> & _ & _ & order & Hperm & Hrel & Hadj).
  exists order. split; [exact Hperm|]. split; [exact Hrel|].
  simpl. rewrite Hadj. unfold lengthPenalty_of.
  destruct (length (elems s0)); reflexivity.
Qed.

Lemma stackable_stacks_scores_witness :
  three_levels <> []
  /\ exists out,
       stackable three_levels 10 = Normal (Some out)
       /\ forall s, s ∈ out ->
            exists order,
              order ≡ₚ elems s
              /\ relev s = weights_sum order
              /\ adjRelev s
                 = (adjusted_sum order * lengthPenalty_of (length (elems s)))%float.
Proof.
  assert (Hne : three_levels <> []) by discriminate.
  split; [exact Hne|].
  exact (stackable_stacks_scores three_levels 10 Hne).
Defined.

(** ** stackable: a way to carry a property through the frames *)

Section StackableFrames.
Context {A : Type} `{StackItem A}.
Variable limit : Z.
Variable results : list (PhrasematchResult A).
(** What holds of the arguments of every frame, and what then holds of
    every stack of the memo. *)
Variable Q : nat -> Z -> Z -> list A -> float -> float -> Prop.
Variable P : Stack A -> Prop.

Hypothesis Q_skip : forall idx mask nmask' stack rel adj,
  Q idx mask nmask' stack rel adj -> Q (S idx) mask nmask' stack rel adj.

Hypothesis Q_include : forall idx mask nmask' stack rel adj r next,
  Q idx mask nmask' stack rel adj ->
  results !! idx = Some r ->
  next ∈ phrasematches r ->
  Js.and nmask' (nmask r) = 0 ->
  (forall s, s ∈ stack -> bmask_at (bmask r) (item_idx s) = false) ->
  Js.and mask (item_mask next) = 0 ->
  wrong_direction stack mask next = false ->
  Q (S idx) (Js.or mask (item_mask next)) (Js.or nmask' (nmask r))
    (elems (make_targetStack stack mask rel adj next))
    (relev (make_targetStack stack mask rel adj next))
    (adjRelev (make_targetStack stack mask rel adj next))
  /\ ((0.5 <? relev (make_targetStack stack mask rel adj next))%float = true ->
      P (make_targetStack stack mask rel adj next)).

Lemma stackable_frame_carries rest :
  forall pre memo idx mask nmask' stack rel adj,
    results = pre ++ rest ->
    length pre = idx ->
    Q idx mask nmask' stack rel adj ->
    (forall s, s ∈ stacks memo ++ maxStacks memo -> P s) ->
    forall s,
      s ∈ stacks (fst (stackable_frame limit rest memo idx mask nmask' stack rel adj))
          ++ maxStacks (fst (stackable_frame limit rest memo idx mask nmask' stack rel adj)) ->
      P s.
Proof.
  induction rest as [|r later IH];
    intros pre memo idx mask nmask' stack rel adj Hres Hlen Hframe Hmemo.
  - exact Hmemo.
  - assert (Hr : results !! idx = Some r).
    { rewrite Hres. apply list_lookup_middle. auto. }
    assert (Hdeeper : forall m mask1 nmask1 stack1 rel1 adj1,
               Q (S idx) mask1 nmask1 stack1 rel1 adj1 ->
               (forall s, s ∈ stacks m ++ maxStacks m -> P s) ->
               forall s,
                 s ∈ stacks
                       match later with
                       | [] => m
                       | _ :: _ =>
                           fst (stackable_frame limit later m (S idx) mask1 nmask1 stack1
                                                rel1 adj1)
                       end
                     ++ maxStacks
                          match later with
                          | [] => m
                          | _ :: _ =>
                              fst (stackable_frame limit later m (S idx) mask1 nmask1 stack1
                                                   rel1 adj1)
                          end ->
                 P s).
    { intros m mask1 nmask1 stack1 rel1 adj1 Hf Hm.
      destruct later as [|r' later']; [exact Hm|].
      apply (IH (pre ++ [r])); auto.
      - rewrite <- app_assoc. exact Hres.
      - rewrite length_app. simpl. lia. }
    simpl.
    match goal with
    | |- context [if negb (Js.and nmask' (nmask r) =? 0) then (?m, _) else _] =>
        set (memo1 := m)
    end.
    assert (Hmemo1 : forall s, s ∈ stacks memo1 ++ maxStacks memo1 -> P s).
    { apply Hdeeper; [apply Q_skip, Hframe | exact Hmemo]. }
    clearbody memo1.
    destruct (Z.eqb_spec (Js.and nmask' (nmask r)) 0) as [Hgn|_]; simpl; [|exact Hmemo1].
    destruct (existsb (fun s => bmask_at (bmask r) (item_idx s)) stack) eqn:Hgb;
      simpl; [exact Hmemo1|].
    assert (Hgb' : forall s, s ∈ stack -> bmask_at (bmask r) (item_idx s) = false).
    { intros s Hs. apply not_true_is_false. intros Hset.
      assert (existsb (fun s => bmask_at (bmask r) (item_idx s)) stack = true).
      { apply existsb_exists. exists s. split; [apply list_elem_of_In, Hs | exact Hset]. }
      congruence. }
    match goal with |- context [fold_left ?f _ _] => set (step := f) end.
    assert (Hfold : forall l m,
               (forall x, x ∈ l -> x ∈ phrasematches r) ->
               (forall s, s ∈ stacks m ++ maxStacks m -> P s) ->
               forall s, s ∈ stacks (fold_left step l m) ++ maxStacks (fold_left step l m) ->
                         P s).
    { induction l as [|next l IHl]; intros m Hl Hm; simpl; [exact Hm|].
      apply IHl; [intros x Hx; apply Hl; right; exact Hx|].
      unfold step.
      destruct (Z.eqb_spec (Js.and mask (item_mask next)) 0) as [Hgm|_];
        simpl; [|exact Hm].
      destruct (wrong_direction stack mask next) eqn:Hdir; [exact Hm|].
      destruct (Q_include idx mask nmask' stack rel adj r next) as [Htarget Hoffer]; auto.
      { apply Hl. left. }
      apply Hdeeper; [exact Htarget|].
      intros s Hs. apply memo_offer_added in Hs as [[-> Hhalf] | Hs]; auto. }
    apply Hfold; auto.
Qed.

(** Every stack [stackable] returns is the length-penalised form of a
    stack with the property. *)
Lemma stackable_carries out s :
  Q 0 0 0 [] 0%float 0%float ->
  stackable results limit = Normal (Some out) -> s ∈ out ->
  exists s0, s = length_penalised s0 /\ P s0.
Proof.
  unfold stackable. intros Hstart Hout Hs.
  apply stackable_frame_returns in Hout. subst out.
  unfold finish in Hs. apply list_elem_of_fmap in Hs as (s0 & -> & Hs0).
  exists s0. split; [reflexivity|].
  revert s0 Hs0. apply (stackable_frame_carries results []); auto.
  intros s Hin. simpl in Hin. apply elem_of_nil in Hin. contradiction.
Qed.

End StackableFrames.

(** X3: when all masks are token bitmasks below 2^31, a stack of two
    elements returned by [stackable] has the smaller mask at position 0:
    for two elements the union of the masks stacked so far, which the
    code compares with, is the mask at position 0. *)
Theorem stackable_pairs_smaller_mask_first {A : Type} `{StackItem A}
    (results : list (PhrasematchResult A)) (limit : Z) out s a b :
  (forall r e, r ∈ results -> e ∈ phrasematches r -> 0 <= item_mask e < 2 ^ 31) ->
  stackable results limit = Normal (Some out) ->
  s ∈ out ->
  elems s = [a; b] ->
  item_mask a <= item_mask b.
Proof.
  intros Hrange Hout Hs Hab.
  destruct (stackable_carries limit results
              (fun _ mask _ stack _ _ =>
                 match stack with
                 | [] => mask = 0
                 | [x] => mask = item_mask x
                 | _ => True
                 end)
              (fun t => forall a b, elems t = [a; b] -> item_mask a <= item_mask b))
    with (out := out) (s := s) as (s0 & -> & Hs0); auto.
  intros idx mask nmask' stack rel adj r next HQ Hr Hnext _ _ _ _.
  assert (Hm : 0 <= item_mask next < 2 ^ 31).
  { apply (Hrange r); [eapply list_elem_of_lookup_2, Hr | exact Hnext]. }
  simpl. destruct stack as [|x [|y stack]].
  - subst mask. split.
    + destruct (item_mask next <? 0); simpl; unfold Js.or;
        rewrite (to_int32_small (item_mask next)) by lia; reflexivity.
    + intros _ a0 b0 Hab0. destruct (item_mask next <? 0); discriminate.
  - subst mask. split.
    + destruct (item_mask next <? item_mask x); exact I.
    + intros _ a0 b0 Hab0.
      destruct (Z.ltb_spec (item_mask next) (item_mask x)); simpl in Hab0;
        inversion Hab0; subst; lia.
  - split.
    + destruct (item_mask next <? mask); simpl; [exact I|].
      destruct stack; exact I.
    + intros _ a0 b0 Hab0.
      destruct (item_mask next <? mask); simpl in Hab0; [discriminate|].
      destruct stack; discriminate.
Qed.

Lemma stackable_pairs_smaller_mask_first_witness :
  (forall r e, r ∈ three_levels -> e ∈ phrasematches r -> 0 <= item_mask e < 2 ^ 31)
  /\ stackable three_levels 10 = Normal (Some three_levels_stacks)
  /\ three_levels_pair ∈ three_levels_stacks
  /\ elems three_levels_pair = [sample_match 2 2 0.3; sample_match 4 1 0.3]
  /\ item_mask (sample_match 2 2 0.3) <= item_mask (sample_match 4 1 0.3).
Proof.
  assert (Hrange : forall r e, r ∈ three_levels -> e ∈ phrasematches r ->
                               0 <= item_mask e < 2 ^ 31).
  { intros r e Hr He. unfold three_levels in Hr.
    repeat (apply elem_of_cons in Hr as [-> | Hr]);
      [| | |apply elem_of_nil in Hr; contradiction];
      simpl in He; apply list_elem_of_singleton in He; subst e; simpl; lia. }
  assert (Hout : stackable three_levels 10 = Normal (Some three_levels_stacks)).
  { vm_compute. reflexivity. }
  assert (Hs : three_levels_pair ∈ three_levels_stacks).
  { vm_compute. apply list_elem_of_here. }
  assert (Hab : elems three_levels_pair = [sample_match 2 2 0.3; sample_match 4 1 0.3]).
  { vm_compute. reflexivity. }
  repeat (split; [assumption|]).
  exact (stackable_pairs_smaller_mask_first three_levels 10 _ _ _ _ Hrange Hout Hs Hab).
Defined.

(** ** collapseToArchetypes: how the phrasematches are shared out *)

(** X4: [collapseToArchetypes] returns one result per result, in order,
    with the idx, nmask and bmask of the result it stands for; the
    exemplars of its archetypes, taken together, are the phrasematches of
    that result rearranged, so that every phrasematch is the exemplar of
    one archetype; and no archetype is without exemplar. *)
Theorem collapse_shares_out_phrasematches rs :
  Forall2
    (fun inResult r =>
       r_idx r = r_idx inResult
       /\ nmask r = nmask inResult
       /\ bmask r = bmask inResult
       /\ concat (map exemplars (phrasematches r)) ≡ₚ phrasematches inResult
       /\ Forall (fun g => exemplars g <> []) (phrasematches r))
    rs (collapseToArchetypes rs).
Proof.
  unfold collapseToArchetypes. induction rs as [|inResult rs IH]; simpl; constructor;
    [|exact IH].
  repeat split; try reflexivity.
  - apply collapse_result_exemplars.
  - apply Forall_forall. intros g Hg.
    destruct (collapsed_archetype_fields [inResult] (collapse_result inResult) g)
      as (first & rest & Hex & _); [apply list_elem_of_here | exact Hg |].
    rewrite Hex. discriminate.
Qed.

(** The entries of [uniqMap] are apart: no exemplar of an entry has the
    signature of an entry before it. *)
Fixpoint groups_apart (uniqMap : list (Signature * Archetype)) : Prop :=
  match uniqMap with
  | [] => True
  | (k, _) :: more =>
      Forall (fun entry =>
                Forall (fun e => signature_eqb (signature e) k = false)
                       (exemplars (snd entry)))
             more
      /\ groups_apart more
  end.

Lemma uniq_push_apart r_idx uniqMap inMatch :
  groups_apart uniqMap -> groups_apart (uniq_push r_idx uniqMap inMatch).
Proof.
  induction uniqMap as [|[k g] more IH]; intros Hapart.
  - simpl. split; [constructor | exact I].
  - destruct Hapart as [Hk Hmore]. unfold uniq_push in *.
    remember (signature inMatch) as sig eqn:Hsig.
    cbn [JsMap.get JsMap.set].
    destruct (signature_eqb sig k) eqn:E; cbn [groups_apart].
    + split; assumption.
    + split; [|apply IH, Hmore].
      apply (JsMap_update_Forall signature_eqb
               (fun entry => Forall (fun e => signature_eqb (signature e) k = false)
                                    (exemplars (snd entry)))
               (fun g => push_exemplar g inMatch)); [exact Hk | |].
      * intros k' g' Hg' _. cbn [snd exemplars push_exemplar] in *.
        apply Forall_app. split; [exact Hg'|].
        constructor; [rewrite <- Hsig; exact E | constructor].
      * cbn [snd exemplars push_exemplar new_archetype app].
        constructor; [rewrite <- Hsig; exact E | constructor].
Qed.

Lemma build_uniqMap_apart r_idx ms : groups_apart (build_uniqMap r_idx ms).
Proof.
  unfold build_uniqMap.
  assert (G : forall m, groups_apart m -> groups_apart (fold_left (uniq_push r_idx) ms m)).
  { induction ms as [|x ms IH]; intros m Hm; simpl; [exact Hm|].
    apply IH, uniq_push_apart, Hm. }
  apply G. exact I.
Qed.

Lemma groups_apart_lookup uniqMap :
  groups_apart uniqMap ->
  forall i j ki gi kj gj e,
    uniqMap !! i = Some (ki, gi) -> uniqMap !! j = Some (kj, gj) -> (i < j)%nat ->
    e ∈ exemplars gj -> signature_eqb (signature e) ki = false.
Proof.
  induction uniqMap as [|[k g] more IH]; intros Hapart i j ki gi kj gj e Hi Hj Hlt He.
  - discriminate.
  - destruct Hapart as [Hk Hmore]. destruct j as [|j]; [lia|]. simpl in Hj.
    destruct i as [|i]; simpl in Hi.
    + inversion Hi; subst.
      rewrite Forall_forall in Hk.
      assert (Hin : (kj, gj) ∈ more) by (eapply list_elem_of_lookup_2, Hj).
      specialize (Hk _ Hin). simpl in Hk. rewrite Forall_forall in Hk. apply Hk, He.
    + apply (IH Hmore i j ki gi kj gj e); auto. lia.
Qed.

(** X5: among the archetypes of one result, an exemplar of an archetype
    never has the signature of an archetype that comes before it: a
    phrasematch joins the first group of its signature, and the order of
    the archetypes is the order in which their first exemplars come in the
    result. *)
Theorem collapse_groups_apart rs r i j gi gj first rest e :
  r ∈ collapseToArchetypes rs ->
  phrasematches r !! i = Some gi ->
  phrasematches r !! j = Some gj ->
  (i < j)%nat ->
  exemplars gi = first :: rest ->
  e ∈ exemplars gj ->
  signature_eqb (signature e) (signature first) = false.
Proof.
  unfold collapseToArchetypes. intros Hr Hi Hj Hlt Hfirst He.
  apply list_elem_of_fmap in Hr as (inResult & -> & _).
  unfold collapse_result, JsMap.values in Hi, Hj. simpl in Hi, Hj.
  change (map penalise (map snd ?m)) with (penalise <$> (snd <$> m)) in Hi, Hj.
  rewrite !list_lookup_fmap in Hi, Hj.
  destruct (build_uniqMap (r_idx inResult) (phrasematches inResult) !! i)
    as [[ki gi0]|] eqn:Ei; [|discriminate].
  destruct (build_uniqMap (r_idx inResult) (phrasematches inResult) !! j)
    as [[kj gj0]|] eqn:Ej; [|discriminate].
  simpl in Hi, Hj. inversion Hi; inversion Hj; subst gi gj.
  rewrite exemplars_penalise in Hfirst, He.
  pose proof (build_uniqMap_groups (r_idx inResult) (phrasematches inResult)) as Hgroups.
  rewrite Forall_forall in Hgroups.
  destruct (Hgroups (ki, gi0)) as (first' & rest' & Hk & Hg & _);
    [eapply list_elem_of_lookup_2, Ei|].
  cbn [fst snd] in Hk, Hg.
  destruct (fold_push_exemplars (first' :: rest') (new_archetype (r_idx inResult) first'))
    as (Hex & _).
  rewrite <- Hg in Hex. cbn [exemplars new_archetype app] in Hex.
  rewrite Hfirst in Hex. inversion Hex; subst first'.
  rewrite <- Hk.
  apply (groups_apart_lookup _ (build_uniqMap_apart (r_idx inResult) (phrasematches inResult))
           i j ki gi0 kj gj0 e); auto.
Qed.

Lemma collapse_groups_apart_witness :
  collapse_result mixed_result ∈ collapseToArchetypes [mixed_result]
  /\ phrasematches (collapse_result mixed_result) !! 0%nat = Some mixed_first
  /\ phrasematches (collapse_result mixed_result) !! 1%nat = Some mixed_second
  /\ (0 < 1)%nat
  /\ exemplars mixed_first = [sample_match 1 0 1; sample_match 1 0 1]
  /\ sample_match 2 0 1 ∈ exemplars mixed_second
  /\ signature_eqb (signature (sample_match 2 0 1)) (signature (sample_match 1 0 1)) = false.
Proof.
  assert (H1 : collapse_result mixed_result ∈ collapseToArchetypes [mixed_result])
    by apply list_elem_of_here.
  assert (H2 : phrasematches (collapse_result mixed_result) !! 0%nat = Some mixed_first)
    by (vm_compute; reflexivity).
  assert (H3 : phrasematches (collapse_result mixed_result) !! 1%nat = Some mixed_second)
    by (vm_compute; reflexivity).
  assert (H4 : (0 < 1)%nat) by lia.
  assert (H5 : exemplars mixed_first = [sample_match 1 0 1; sample_match 1 0 1])
    by (vm_compute; reflexivity).
  assert (H6 : sample_match 2 0 1 ∈ exemplars mixed_second)
    by (vm_compute; apply list_elem_of_here).
  repeat (split; [assumption|]).
  exact (collapse_groups_apart [mixed_result] _ 0 1 _ _ _ _ _ H1 H2 H3 H4 H5 H6).
Defined.

(** ** expandFromArchetypes: what the expanded stacks are made of *)

Lemma exemplar_product_picks archs picked :
  picked ∈ exemplar_product archs ->
  Forall2 (fun e arch => e ∈ exemplars arch) picked archs.
Proof.
  revert picked. induction archs as [|arch deeper IH]; intros picked Hin; simpl in Hin.
  - apply list_elem_of_singleton in Hin. subst picked. constructor.
  - apply list_elem_of_In, in_flat_map in Hin as (e & He & Hin).
    apply in_map_iff in Hin as (p & <- & Hp).
    constructor; [apply list_elem_of_In, He | apply IH, list_elem_of_In, Hp].
Qed.

Lemma full_expansion_picks stacks s :
  s ∈ full_expansion stacks ->
  exists stack,
    stack ∈ stacks
    /\ relev s = relev stack
    /\ adjRelev s = adjRelev stack
    /\ Forall2 (fun e arch => e ∈ exemplars arch) (elems s) (elems stack).
Proof.
  unfold full_expansion. intros Hin.
  apply list_elem_of_In, in_flat_map in Hin as (stack & Hstack & Hin).
  apply in_map_iff in Hin as (picked & <- & Hp).
  exists stack. split; [apply list_elem_of_In, Hstack|]. simpl.
  repeat split. apply exemplar_product_picks, list_elem_of_In, Hp.
Qed.

(** X6: on stacks of at least one archetype each, every stack
    [expandFromArchetypes] returns is made from one of the archetype
    stacks: it has the relev and adjRelev of that stack, is as long, and
    holds at each position an exemplar of the archetype at that
    position. *)
Theorem expanded_stacks_pick_exemplars stacks maxOut :
  Forall (fun stack => elems stack <> []) stacks ->
  exists out,
    expandFromArchetypes stacks maxOut = Normal out
    /\ forall s, s ∈ out ->
         exists stack,
           stack ∈ stacks
           /\ relev s = relev stack
           /\ adjRelev s = adjRelev stack
           /\ Forall2 (fun e arch => e ∈ exemplars arch) (elems s) (elems stack).
Proof.
  intros Hne. eexists. split; [apply expandFromArchetypes_firstn, Hne|].
  intros s Hs. apply full_expansion_picks.
  apply elem_of_take in Hs as (i & Hi & _). eapply list_elem_of_lookup_2, Hi.
Qed.

Lemma expanded_stacks_pick_exemplars_witness :
  Forall (fun stack => elems stack <> []) [fuzzy_stack]
  /\ exists out,
       expandFromArchetypes [fuzzy_stack] 4 = Normal out
       /\ forall s, s ∈ out ->
            exists stack,
              stack ∈ [fuzzy_stack]
              /\ relev s = relev stack
              /\ adjRelev s = adjRelev stack
              /\ Forall2 (fun e arch => e ∈ exemplars arch) (elems s) (elems stack).
Proof.
  assert (Hne : Forall (fun stack : Stack Archetype => elems stack <> []) [fuzzy_stack]).
  { constructor; [simpl; discriminate | constructor]. }
  split; [exact Hne|].
  exact (expanded_stacks_pick_exemplars [fuzzy_stack] 4 Hne).
Defined.

Lemma full_expansion_lone_stacks rel adj archs :
  map elems (full_expansion (lone_stacks rel adj archs))
  = map (fun m => [m]) (concat (map exemplars archs)).
Proof.
  unfold full_expansion, lone_stacks.
  induction archs as [|g archs IH]; [reflexivity|].
  cbn [map flat_map concat elems]. rewrite !map_app, IH. f_equal.
  rewrite exemplar_product_last, !map_map. reflexivity.
Qed.

(** X7: collapsing a result and expanding the one-archetype stacks of its
    archetypes gives back, when [maxOut] is no less than the number of
    phrasematches of the result, one stack per phrasematch: the stacks
    hold the phrasematches of the result, each alone, rearranged by
    group. *)
Theorem collapse_then_expand rel adj inResult maxOut :
  Z.of_nat (length (phrasematches inResult)) <= maxOut ->
  exists out,
    expandFromArchetypes
      (lone_stacks rel adj (phrasematches (collapse_result inResult))) maxOut
    = Normal out
    /\ map elems out ≡ₚ map (fun m => [m]) (phrasematches inResult).
Proof.
  intros Hfit.
  assert (Hperm : map elems (full_expansion
                    (lone_stacks rel adj (phrasematches (collapse_result inResult))))
                  ≡ₚ map (fun m => [m]) (phrasematches inResult)).
  { rewrite full_expansion_lone_stacks. apply Permutation_map, collapse_result_exemplars. }
  eexists. split.
  - apply expandFromArchetypes_firstn. unfold lone_stacks.
    apply Forall_forall. intros stack Hin.
    apply list_elem_of_fmap in Hin as (g & -> & _). discriminate.
  - rewrite firstn_all2; [exact Hperm|].
    apply Permutation_length in Hperm. rewrite !length_map in Hperm. lia.
Qed.

Lemma collapse_then_expand_witness :
  Z.of_nat (length (phrasematches mixed_result)) <= 3
  /\ exists out,
       expandFromArchetypes
         (lone_stacks a_weight a_weight (phrasematches (collapse_result mixed_result))) 3
       = Normal out
       /\ map elems out ≡ₚ map (fun m => [m]) (phrasematches mixed_result).
Proof.
  assert (Hfit : Z.of_nat (length (phrasematches mixed_result)) <= 3) by (simpl; lia).
  split; [exact Hfit|].
  exact (collapse_then_expand a_weight a_weight mixed_result 3 Hfit).
Defined.

Lemma expand_stacks_app maxOut pre rest :
  Forall (fun stack => elems stack <> []) pre ->
  forall out, (length out < Z.to_nat (Z.max 1 maxOut))%nat ->
    expand_stacks (pre ++ rest) maxOut out
    = if snd (emit maxOut out (full_expansion pre))
      then Normal (fst (emit maxOut out (full_expansion pre)))
      else expand_stacks rest maxOut (fst (emit maxOut out (full_expansion pre))).
Proof.
  induction 1 as [|stack more Hne Hmore IH]; intros out Hlt.
  - cbn [app full_expansion flat_map]. rewrite emit_nil by exact Hlt. reflexivity.
  - cbn [app expand_stacks]. rewrite expandFromArchetypesInner_emit by assumption.
    unfold full_expansion. cbn [flat_map]. fold (full_expansion more).
    match goal with |- context [bind (Normal (emit maxOut out ?b)) _] => set (block := b) end.
    replace (map (expanded stack) (exemplar_product (elems stack))) with block
      by (apply map_ext; reflexivity).
    destruct (emit maxOut out block) as [out' done] eqn:Hemit. cbn [bind].
    destruct done.
    + rewrite emit_full by (rewrite Hemit; reflexivity). rewrite Hemit. reflexivity.
    + destruct (emit_more maxOut out block (full_expansion more)) as [-> Hlt'];
        [rewrite Hemit; reflexivity|].
      rewrite Hemit in *. cbn [fst] in *. apply IH, Hlt'.
Qed.

(** X8: a stack without archetypes makes [expandFromArchetypes] throw,
    unless the stacks before it already fill the output: then the output
    is cut before the empty stack is looked at. *)
Theorem expand_throws_on_empty_stack pre empty post maxOut :
  Forall (fun stack => elems stack <> []) pre ->
  elems empty = [] ->
  expandFromArchetypes (pre ++ empty :: post) maxOut
  = if (Z.to_nat (Z.max 1 maxOut) <=? length (full_expansion pre))%nat
    then Normal (firstn (Z.to_nat (Z.max 1 maxOut)) (full_expansion pre))
    else Throw.
Proof.
  intros Hpre Hempty. unfold expandFromArchetypes.
  rewrite expand_stacks_app; [|exact Hpre|simpl; lia].
  unfold emit. cbn [fst snd length app Nat.add]. rewrite Nat.sub_0_r.
  destruct (Z.to_nat (Z.max 1 maxOut) <=? length (full_expansion pre))%nat;
    [reflexivity|].
  cbn [expand_stacks]. rewrite Hempty. reflexivity.
Qed.

Lemma expand_throws_on_empty_stack_witness :
  Forall (fun stack => elems stack <> []) [lone_stack]
  /\ elems {| elems := []; relev := 1; adjRelev := 1 |} = @nil Archetype
  /\ expandFromArchetypes [lone_stack; {| elems := []; relev := 1; adjRelev := 1 |}] 3
     = Normal (firstn 3 (full_expansion [lone_stack]))
  /\ expandFromArchetypes [lone_stack; {| elems := []; relev := 1; adjRelev := 1 |}] 4
     = Throw.
Proof.
  assert (Hne : Forall (fun stack : Stack Archetype => elems stack <> []) [lone_stack]).
  { constructor; [simpl; discriminate | constructor]. }
  split; [exact Hne|]. split; [reflexivity|]. split.
  - exact (expand_throws_on_empty_stack [lone_stack]
             {| elems := []; relev := 1; adjRelev := 1 |} [] 3 Hne eq_refl).
  - exact (expand_throws_on_empty_stack [lone_stack]
             {| elems := []; relev := 1; adjRelev := 1 |} [] 4 Hne eq_refl).
Defined.

(** ** coalesceFinalize: single covers, undirected stacks and [sets] *)

Lemma dedup_step_covers d sm d' :
  dedup_step d sm = Normal d' -> covers sm <> [].
Proof. unfold dedup_step. destruct (covers sm); [discriminate|discriminate]. Qed.

Lemma dedup_step_sets d sm d' :
  dedup_step d sm = Normal d' -> d_sets d' = best_covers (d_sets d) (covers sm).
Proof.
  unfold dedup_step. destruct (covers sm) as [|first others] eqn:Hc; [discriminate|].
  repeat match goal with |- context [if ?b then _ else _] => destruct b end;
    intros [= <-]; reflexivity.
Qed.

Lemma dedup_step_single d sm first d' :
  covers sm = [first] ->
  dedup_step d sm = Normal d' ->
  filteredSpatialmatches d'
  = filteredSpatialmatches d
    ++ (if negb (bool_decide (c_tmpid first ∈ doneAscending d))
           && negb (bool_decide (c_tmpid first ∈ doneDescending d))
           && negb (bool_decide (c_tmpid first ∈ doneSingle d))
        then [sm] else []).
Proof.
  intros Hc. unfold dedup_step. rewrite Hc.
  replace (1 <? length [first])%nat with false by reflexivity.
  replace (length [first] =? 1)%nat with true by reflexivity.
  cbn [andb].
  destruct (negb (bool_decide (c_tmpid first ∈ doneAscending d))
            && negb (bool_decide (c_tmpid first ∈ doneDescending d))
            && negb (bool_decide (c_tmpid first ∈ doneSingle d)));
    intros [= <-]; cbn [filteredSpatialmatches]; rewrite ?app_nil_r; reflexivity.
Qed.

Lemma dedup_step_stacked d sm first second others d' :
  covers sm = first :: second :: others ->
  dedup_step d sm = Normal d' ->
  filteredSpatialmatches d' = filteredSpatialmatches d
  \/ (filteredSpatialmatches d' = filteredSpatialmatches d ++ [sm]
      /\ c_idx first <> c_idx second).
Proof.
  intros Hc. unfold dedup_step. rewrite Hc.
  replace (1 <? length (first :: second :: others))%nat with true by reflexivity.
  replace (length (first :: second :: others) =? 1)%nat with false by reflexivity.
  cbn [andb].
  destruct (Nat.ltb_spec (c_idx second) (c_idx first));
    destruct (Nat.ltb_spec (c_idx first) (c_idx second));
    destruct (bool_decide (c_tmpid first ∈ doneDescending d));
    destruct (bool_decide (c_tmpid first ∈ doneAscending d));
    cbn [andb negb]; intros [= <-]; cbn [filteredSpatialmatches];
    first [left; reflexivity | right; split; [reflexivity | lia]].
Qed.

(** An invariant that every round keeps, next to [dedup_inv], holds
    after the pass. *)
Section DedupLoop.
Variable I : list Spatialmatch -> Dedup -> Prop.
Hypothesis I_step : forall seen d sm d',
  dedup_inv seen d -> I seen d -> dedup_step d sm = Normal d' -> I (seen ++ [sm]) d'.

Lemma dedup_loop_carries combined :
  forall seen d d',
    dedup_inv seen d -> I seen d ->
    dedup_loop combined d = Normal d' -> I (seen ++ combined) d'.
Proof.
  induction combined as [|sm more IH]; intros seen d d' Hinv HI Hloop; simpl in Hloop.
  - injection Hloop as <-. rewrite app_nil_r. exact HI.
  - destruct (dedup_step d sm) as [d1|] eqn:Hstep; [|discriminate]. simpl in Hloop.
    destruct (dedup_step_inv seen d sm Hinv (dedup_step_covers _ _ _ Hstep))
      as (d1' & Hstep' & Hinv1).
    rewrite Hstep in Hstep'. injection Hstep' as <-.
    replace (seen ++ sm :: more) with ((seen ++ [sm]) ++ more)
      by (rewrite <- app_assoc; reflexivity).
    apply (IH _ d1); [exact Hinv1 | eapply I_step; eassumption | exact Hloop].
Qed.

Lemma dedup_carries combined d :
  I [] {| d_sets := ∅; doneAscending := ∅; doneDescending := ∅; doneSingle := ∅;
          filteredSpatialmatches := [] |} ->
  dedup combined = Normal d -> I combined d.
Proof.
  intros HI Hd. apply (dedup_loop_carries combined [] _ d dedup_inv_start HI Hd).
Qed.
End DedupLoop.

Lemma dedup_returns combined :
  Forall (fun sm => covers sm <> []) combined -> exists d, dedup combined = Normal d.
Proof.
  intros Hc. destruct (dedup_loop_inv combined Hc [] _ dedup_inv_start) as (d & Hd & _).
  exists d. exact Hd.
Qed.

Lemma first_of_app {T : Type} (l more : list T) :
  firstn 1 (l ++ more) = match l with [] => firstn 1 more | _ :: _ => firstn 1 l end.
Proof. destruct l; reflexivity. Qed.

Lemma of_tmpid_seen t seen :
  List.filter (of_tmpid t) seen = [] ->
  List.filter (descending_of t) seen = []
  /\ List.filter (ascending_of t) seen = []
  /\ List.filter (single_of t) seen = [].
Proof.
  induction seen as [|sm seen IH]; [auto|]. simpl. unfold of_tmpid at 1.
  destruct (descending_of t sm), (ascending_of t sm), (single_of t sm); simpl;
    try discriminate. exact IH.
Qed.

Lemma first_of_tmpid t seen :
  List.filter (descending_of t) seen = [] ->
  List.filter (ascending_of t) seen = [] ->
  List.filter (single_of t) (firstn 1 (List.filter (of_tmpid t) seen)) = [] ->
  List.filter (of_tmpid t) seen = [].
Proof.
  intros Hd Ha Hs.
  destruct (List.filter (of_tmpid t) seen) as [|sm K] eqn:HK; [reflexivity|exfalso].
  assert (Hin : In sm (List.filter (of_tmpid t) seen)) by (rewrite HK; left; reflexivity).
  apply filter_In in Hin as [Hin Hof].
  simpl in Hs. unfold of_tmpid in Hof.
  destruct (single_of t sm); [discriminate|].
  destruct (descending_of t sm) eqn:Hdesc.
  - assert (Hin' : In sm (List.filter (descending_of t) seen)) by (apply filter_In; auto).
    rewrite Hd in Hin'. destruct Hin'.
  - destruct (ascending_of t sm) eqn:Hasc; [|discriminate].
    assert (Hin' : In sm (List.filter (ascending_of t) seen)) by (apply filter_In; auto).
    rewrite Ha in Hin'. destruct Hin'.
Qed.

(** The single-cover results kept so far, for each tmpid. *)
Definition singles_inv (seen : list Spatialmatch) (d : Dedup) : Prop :=
  forall t,
    List.filter (single_of t) (filteredSpatialmatches d)
    = List.filter (single_of t) (firstn 1 (List.filter (of_tmpid t) seen)).

Lemma singles_inv_step seen d sm d' :
  dedup_inv seen d -> singles_inv seen d -> dedup_step d sm = Normal d' ->
  singles_inv (seen ++ [sm]) d'.
Proof.
  intros [_ Hinv] HI Hstep t. specialize (HI t).
  destruct (Hinv t) as (_ & _ & _ & Hdd & Hda & Hds).
  rewrite filter_snoc, first_of_app.
  destruct (covers sm) as [|first [|second others]] eqn:Hc.
  - exfalso. eapply dedup_step_covers; eassumption.
  - rewrite (dedup_step_single d sm first d' Hc Hstep).
    destruct (kinds_of_single sm first t Hc) as (Hkd & Hka & Hks).
    assert (Hof : of_tmpid t sm = (c_tmpid first =? t)).
    { unfold of_tmpid. rewrite Hkd, Hka, Hks. reflexivity. }
    rewrite Hof.
    destruct (Z.eqb_spec (c_tmpid first) t) as [->|Hne].
    + destruct (bool_decide_reflect (t ∈ doneAscending d)) as [Ha|Ha];
        destruct (bool_decide_reflect (t ∈ doneDescending d)) as [Hd|Hd];
        destruct (bool_decide_reflect (t ∈ doneSingle d)) as [Hs|Hs];
        cbn [negb andb]; rewrite ?app_nil_r.
      all: try (destruct (List.filter (of_tmpid t) seen) as [|y K] eqn:HK; [exfalso|exact HI];
                destruct (of_tmpid_seen t seen HK) as (H1 & H2 & H3);
                first [apply Hda in Ha; congruence
                      | apply Hdd in Hd; congruence
                      | apply Hds in Hs; rewrite HI in Hs; apply Hs; reflexivity]).
      assert (HK : List.filter (of_tmpid t) seen = []).
      { apply first_of_tmpid.
        - destruct (List.filter (descending_of t) seen) eqn:E; [reflexivity|].
          exfalso. apply Hd, Hdd. discriminate.
        - destruct (List.filter (ascending_of t) seen) eqn:E; [reflexivity|].
          exfalso. apply Ha, Hda. discriminate.
        - rewrite <- HI.
          destruct (List.filter (single_of t) (filteredSpatialmatches d)) eqn:E; [reflexivity|].
          exfalso. apply Hs, Hds. discriminate. }
      rewrite HK in *. rewrite filter_snoc, HI. simpl. rewrite Hks. reflexivity.
    + assert (Hsame : List.filter (single_of t)
                (filteredSpatialmatches d ++
                   (if negb (bool_decide (c_tmpid first ∈ doneAscending d))
                       && negb (bool_decide (c_tmpid first ∈ doneDescending d))
                       && negb (bool_decide (c_tmpid first ∈ doneSingle d))
                    then [sm] else []))
              = List.filter (single_of t) (filteredSpatialmatches d)).
      { destruct (_ && _); rewrite ?app_nil_r; [|reflexivity].
        rewrite filter_snoc, Hks. apply app_nil_r. }
      rewrite Hsame. destruct (List.filter (of_tmpid t) seen); exact HI.
  - destruct (kinds_of_stacked sm first second others t Hc) as (Hkd & Hka & Hks).
    assert (Hsame : List.filter (single_of t) (filteredSpatialmatches d')
                    = List.filter (single_of t) (filteredSpatialmatches d)).
    { destruct (dedup_step_stacked d sm first second others d' Hc Hstep) as [->|[-> _]];
        [reflexivity|]. rewrite filter_snoc, Hks. apply app_nil_r. }
    rewrite Hsame.
    destruct (List.filter (of_tmpid t) seen) as [|y K] eqn:HK; [|exact HI].
    rewrite HI. cbn [app]. destruct (of_tmpid t sm); simpl; rewrite ?Hks; reflexivity.
Qed.

(** X9: on spatialmatches of at least one cover each, a single-cover
    result survives the pass only as the first result of its feature:
    the single-cover results kept for a tmpid are the first of the
    descending, ascending and single-cover results of that tmpid in the
    input when that one has a single cover, and none otherwise. *)
Theorem dedup_single_first_of_feature combined :
  Forall (fun sm => covers sm <> []) combined ->
  exists d,
    dedup combined = Normal d
    /\ forall t,
         List.filter (single_of t) (filteredSpatialmatches d)
         = List.filter (single_of t) (firstn 1 (List.filter (of_tmpid t) combined)).
Proof.
  intros Hc. destruct (dedup_returns combined Hc) as (d & Hd).
  exists d. split; [exact Hd|].
  apply (dedup_carries singles_inv singles_inv_step combined d); [|exact Hd].
  intros t. reflexivity.
Qed.

Lemma dedup_single_first_of_feature_witness :
  Forall (fun sm => covers sm <> []) [lone_cover; descending_pair; later_lone_cover]
  /\ Forall (fun sm => covers sm <> []) [descending_pair; lone_cover]
  /\ (exists d,
        dedup [lone_cover; descending_pair; later_lone_cover] = Normal d
        /\ List.filter (single_of 7) (filteredSpatialmatches d) = [lone_cover])
  /\ (exists d,
        dedup [descending_pair; lone_cover] = Normal d
        /\ List.filter (single_of 7) (filteredSpatialmatches d) = []).
Proof.
  assert (H1 : Forall (fun sm => covers sm <> [])
                 [lone_cover; descending_pair; later_lone_cover]).
  { repeat constructor; discriminate. }
  assert (H2 : Forall (fun sm => covers sm <> []) [descending_pair; lone_cover]).
  { repeat constructor; discriminate. }
  split; [exact H1|]. split; [exact H2|]. split.
  - destruct (dedup_single_first_of_feature _ H1) as (d & Hd & Hs).
    exists d. split; [exact Hd|]. rewrite (Hs 7). reflexivity.
  - destruct (dedup_single_first_of_feature _ H2) as (d & Hd & Hs).
    exists d. split; [exact Hd|]. rewrite (Hs 7). reflexivity.
Defined.

(** No result kept so far has the same idx in its first two covers. *)
Definition directed_inv (seen : list Spatialmatch) (d : Dedup) : Prop :=
  forall sm first second others,
    sm ∈ filteredSpatialmatches d ->
    covers sm = first :: second :: others -> c_idx first <> c_idx second.

Lemma directed_inv_step seen d sm d' :
  dedup_inv seen d -> directed_inv seen d -> dedup_step d sm = Normal d' ->
  directed_inv (seen ++ [sm]) d'.
Proof.
  intros _ HI Hstep kept first second others Hin Hc.
  destruct (covers sm) as [|first' [|second' others']] eqn:Hsm.
  - exfalso. eapply dedup_step_covers; eassumption.
  - rewrite (dedup_step_single d sm first' d' Hsm Hstep) in Hin.
    apply elem_of_app in Hin as [Hin|Hin]; [eapply HI; eassumption|].
    destruct (_ && _); [|inversion Hin].
    apply list_elem_of_singleton in Hin. subst kept. congruence.
  - destruct (dedup_step_stacked d sm first' second' others' d' Hsm Hstep) as [E|[E Hne]];
      rewrite E in Hin; [eapply HI; eassumption|].
    apply elem_of_app in Hin as [Hin|Hin]; [eapply HI; eassumption|].
    apply list_elem_of_singleton in Hin. subst kept. congruence.
Qed.

(** X10: the pass never keeps a result of two covers or more whose first
    two covers have the same idx: it is neither descending nor
    ascending. *)
Theorem dedup_drops_undirected_stacks combined :
  Forall (fun sm => covers sm <> []) combined ->
  exists d,
    dedup combined = Normal d
    /\ forall sm first second others,
         sm ∈ filteredSpatialmatches d ->
         covers sm = first :: second :: others -> c_idx first <> c_idx second.
Proof.
  intros Hc. destruct (dedup_returns combined Hc) as (d & Hd).
  exists d. split; [exact Hd|].
  apply (dedup_carries directed_inv directed_inv_step combined d); [|exact Hd].
  intros sm first second others Hin. inversion Hin.
Qed.

Lemma dedup_drops_undirected_stacks_witness :
  Forall (fun sm => covers sm <> []) [same_idx_pair; ascending_pair]
  /\ exists d,
       dedup [same_idx_pair; ascending_pair] = Normal d
       /\ filteredSpatialmatches d = [ascending_pair]
       /\ forall sm first second others,
            sm ∈ filteredSpatialmatches d ->
            covers sm = first :: second :: others -> c_idx first <> c_idx second.
Proof.
  assert (Hc : Forall (fun sm => covers sm <> []) [same_idx_pair; ascending_pair]).
  { repeat constructor; discriminate. }
  split; [exact Hc|].
  destruct (dedup_drops_undirected_stacks _ Hc) as (d & Hd & Hkinds).
  exists d. split; [exact Hd|]. split; [|exact Hkinds].
  vm_compute in Hd. inversion Hd. reflexivity.
Defined.

Lemma best_covers_snoc sets l c :
  best_covers sets (l ++ [c]) = best_covers (best_covers sets l) [c].
Proof. unfold best_covers. rewrite fold_left_app. reflexivity. Qed.

Lemma best_covers_app sets l more :
  best_covers sets (l ++ more) = best_covers (best_covers sets l) more.
Proof. unfold best_covers. apply fold_left_app. Qed.

Lemma best_covers_spec all id :
  best_cover_of all id (best_covers ∅ all !! id).
Proof.
  induction all as [|c all IH] using rev_ind.
  - simpl. constructor.
  - rewrite best_covers_snoc. unfold best_covers at 1. cbn [fold_left].
    set (sets := best_covers ∅ all) in *.
    assert (Hnext : forall h, c_tmpid h = id ->
              (forall before after, all = before ++ h :: after ->
                 Forall (fun c => c_tmpid c = id -> (c_relev h <? c_relev c)%float = false) after ->
                 (c_tmpid c = id -> (c_relev h <? c_relev c)%float = false) ->
                 best_cover_of (all ++ [c]) id (Some h))).
    { intros h Hh before after -> Hafter Hc. split; [exact Hh|].
      exists before, (after ++ [c]). split; [rewrite <- app_assoc; reflexivity|].
      apply Forall_app. split; [exact Hafter|]. constructor; [exact Hc|constructor]. }
    assert (Hnew : c_tmpid c = id -> best_cover_of (all ++ [c]) id (Some c)).
    { intros Hc. split; [exact Hc|]. exists all, []. split; [reflexivity|constructor]. }
    destruct (Z.eq_dec (c_tmpid c) id) as [Hid|Hid].
    + subst id. destruct (sets !! c_tmpid c) as [held|] eqn:Hheld.
      * destruct (c_relev held <? c_relev c)%float eqn:Hlt.
        -- rewrite lookup_insert_eq. apply Hnew. reflexivity.
        -- rewrite Hheld. destruct IH as (Hh & before & after & Hall & Hafter).
           eapply Hnext; eauto.
      * rewrite lookup_insert_eq. apply Hnew. reflexivity.
    + assert (Hsame : (match sets !! c_tmpid c with
                       | Some held =>
                           if (c_relev held <? c_relev c)%float
                           then <[c_tmpid c:=c]> sets else sets
                       | None => <[c_tmpid c:=c]> sets
                       end) !! id = sets !! id).
      { destruct (sets !! c_tmpid c) as [held|];
          [destruct (c_relev held <? c_relev c)%float|];
          rewrite ?lookup_insert_ne by exact Hid; reflexivity. }
      rewrite Hsame. destruct (sets !! id) as [h|].
      * destruct IH as (Hh & before & after & Hall & Hafter).
        eapply Hnext; eauto. intros; contradiction.
      * simpl in *. apply Forall_app. split; [exact IH|]. constructor; [exact Hid|constructor].
Qed.

(** [sets] after the part of [combined] gone through. *)
Definition sets_inv (seen : list Spatialmatch) (d : Dedup) : Prop :=
  d_sets d = best_covers ∅ (concat (map covers seen)).

Lemma sets_inv_step seen d sm d' :
  dedup_inv seen d -> sets_inv seen d -> dedup_step d sm = Normal d' ->
  sets_inv (seen ++ [sm]) d'.
Proof.
  intros _ HI Hstep. unfold sets_inv in *.
  rewrite (dedup_step_sets d sm d' Hstep), HI, map_app, concat_app, best_covers_app.
  simpl. rewrite app_nil_r. reflexivity.
Qed.

(** X11: [sets] is filled from the covers of every spatialmatch of the
    input, kept or not, in order: a tmpid has an entry exactly when some
    cover has it, and the entry is a cover of that tmpid that no later
    cover of the tmpid beats on relev. *)
Theorem dedup_sets_best_cover combined :
  Forall (fun sm => covers sm <> []) combined ->
  exists d,
    dedup combined = Normal d
    /\ forall id, best_cover_of (concat (map covers combined)) id (d_sets d !! id).
Proof.
  intros Hc. destruct (dedup_returns combined Hc) as (d & Hd).
  exists d. split; [exact Hd|]. intros id.
  rewrite (dedup_carries sets_inv sets_inv_step combined d eq_refl Hd).
  apply best_covers_spec.
Qed.

Lemma dedup_sets_best_cover_witness :
  Forall (fun sm => covers sm <> []) three_pairs
  /\ exists d,
       dedup three_pairs = Normal d
       /\ d_sets d !! 10 = Some (sample_cover 1 10)
       /\ d_sets d !! 11 = None
       /\ forall id, best_cover_of (concat (map covers three_pairs)) id (d_sets d !! id).
Proof.
  assert (Hc : Forall (fun sm => covers sm <> []) three_pairs).
  { repeat constructor; discriminate. }
  split; [exact Hc|].
  destruct (dedup_sets_best_cover three_pairs Hc) as (d & Hd & Hsets).
  exists d. split; [exact Hd|].
  split; [|split; [|exact Hsets]];
    vm_compute in Hd; inversion Hd; reflexivity.
Defined.

(** ** allowed: the filter on the highest idx *)

Lemma stack_maxidx_spec {A : Type} `{StackItem A} (elements : list A) (m0 : nat) :
  let top := fold_left (fun m e => Nat.max m (item_idx e)) elements m0 in
  (m0 <= top)%nat
  /\ Forall (fun e => (item_idx e <= top)%nat) elements
  /\ (top = m0 \/ exists e, e ∈ elements /\ item_idx e = top).
Proof.
  revert m0. induction elements as [|x more IH]; intros m0; simpl.
  - split; [lia|]. split; [constructor|]. left. reflexivity.
  - destruct (IH (Nat.max m0 (item_idx x))) as (Hle & Hall & Htop).
    set (M := fold_left (fun m e => Nat.max m (item_idx e)) more (Nat.max m0 (item_idx x)))
      in *.
    split; [lia|]. split; [constructor; [lia | exact Hall]|].
    destruct Htop as [Htop | (e & He & Htop)].
    + destruct (Nat.max_spec m0 (item_idx x)) as [[_ Hm]|[_ Hm]].
      * right. exists x. split; [apply list_elem_of_here | congruence].
      * left. congruence.
    + right. exists e. split; [apply list_elem_of_further, He | exact Htop].
Qed.

Lemma highest_idx_unique {A : Type} `{StackItem A} (elements : list A) (top : nat) :
  highest_idx elements top
  <-> top = fold_left (fun m e => Nat.max m (item_idx e)) elements 0%nat.
Proof.
  destruct (stack_maxidx_spec elements 0) as (_ & Hall & Htop).
  set (M := fold_left (fun m e => Nat.max m (item_idx e)) elements 0%nat) in *.
  rewrite Forall_forall in Hall.
  split.
  - intros [Hle Hin]. rewrite Forall_forall in Hle.
    assert (top <= M)%nat.
    { destruct Hin as [->|(e & He & <-)]; [lia | apply Hall, He]. }
    assert (M <= top)%nat.
    { destruct Htop as [->|(e & He & <-)]; [lia | apply Hle, He]. }
    lia.
  - intros ->. split; [apply Forall_forall, Hall | exact Htop].
Qed.

(** X12: under an [allowed_idx] filter, [allowed] keeps the stacks in
    their order, and keeps a stack exactly when the filter is set at the
    highest idx among its elements; the other elements are not looked up,
    and a stack without elements is judged as idx 0. *)
Theorem allowed_by_highest_idx {A : Type} `{StackItem A}
    (stacks : list (Stack A)) (options : Options) (filter : gmap nat bool) :
  allowed_idx options = Some filter ->
  sublist (allowed stacks options) stacks
  /\ forall s,
       s ∈ allowed stacks options
       <-> s ∈ stacks
           /\ exists top, highest_idx (elems s) top /\ filter !! top = Some true.
Proof.
  intros Hfilter. unfold allowed. rewrite Hfilter. split.
  - induction stacks as [|s stacks IH]; simpl; [constructor|].
    destruct (match filter !! _ with Some true => true | _ => false end);
      [apply sublist_skip | apply sublist_cons]; exact IH.
  - intros s. rewrite list_elem_of_In, filter_In, <- list_elem_of_In.
    apply and_iff_compat_l. split.
    + intros Hkept. eexists. split; [apply highest_idx_unique; reflexivity|].
      destruct (filter !! _) as [[|]|]; [reflexivity | discriminate | discriminate].
    + intros (top & Htop & Hlook). apply highest_idx_unique in Htop. subst top.
      rewrite Hlook. reflexivity.
Qed.

Lemma allowed_by_highest_idx_witness :
  allowed_idx only_countries = Some {[ 0%nat := true; 1%nat := false ]}
  /\ allowed [stack_of [sample_match 1 0 1]; stack_of [sample_match 1 0 1; sample_match 2 1 1];
              stack_of []] only_countries
     = [stack_of [sample_match 1 0 1]; stack_of []]
  /\ (stack_of [sample_match 1 0 1; sample_match 2 1 1]
        ∈ allowed [stack_of [sample_match 1 0 1];
                   stack_of [sample_match 1 0 1; sample_match 2 1 1]; stack_of []]
                  only_countries
      <-> stack_of [sample_match 1 0 1; sample_match 2 1 1]
            ∈ [stack_of [sample_match 1 0 1];
               stack_of [sample_match 1 0 1; sample_match 2 1 1]; stack_of []]
          /\ exists top,
               highest_idx (elems (stack_of [sample_match 1 0 1; sample_match 2 1 1])) top
               /\ ({[ 0%nat := true; 1%nat := false ]} : gmap nat bool) !! top = Some true).
Proof.
  split; [reflexivity|]. split; [vm_compute; reflexivity|].
  exact (proj2 (allowed_by_highest_idx
                  [stack_of [sample_match 1 0 1];
                   stack_of [sample_match 1 0 1; sample_match 2 1 1]; stack_of []]
                  only_countries _ eq_refl) _).
Defined.

(** ** getStackByIdx and the maps keyed by idx *)

Lemma JsMap_get_set {V : Type} (k k' : nat) (v : V) (m : list (nat * V)) :
  JsMap.get Nat.eqb k' (JsMap.set Nat.eqb k v m)
  = if (k' =? k)%nat then Some v else JsMap.get Nat.eqb k' m.
Proof.
  induction m as [|[k0 v0] more IH]; simpl; [reflexivity|].
  destruct (Nat.eqb_spec k k0) as [->|Hne]; simpl.
  - destruct (Nat.eqb k' k0); reflexivity.
  - rewrite IH. destruct (Nat.eqb_spec k' k0) as [E0|Hne0];
      destruct (Nat.eqb_spec k' k) as [E|Hne1]; try reflexivity.
    congruence.
Qed.

Lemma JsMap_keys_set {V : Type} (k : nat) (v : V) (m : list (nat * V)) :
  JsMap.keys (JsMap.set Nat.eqb k v m)
  = if bool_decide (k ∈ JsMap.keys m) then JsMap.keys m else JsMap.keys m ++ [k].
Proof.
  unfold JsMap.keys. induction m as [|[k0 v0] more IH]; simpl; [reflexivity|].
  destruct (Nat.eqb_spec k k0) as [->|Hne]; simpl.
  - rewrite bool_decide_eq_true_2 by apply list_elem_of_here. reflexivity.
  - rewrite IH. destruct (bool_decide_reflect (k ∈ map fst more)) as [Hin|Hin].
    + rewrite bool_decide_eq_true_2 by (apply list_elem_of_further, Hin). reflexivity.
    + rewrite bool_decide_eq_false_2; [reflexivity|].
      intros Hin'. apply elem_of_cons in Hin' as [?|?]; congruence.
Qed.

Lemma getStackByIdx_cons m stack :
  getStackByIdx (m :: stack) = JsMap.set Nat.eqb (idx m) m (getStackByIdx stack).
Proof. unfold getStackByIdx. simpl. rewrite fold_left_app. reflexivity. Qed.

(** X13: the map [getStackByIdx] builds gives, for an idx, the first
    element of the stack with that idx (the entries are set from the last
    element to the first, so an earlier element replaces a later one);
    its keys are the idx values of the stack, each once. *)
Theorem getStackByIdx_first_of_idx stack :
  (forall i, JsMap.get Nat.eqb i (getStackByIdx stack)
             = List.find (fun m => (idx m =? i)%nat) stack)
  /\ NoDup (JsMap.keys (getStackByIdx stack))
  /\ (forall i, i ∈ JsMap.keys (getStackByIdx stack) <-> i ∈ map idx stack).
Proof.
  induction stack as [|m stack (Hget & Hnodup & Hkeys)].
  - split; [reflexivity|]. split; [constructor|]. reflexivity.
  - rewrite getStackByIdx_cons. split; [|split].
    + intros i. rewrite JsMap_get_set, Hget. simpl. rewrite Nat.eqb_sym. reflexivity.
    + rewrite JsMap_keys_set.
      destruct (bool_decide_reflect (idx m ∈ JsMap.keys (getStackByIdx stack))) as [Hin|Hin];
        [exact Hnodup|].
      apply NoDup_app. split; [exact Hnodup|]. split; [|apply NoDup_singleton].
      intros i Hi Hi'. apply list_elem_of_singleton in Hi'. congruence.
    + intros i. rewrite JsMap_keys_set. simpl. rewrite elem_of_cons, <- Hkeys.
      destruct (bool_decide_reflect (idx m ∈ JsMap.keys (getStackByIdx stack))) as [Hin|Hin].
      * split; [auto|]. intros [->|?]; assumption.
      * rewrite elem_of_app, list_elem_of_singleton. tauto.
Qed.

(** ** The Spatialmatch constructor: covers and address *)

Section SpatialmatchCovers.
Variable decode3BitLogScale : float -> float -> float.

Lemma spatialmatch_covers_spec stackByIdx addressDataByIdx cacheCovers :
  forall covers address out address',
    spatialmatch_covers decode3BitLogScale cacheCovers stackByIdx addressDataByIdx
                        covers address = Normal (out, address') ->
    exists more,
      out = covers ++ more
      /\ Forall2 (fun cover cacheCover =>
                    exists m,
                      JsMap.get Nat.eqb (cc_idx cacheCover) stackByIdx = Some m
                      /\ new_Cover decode3BitLogScale cacheCover (Some m) = Normal cover)
                 more cacheCovers
      /\ address' = match address with
                    | Some a => Some a
                    | None =>
                        head (omap (fun c => JsMap.get Nat.eqb (cc_idx c) addressDataByIdx)
                                   cacheCovers)
                    end.
Proof.
  induction cacheCovers as [|c cacheCovers IH]; intros covers address out address' Hrun;
    simpl in Hrun.
  - injection Hrun as <- <-. exists []. rewrite app_nil_r.
    split; [reflexivity|]. split; [constructor|]. destruct address; reflexivity.
  - destruct (JsMap.get Nat.eqb (cc_idx c) stackByIdx) as [m|] eqn:Hm; [|discriminate].
    cbn [new_Cover bind] in Hrun.
    apply IH in Hrun as (more & -> & Hall & ->).
    eexists (_ :: more). split; [rewrite <- app_assoc; reflexivity|].
    split.
    + constructor; [|exact Hall]. exists m. rewrite Hm. split; reflexivity.
    + destruct address as [a|]; [reflexivity|]. cbn [omap list_omap].
      destruct (JsMap.get Nat.eqb (cc_idx c) addressDataByIdx); reflexivity.
Qed.

(** X14: a Spatialmatch the constructor returns has one cover per cover
    of the coalesce result, in order, each built from the cache cover and
    the element the stack has for its idx; and its address is the address
    data of the first cover, in that order, whose idx has address data,
    or none. *)
Theorem Spatialmatch_covers_and_address cacheSpatialmatch stackByIdx addressDataByIdx
    partialNumber sm :
  new_Spatialmatch decode3BitLogScale cacheSpatialmatch stackByIdx addressDataByIdx
                   partialNumber = Normal sm ->
  Forall2 (fun cover cacheCover =>
             exists m,
               JsMap.get Nat.eqb (cc_idx cacheCover) stackByIdx = Some m
               /\ new_Cover decode3BitLogScale cacheCover (Some m) = Normal cover)
          (covers sm) (cs_covers cacheSpatialmatch)
  /\ sm_address sm
     = head (omap (fun c => JsMap.get Nat.eqb (cc_idx c) addressDataByIdx)
                  (cs_covers cacheSpatialmatch)).
Proof.
  intros Hsm.
  destruct (new_Spatialmatch_inv decode3BitLogScale _ _ _ _ _ Hsm)
    as (first & others & address & Hrun & ->).
  apply spatialmatch_covers_spec in Hrun as (more & Hmore & Hall & ->).
  simpl in Hmore. subst more. simpl. split; [exact Hall | reflexivity].
Qed.
End SpatialmatchCovers.


Lemma Spatialmatch_covers_and_address_witness :
  exists sm,
    new_Spatialmatch scaled two_cover_result two_level_stackByIdx one_address false
    = Normal sm
    /\ sm_address sm = Some (address_data "9"%string)
    /\ Forall2 (fun cover cacheCover =>
                  exists m,
                    JsMap.get Nat.eqb (cc_idx cacheCover) two_level_stackByIdx = Some m
                    /\ new_Cover scaled cacheCover (Some m) = Normal cover)
               (covers sm) (cs_covers two_cover_result).
Proof.
  destruct (new_Spatialmatch scaled two_cover_result two_level_stackByIdx one_address false)
    as [sm|] eqn:Hsm; [|vm_compute in Hsm; discriminate].
  exists sm. split; [reflexivity|].
  destruct (Spatialmatch_covers_and_address scaled _ _ _ _ sm Hsm) as [Hcovers Haddress].
  split; [rewrite Haddress; reflexivity | exact Hcovers].
Defined.

(** ** coalesceStack: what it adds to the world *)

Section CoalesceAdds.
Variable decode3BitLogScale : float -> float -> float.
Variable center2zxy : float * float -> Z -> list Z.
Variable bufferPoint_miles : float -> float * float -> float -> list float.
Variable bbox_intersection : list float -> list float -> option (list float).
Variable insideTile : list float -> Z -> list Z.
Variable COALESCE_PROXIMITY_RADIUS : float.
Variable coalesce : Rebalanced -> CoalesceOpts -> option (list CacheSpatialmatch).

(** The world [w] with what was added to a world without calls and
    waste. *)
Definition added_to (w : World) (r : Completion (World * list Spatialmatch))
    : Completion (World * list Spatialmatch) :=
  try r <- r;
  Normal ({| coalesce_calls := coalesce_calls w ++ coalesce_calls (fst r);
             w_waste := w_waste w ++ w_waste (fst r) |}, snd r).

Lemma coalesce_then_adds stack coalesceOpts addressDataByIdx partialNumber w :
  coalesce_then decode3BitLogScale coalesce stack coalesceOpts addressDataByIdx
                partialNumber w
  = added_to w (coalesce_then decode3BitLogScale coalesce stack coalesceOpts
                              addressDataByIdx partialNumber
                              {| coalesce_calls := []; w_waste := [] |}).
Proof.
  unfold coalesce_then, added_to. cbn [coalesce_calls w_waste app].
  destruct (spatialmatches_of _ _ _ _ _) as [sms|]; [|reflexivity]. cbn [bind fst snd].
  destruct (match coalesce stack coalesceOpts with Some l => l | None => [] end);
    cbn [coalesce_calls w_waste]; rewrite ?app_nil_r; reflexivity.
Qed.

(** [coalesceStack] only adds to the calls and to [waste], and what it
    adds does not depend on what is there. *)
Lemma coalesceStack_adds options stack w :
  coalesceStack decode3BitLogScale center2zxy bufferPoint_miles bbox_intersection insideTile
                COALESCE_PROXIMITY_RADIUS coalesce options stack w
  = added_to w (coalesceStack decode3BitLogScale center2zxy bufferPoint_miles
                              bbox_intersection insideTile COALESCE_PROXIMITY_RADIUS
                              coalesce options stack
                              {| coalesce_calls := []; w_waste := [] |}).
Proof.
  assert (Hskip : Normal (w, @nil Spatialmatch)
                  = added_to w (Normal ({| coalesce_calls := []; w_waste := [] |}, []))).
  { unfold added_to. cbn [bind fst snd coalesce_calls w_waste]. rewrite !app_nil_r.
    destruct w; reflexivity. }
  unfold coalesceStack.
  repeat match goal with
         | |- coalesce_then _ _ _ _ _ _ _ = _ => apply coalesce_then_adds
         | |- Normal (w, []) = _ => exact Hskip
         | |- Throw = _ => reflexivity
         | |- bind ?c _ = _ => destruct c; cbn [bind]
         | |- match ?x with _ => _ end = _ => destruct x; cbn [bind fst snd]
         | |- (if ?x then _ else _) = _ => destruct x; cbn [bind fst snd]
         end.
Qed.
End CoalesceAdds.

(** ** coalesceStacks: calls and waste *)

(** Whatever the schedule, every position completes once. *)
Lemma completion_order_perm schedule n : completion_order schedule n ≡ₚ seq 0 n.
Proof.
  unfold completion_order.
  set (named := remove_dups (List.filter (fun p => (p <? n)%nat) schedule)).
  apply NoDup_Permutation.
  - apply NoDup_app. split; [apply NoDup_remove_dups|]. split.
    + intros p Hp Hq. apply list_elem_of_In, filter_In in Hq as [_ Hq].
      apply negb_true_iff, bool_decide_eq_false in Hq. contradiction.
    + apply NoDup_ListNoDup, List.NoDup_filter, List.seq_NoDup.
  - apply NoDup_seq.
  - intros p. rewrite elem_of_app. split.
    + intros [Hp|Hp].
      * apply elem_of_remove_dups, list_elem_of_In, filter_In in Hp as [_ Hp].
        apply Nat.ltb_lt in Hp. apply elem_of_seq. lia.
      * apply list_elem_of_In, filter_In in Hp as [Hp _]. apply list_elem_of_In, Hp.
    + intros Hp. destruct (decide (p ∈ named)) as [Hn|Hn]; [left; exact Hn|].
      right. apply list_elem_of_In, filter_In. split; [apply list_elem_of_In, Hp|].
      apply negb_true_iff, bool_decide_eq_false, Hn.
Qed.

(** Without a schedule the calls complete in the order they were made. *)
Lemma completion_order_unscheduled n : completion_order [] n = seq 0 n.
Proof.
  unfold completion_order. cbn [List.filter remove_dups app].
  induction (seq 0 n) as [|p l IH]; [reflexivity|]. cbn [List.filter].
  rewrite bool_decide_eq_false_2 by apply not_elem_of_nil. cbn [negb]. f_equal. exact IH.
Qed.

Lemma lookup_shift {T : Type} (x : T) (l : list T) (ps : list nat) :
  omap (fun p => (x :: l) !! p) (map S ps) = omap (fun p => l !! p) ps.
Proof.
  induction ps as [|p ps IH]; [reflexivity|].
  cbn [map omap list_omap]. rewrite IH. reflexivity.
Qed.

Lemma lookup_all {T : Type} (l : list T) :
  omap (fun p => l !! p) (seq 0 (length l)) = l.
Proof.
  induction l as [|x l IH]; [reflexivity|].
  cbn [length seq]. rewrite <- seq_shift. cbn [omap list_omap].
  rewrite lookup_shift, IH. reflexivity.
Qed.

Lemma completed_perm completion tasks : completed completion tasks ≡ₚ tasks.
Proof.
  unfold completed. rewrite completion_order_perm. rewrite lookup_all. reflexivity.
Qed.

Lemma completed_in_call_order tasks : completed [] tasks = tasks.
Proof. unfold completed. rewrite completion_order_unscheduled. apply lookup_all. Qed.

Lemma concat_perm {T : Type} (l k : list (list T)) : l ≡ₚ k -> concat l ≡ₚ concat k.
Proof.
  induction 1 as [|x l k _ IH|x y l|l k m _ IH1 _ IH2]; simpl.
  - reflexivity.
  - rewrite IH. reflexivity.
  - rewrite !app_assoc. apply Permutation_app_tail, Permutation_app_comm.
  - rewrite IH1. exact IH2.
Qed.

Section CoalesceAccounting.
Variable decode3BitLogScale : float -> float -> float.
Variable center2zxy : float * float -> Z -> list Z.
Variable bufferPoint_miles : float -> float * float -> float -> list float.
Variable bbox_intersection : list float -> list float -> option (list float).
Variable insideTile : list float -> Z -> list Z.
Variable COALESCE_PROXIMITY_RADIUS : float.
Variable coalesce : Rebalanced -> CoalesceOpts -> option (list CacheSpatialmatch).
Variable completion : list nat.

(** The call came back without results: [undefined] or an empty array. *)
Definition came_back_empty (call : Rebalanced * CoalesceOpts) : bool :=
  match coalesce (fst call) (snd call) with
  | Some (_ :: _) => false
  | _ => true
  end.

(** The entry of [waste] for a call: the idx values of the stack. *)
Definition wasted (call : Rebalanced * CoalesceOpts) : list nat :=
  JsMap.keys (getStackByIdx (rb_elems (fst call))).

(** What a call, or no call, adds to the calls and to [waste]. *)
Definition accounted (w0 w : World) (calls : list (Rebalanced * CoalesceOpts)) : Prop :=
  coalesce_calls w = coalesce_calls w0 ++ calls
  /\ w_waste w = w_waste w0 ++ map wasted (List.filter came_back_empty calls).

Lemma coalesce_then_accounted stack coalesceOpts addressDataByIdx partialNumber w0 w sms :
  coalesce_then decode3BitLogScale coalesce stack coalesceOpts addressDataByIdx
                partialNumber w0 = Normal (w, sms) ->
  accounted w0 w [(stack, coalesceOpts)]
  /\ (came_back_empty (stack, coalesceOpts) = true -> sms = []).
Proof.
  unfold coalesce_then, accounted, came_back_empty, wasted. cbn [fst snd List.filter map].
  destruct (coalesce stack coalesceOpts) as [[|c more]|].
  - cbn [spatialmatches_of bind]. intros [= <- <-]. cbn [coalesce_calls w_waste]. auto.
  - destruct (spatialmatches_of _ _ _ _ _) as [sms'|]; [|discriminate]. cbn [bind].
    intros [= <- <-]. cbn [coalesce_calls w_waste]. rewrite app_nil_r.
    split; [auto | discriminate].
  - cbn [spatialmatches_of bind]. intros [= <- <-]. cbn [coalesce_calls w_waste]. auto.
Qed.

Lemma coalesceStack_accounted options stack w0 w sms :
  coalesceStack decode3BitLogScale center2zxy bufferPoint_miles bbox_intersection insideTile
                COALESCE_PROXIMITY_RADIUS coalesce options stack w0 = Normal (w, sms) ->
  (w = w0 /\ sms = [])
  \/ exists coalesceOpts,
       accounted w0 w [(stack, coalesceOpts)]
       /\ (came_back_empty (stack, coalesceOpts) = true -> sms = []).
Proof.
  unfold coalesceStack. intros Hrun.
  repeat match type of Hrun with
         | Normal _ = Normal _ => injection Hrun as <- <-; left; split; reflexivity
         | Throw = _ => discriminate Hrun
         | coalesce_then _ _ _ _ _ _ _ = _ =>
             right; eexists; eapply coalesce_then_accounted, Hrun
         | bind ?c _ = _ => destruct c eqn:?; cbn [bind] in Hrun
         | match ?x with _ => _ end = _ => destruct x eqn:?; cbn [bind fst snd] in Hrun
         | (if ?x then _ else _) = _ => destruct x eqn:?; cbn [bind fst snd] in Hrun
         end.
Qed.

(** A task holds at most the one call made for its stack, and the entry
    of [waste] for the call if it came back without results. *)
Definition task_of (stack : Rebalanced) (task : Task) : Prop :=
  sublist (map fst (t_calls task)) [stack]
  /\ t_waste task = map wasted (List.filter came_back_empty (t_calls task)).

Lemma defer_task options stack task :
  defer decode3BitLogScale center2zxy bufferPoint_miles bbox_intersection insideTile
        COALESCE_PROXIMITY_RADIUS coalesce options stack = Normal task ->
  task_of stack task.
Proof.
  unfold defer.
  destruct (coalesceStack _ _ _ _ _ _ _ _ _ _) as [[w sms]|] eqn:Hrun; [|discriminate].
  cbn [bind fst snd]. intros [= <-]. unfold task_of. cbn [t_calls t_waste].
  apply coalesceStack_accounted in Hrun as [[-> _]|(opts & [Hcalls Hwaste] & _)].
  - cbn [coalesce_calls w_waste]. split; [apply sublist_nil_l | reflexivity].
  - cbn [coalesce_calls w_waste app] in Hcalls, Hwaste. rewrite Hcalls, Hwaste.
    split; reflexivity.
Qed.

Lemma defer_all_tasks options stacks tasks :
  defer_all decode3BitLogScale center2zxy bufferPoint_miles bbox_intersection insideTile
            COALESCE_PROXIMITY_RADIUS coalesce options stacks = Normal tasks ->
  Forall2 task_of stacks tasks.
Proof.
  revert tasks. induction stacks as [|stack stacks IH]; intros tasks Hrun; simpl in Hrun.
  - injection Hrun as <-. constructor.
  - destruct (defer _ _ _ _ _ _ _ _ _) as [task|] eqn:Hone; [|discriminate].
    cbn [bind] in Hrun.
    destruct (defer_all _ _ _ _ _ _ _ _ _) as [more|] eqn:Hmore; [|discriminate].
    cbn [bind] in Hrun. injection Hrun as <-.
    constructor; [eapply defer_task, Hone | apply IH; reflexivity].
Qed.

Lemma tasks_calls stacks tasks :
  Forall2 task_of stacks tasks ->
  sublist (map fst (concat (map t_calls tasks))) stacks
  /\ concat (map t_waste tasks)
     = map wasted (List.filter came_back_empty (concat (map t_calls tasks))).
Proof.
  induction 1 as [|stack task stacks tasks [Hcall Hwaste] _ [IHc IHw]]; simpl.
  - split; [constructor | reflexivity].
  - rewrite map_app, List.filter_app, map_app, Hwaste, IHw. split; [|reflexivity].
    change (stack :: stacks) with ([stack] ++ stacks). apply sublist_app; assumption.
Qed.

Lemma coalesceStacks_accounted options stacks w0 w rs :
  coalesceStacks decode3BitLogScale center2zxy bufferPoint_miles bbox_intersection insideTile
                 COALESCE_PROXIMITY_RADIUS coalesce completion options stacks w0
  = Normal (w, rs) ->
  length rs = length stacks
  /\ exists calls added,
       sublist (map fst calls) stacks
       /\ coalesce_calls w = coalesce_calls w0 ++ calls
       /\ w_waste w = w_waste w0 ++ added
       /\ added ≡ₚ map wasted (List.filter came_back_empty calls)
       /\ (completion = [] -> added = map wasted (List.filter came_back_empty calls)).
Proof.
  unfold coalesceStacks.
  destruct (defer_all _ _ _ _ _ _ _ _ _) as [tasks|] eqn:Htasks; [|discriminate].
  cbn [bind]. intros [= <- <-]. apply defer_all_tasks in Htasks.
  destruct (tasks_calls stacks tasks Htasks) as [Hsub Hwaste].
  split; [rewrite length_map; symmetry; eapply Forall2_length, Htasks|].
  exists (concat (map t_calls tasks)), (concat (map t_waste (completed completion tasks))).
  split; [exact Hsub|]. split; [reflexivity|]. split; [reflexivity|]. split.
  - rewrite <- Hwaste. apply concat_perm, Permutation_map, completed_perm.
  - intros ->. rewrite completed_in_call_order. exact Hwaste.
Qed.

End CoalesceAccounting.


(** ** coalesceStack: the options of the call *)

Section CoalesceOptions.
Variable decode3BitLogScale : float -> float -> float.
Variable center2zxy : float * float -> Z -> list Z.
Variable bufferPoint_miles : float -> float * float -> float -> list float.
Variable bbox_intersection : list float -> list float -> option (list float).
Variable insideTile : list float -> Z -> list Z.
Variable COALESCE_PROXIMITY_RADIUS : float.
Variable coalesce : Rebalanced -> CoalesceOpts -> option (list CacheSpatialmatch).

Lemma coalesce_then_call stack coalesceOpts addressDataByIdx partialNumber w0 w sms :
  coalesce_then decode3BitLogScale coalesce stack coalesceOpts addressDataByIdx
                partialNumber w0 = Normal (w, sms) ->
  coalesce_calls w = coalesce_calls w0 ++ [(stack, coalesceOpts)].
Proof.
  unfold coalesce_then.
  destruct (spatialmatches_of _ _ _ _ _) as [sms'|]; [|discriminate]. cbn [bind].
  intros [= <- <-]. reflexivity.
Qed.

(** Facts on which of the options are set. *)
Ltac some_facts :=
  unfold is_Some; repeat split; intros;
  repeat match goal with
         | H : exists _, None = Some _ |- _ => destruct H as [? H]; discriminate H
         | H : _ \/ _ |- _ => destruct H
         | H : _ /\ _ |- _ => destruct H
         | H : false = true |- _ => discriminate H
         end;
  first [ reflexivity
        | eexists; reflexivity
        | left; eexists; reflexivity
        | right; split; [reflexivity | eexists; reflexivity] ].

(** X16: when [coalesceStack] goes through, either it made no call and
    hands on no result, which it does only for a stack ending in a
    partial number under both a proximity and a bbox option; or it made
    one call on the stack, whose options have a centre and a radius
    exactly when the query has a proximity, and a bbox exactly when the
    query has a bbox or the stack ends in a partial number under a
    proximity.  Without options the call has none of the three. *)
Theorem coalesceStack_options options stack w0 w sms :
  coalesceStack decode3BitLogScale center2zxy bufferPoint_miles bbox_intersection insideTile
                COALESCE_PROXIMITY_RADIUS coalesce options stack w0 = Normal (w, sms) ->
  (w = w0 /\ sms = []
   /\ ends_in_partialNumber stack = true
   /\ is_Some (options ≫= proximity) /\ is_Some (options ≫= bbox))
  \/ exists coalesceOpts,
       coalesce_calls w = coalesce_calls w0 ++ [(stack, coalesceOpts)]
       /\ (is_Some (centerzxy coalesceOpts) <-> is_Some (options ≫= proximity))
       /\ (is_Some (co_radius coalesceOpts) <-> is_Some (options ≫= proximity))
       /\ (is_Some (bboxzxy coalesceOpts)
           <-> is_Some (options ≫= bbox)
               \/ (ends_in_partialNumber stack = true /\ is_Some (options ≫= proximity))).
Proof.
  unfold coalesceStack, ends_in_partialNumber. intros Hrun.
  destruct options as [options|]; cbn [mbind option_bind];
    [|right; eexists; split; [eapply coalesce_then_call, Hrun|];
      cbn [centerzxy co_radius bboxzxy]; some_facts].
  destruct (proximity options) as [prox|] eqn:Hprox;
    destruct (bbox options) as [b|] eqn:Hbbox;
    destruct (last (rb_elems stack)) as [m|] eqn:Hlast;
    cbn [bind fst snd] in Hrun; try discriminate Hrun;
    try destruct (partialNumber m) eqn:Hpn;
    try destruct (bbox_intersection _ _) eqn:Hcut;
    try destruct (rb_elems stack) as [|first others] eqn:Helems;
    try discriminate Hrun;
    try (injection Hrun as <- <-; left; some_facts);
    right; eexists; (split; [eapply coalesce_then_call, Hrun|]);
    cbn [centerzxy co_radius bboxzxy]; some_facts.
Qed.
End CoalesceOptions.

Lemma coalesceStack_options_witness :
  exists w sms coalesceOpts,
    coalesceStack scaled tile_centre point_box no_overlap whole_tile 40 sample_coalesce
                  (Some near_options) two_level_stack fresh_world = Normal (w, sms)
    /\ coalesce_calls w = [(two_level_stack, coalesceOpts)]
    /\ is_Some (centerzxy coalesceOpts)
    /\ is_Some (co_radius coalesceOpts)
    /\ bboxzxy coalesceOpts = None.
Proof.
  destruct (coalesceStack scaled tile_centre point_box no_overlap whole_tile 40
              sample_coalesce (Some near_options) two_level_stack fresh_world)
    as [[w sms]|] eqn:Hrun; [|vm_compute in Hrun; discriminate].
  destruct (coalesceStack_options scaled tile_centre point_box no_overlap whole_tile 40
              sample_coalesce (Some near_options) two_level_stack fresh_world w sms Hrun)
    as [(_ & _ & Hpn & _)|(coalesceOpts & Hcall & Hcentre & Hradius & Hbbox)];
    [discriminate Hpn|].
  exists w, sms, coalesceOpts. split; [reflexivity|]. split; [exact Hcall|].
  split; [apply Hcentre; eexists; reflexivity|].
  split; [apply Hradius; eexists; reflexivity|].
  destruct (bboxzxy coalesceOpts) as [b|]; [|reflexivity].
  destruct (proj1 Hbbox (ex_intro _ b eq_refl)) as [[? Hb]|[Hpn _]]; discriminate.
Defined.

(** ** Array.prototype.sort: what every comparator leaves in place *)

Section SortProperties.
Context {T : Type}.
Variable comparefn : T -> T -> Completion (option float).

Lemma sort_insert_perm x sorted out :
  sort_insert comparefn x sorted = Normal out -> out ≡ₚ x :: sorted.
Proof.
  revert out. induction sorted as [|y more IH]; intros out Hrun; simpl in Hrun.
  - injection Hrun as <-. reflexivity.
  - destruct (puts_before comparefn x y) as [[|]|]; cbn [bind] in Hrun; [| |discriminate].
    + injection Hrun as <-. reflexivity.
    + destruct (sort_insert comparefn x more) as [rest|]; [|discriminate].
      cbn [bind] in Hrun. injection Hrun as <-.
      rewrite (IH rest eq_refl). apply Permutation_swap.
Qed.

Lemma sort_from_perm l sorted out :
  sort_from comparefn l sorted = Normal out -> out ≡ₚ sorted ++ l.
Proof.
  revert sorted out. induction l as [|x more IH]; intros sorted out Hrun; simpl in Hrun.
  - injection Hrun as <-. rewrite app_nil_r. reflexivity.
  - destruct (sort_insert comparefn x sorted) as [sorted'|] eqn:Hins; [|discriminate].
    cbn [bind] in Hrun. apply IH in Hrun. rewrite Hrun.
    apply sort_insert_perm in Hins. rewrite Hins. apply Permutation_middle.
Qed.

Lemma array_sort_perm l out :
  array_sort comparefn l = Normal out -> out ≡ₚ l.
Proof. unfold array_sort. intros Hrun. apply sort_from_perm in Hrun. exact Hrun. Qed.

(** The sort goes through when the comparator returns on the elements. *)
Variable P : T -> Prop.
Hypothesis comparefn_returns : forall x y, P x -> P y -> exists v, comparefn x y = Normal v.

Lemma sort_insert_returns x sorted :
  P x -> Forall P sorted -> exists out, sort_insert comparefn x sorted = Normal out.
Proof.
  intros Hx. induction 1 as [|y more Hy Hmore IH]; simpl; [eexists; reflexivity|].
  unfold puts_before. destruct (comparefn_returns x y Hx Hy) as [v ->]. cbn [bind].
  destruct (match v with Some n => (n <? 0)%float | None => false end);
    [eexists; reflexivity|].
  destruct IH as [rest ->]. eexists. reflexivity.
Qed.

Lemma sort_from_returns l sorted :
  Forall P l -> Forall P sorted -> exists out, sort_from comparefn l sorted = Normal out.
Proof.
  intros Hl. revert sorted. induction Hl as [|x more Hx Hmore IH]; intros sorted Hsorted;
    simpl; [eexists; reflexivity|].
  destruct (sort_insert_returns x sorted Hx Hsorted) as [sorted' Hins]. rewrite Hins.
  cbn [bind]. apply IH.
  apply sort_insert_perm in Hins. rewrite Hins. constructor; assumption.
Qed.

Lemma array_sort_returns l :
  Forall P l -> exists out, array_sort comparefn l = Normal out.
Proof. intros Hl. apply sort_from_returns; [exact Hl | constructor]. Qed.

End SortProperties.

Lemma sortByRelevLengthIdx_returns (a b : Stack Archetype) :
  elems a <> [] -> elems b <> [] -> exists v, sortByRelevLengthIdx a b = Normal v.
Proof.
  intros Ha Hb. unfold sortByRelevLengthIdx.
  destruct (truthy _); [eexists; reflexivity|].
  destruct (last (elems b)) as [lb|] eqn:Hlb;
    [|apply last_None in Hlb; contradiction].
  destruct (last (elems a)) as [la|] eqn:Hla;
    [|apply last_None in Hla; contradiction].
  destruct (truthy _); eexists; reflexivity.
Qed.

(** Sorting each stack rearranges its elements and keeps its scores. *)
Lemma sort_each_returns arch_stacks :
  exists out,
    sort_each arch_stacks = Normal out
    /\ Forall2 (fun sorted stack =>
                  elems sorted ≡ₚ elems stack
                  /\ relev sorted = relev stack /\ adjRelev sorted = adjRelev stack)
               out arch_stacks.
Proof.
  induction arch_stacks as [|stack more (rest & Hrest & Hall)]; simpl.
  - exists []. split; [reflexivity | constructor].
  - destruct (array_sort_returns sortByZoomIdx (fun _ => True)
                ltac:(intros; eexists; reflexivity) (elems stack)) as [sorted Hsorted].
    { apply Forall_forall. auto. }
    rewrite Hsorted, Hrest. cbn [bind]. eexists. split; [reflexivity|].
    constructor; [|exact Hall]. simpl. split; [|auto].
    apply (array_sort_perm _ _ _ Hsorted).
Qed.

(** ** spatialmatch: the stacks it builds *)

Lemma exemplar_mask rs r g e :
  r ∈ collapseToArchetypes rs -> g ∈ phrasematches r -> e ∈ exemplars g ->
  mask e = a_mask g.
Proof.
  intros Hr Hg He.
  destruct (collapsed_archetype_fields rs r g Hr Hg)
    as (first & rest & Hex & Hsig & Hmask & _).
  rewrite Hmask, Hex in *. apply elem_of_cons in He as [->|He]; [reflexivity|].
  rewrite Forall_forall in Hsig. specialize (Hsig e He).
  unfold signature_eqb, signature in Hsig.
  apply andb_prop in Hsig as [Hsig _]. apply andb_prop in Hsig as [Hsig _].
  apply andb_prop in Hsig as [Hsig _]. apply Z.eqb_eq, Hsig.
Qed.

Lemma pick_positions (zs1 : list (nat * Archetype)) (picked : list Phrasematch) :
  Forall2 (fun e g => e ∈ exemplars g) picked (map snd zs1) ->
  exists zs : list (nat * Phrasematch),
    map snd zs = picked
    /\ map fst zs = map fst zs1
    /\ forall p e, (p, e) ∈ zs -> exists g, (p, g) ∈ zs1 /\ e ∈ exemplars g.
Proof.
  revert picked. induction zs1 as [|[p g] zs1 IH]; intros picked Hall; simpl in Hall.
  - inversion Hall. subst. exists []. split; [reflexivity|]. split; [reflexivity|].
    intros p e Hin. inversion Hin.
  - inversion Hall as [|e g' picked' gs He Hrest]. subst.
    destruct (IH picked' Hrest) as (zs & Hsnd & Hfst & Hin).
    exists ((p, e) :: zs). simpl. rewrite Hsnd, Hfst. split; [reflexivity|].
    split; [reflexivity|]. intros q f Hqf.
    apply elem_of_cons in Hqf as [[= -> ->]|Hqf].
    + exists g. split; [apply list_elem_of_here | exact He].
    + destruct (Hin q f Hqf) as (g0 & Hg0 & Hf). exists g0.
      split; [apply list_elem_of_further, Hg0 | exact Hf].
Qed.

Lemma stacked_from_archetypes rs (zs1 : list (nat * Archetype)) (zs : list (nat * Phrasematch)) :
  drawn_from (collapseToArchetypes rs) zs1 ->
  map fst zs = map fst zs1 ->
  (forall p e, (p, e) ∈ zs -> exists g, (p, g) ∈ zs1 /\ e ∈ exemplars g) ->
  stacked_from rs zs.
Proof.
  intros (Hnodup & Hsrc & Hmask & Hnmask & Hbmask) Hfst Hpick.
  assert (Hres : forall p g, (p, g) ∈ zs1 ->
            exists r, rs !! p = Some r
                      /\ collapse_result r ∈ collapseToArchetypes rs
                      /\ collapseToArchetypes rs !! p = Some (collapse_result r)
                      /\ g ∈ phrasematches (collapse_result r)).
  { intros p g Hin. destruct (Hsrc p g Hin) as (r' & Hr' & Hg).
    unfold collapseToArchetypes in *. rewrite list_lookup_fmap in Hr'.
    destruct (rs !! p) as [r|] eqn:Hr; [|discriminate]. simpl in Hr'.
    injection Hr' as <-. exists r. split; [reflexivity|].
    split; [|split; [rewrite list_lookup_fmap, Hr; reflexivity | exact Hg]].
    apply list_elem_of_fmap. exists r. split; [reflexivity|].
    eapply list_elem_of_lookup_2, Hr. }
  split; [rewrite Hfst; exact Hnodup|]. split; [|split; [|split]].
  - intros p e Hin. destruct (Hpick p e Hin) as (g & Hg & He).
    destruct (Hres p g Hg) as (r & Hr & _ & _ & Hgr). exists r. split; [exact Hr|].
    rewrite <- (collapse_result_exemplars r).
    apply list_elem_of_In, in_concat. exists (exemplars g).
    split; [apply in_map, list_elem_of_In, Hgr | apply list_elem_of_In, He].
  - intros p e q f Hp Hq Hpq.
    destruct (Hpick p e Hp) as (g & Hg & He). destruct (Hpick q f Hq) as (h & Hh & Hf).
    destruct (Hres p g Hg) as (r & _ & Hr & _ & Hgr).
    destruct (Hres q h Hh) as (s & _ & Hs & _ & Hhs).
    rewrite (exemplar_mask rs _ g e Hr Hgr He), (exemplar_mask rs _ h f Hs Hhs Hf).
    apply (Hmask p g q h Hg Hh Hpq).
  - intros p e q f r s Hp Hq Hpq Hr Hs.
    destruct (Hpick p e Hp) as (g & Hg & He). destruct (Hpick q f Hq) as (h & Hh & Hf).
    destruct (Hres p g Hg) as (r0 & Hr0 & _ & Hr' & _).
    destruct (Hres q h Hh) as (s0 & Hs0 & _ & Hs' & _).
    rewrite Hr in Hr0. injection Hr0 as <-. rewrite Hs in Hs0. injection Hs0 as <-.
    apply (Hnmask p g q h _ _ Hg Hh Hpq Hr' Hs').
  - intros p e q f r s Hp Hq Hpq Hr Hs.
    destruct (Hpick p e Hp) as (g & Hg & He). destruct (Hpick q f Hq) as (h & Hh & Hf).
    destruct (Hres p g Hg) as (r0 & Hr0 & _ & Hr' & _).
    destruct (Hres q h Hh) as (s0 & Hs0 & Hsin & Hs' & Hhs).
    rewrite Hr in Hr0. injection Hr0 as <-. rewrite Hs in Hs0. injection Hs0 as <-.
    pose proof (Hbmask p g q h _ Hg Hh Hpq Hr') as Hb. simpl in Hb.
    destruct (collapsed_archetype_fields rs _ h Hsin Hhs)
      as (first & rest & _ & _ & _ & _ & _ & _ & _ & _ & _ & Hidx & _).
    rewrite Hidx in Hb. exact Hb.
Qed.

Lemma drawn_from_perm {A : Type} `{StackItem A} (results : list (PhrasematchResult A))
    (zs zs' : list (nat * A)) :
  zs ≡ₚ zs' -> drawn_from results zs -> drawn_from results zs'.
Proof.
  intros Hperm (Hnodup & Hsrc & Hmask & Hnmask & Hbmask).
  assert (Hin : forall x, x ∈ zs' -> x ∈ zs) by (intros x; rewrite Hperm; auto).
  split; [rewrite <- Hperm; exact Hnodup|].
  split; [|split; [|split]]; intros; eauto.
Qed.

Lemma slice0_sublist {T : Type} (l : list T) n : sublist (slice0 l n) l.
Proof. unfold slice0. destruct (0 <=? n); apply sublist_take. Qed.

Lemma build_stacks_spec rs options :
  exists stacks,
    build_stacks rs (Some options) = Normal stacks
    /\ (length stacks <= Z.to_nat (Z.max 1 (spatialmatch_stack_limit options)))%nat
    /\ forall s, s ∈ stacks ->
         exists zs, zs <> [] /\ map snd zs = elems s /\ stacked_from rs zs.
Proof.
  destruct rs as [|r0 rs0] eqn:Hrs.
  { exists []. split; [reflexivity|]. split; [simpl; lia|].
    intros s Hs. inversion Hs. }
  rewrite <- Hrs. assert (Hne : rs <> []) by (rewrite Hrs; discriminate).
  clear Hrs r0 rs0.
  assert (Harch : collapseToArchetypes rs <> []).
  { unfold collapseToArchetypes. destruct rs; [congruence | discriminate]. }
  destruct (stackable_returns (collapseToArchetypes rs) (stackable_limit options) Harch)
    as (out0 & Hout0).
  set (out1 := allowed out0 options).
  assert (Hsub1 : forall s, s ∈ out1 -> s ∈ out0).
  { intros s. unfold out1, allowed. destruct (allowed_idx options); [|auto].
    rewrite list_elem_of_In, filter_In, <- list_elem_of_In. tauto. }
  destruct (sort_each_returns out1) as (out2 & Hout2 & Hsorted).
  assert (Hback : forall s, s ∈ out2 -> exists s1, s1 ∈ out0 /\ elems s ≡ₚ elems s1).
  { intros s Hs. apply list_elem_of_lookup_1 in Hs as (i & Hi).
    destruct (Forall2_lookup_l _ _ _ _ _ Hsorted Hi) as (s1 & Hs1 & Hperm & _).
    exists s1. split; [apply Hsub1; eapply list_elem_of_lookup_2, Hs1 | exact Hperm]. }
  assert (Hfull : forall s1, s1 ∈ out0 -> elems s1 <> []).
  { intros s1 Hs1.
    destruct (stackable_scored (stackable_limit options) (collapseToArchetypes rs)
                out0 s1 Hout0 Hs1) as (s0 & -> & _ & Hlen & _).
    simpl. destruct (elems s0); [simpl in Hlen; lia | discriminate]. }
  assert (Hfull2 : Forall (fun s : Stack Archetype => elems s <> []) out2).
  { apply Forall_forall. intros s Hs. destruct (Hback s Hs) as (s1 & Hs1 & Hperm).
    intros Hnil. rewrite Hnil in Hperm. apply Permutation_nil_l in Hperm.
    exact (Hfull s1 Hs1 (eq_sym Hperm)). }
  destruct (array_sort_returns sortByRelevLengthIdx
              (fun s : Stack Archetype => elems s <> [])
              sortByRelevLengthIdx_returns out2 Hfull2) as (out3 & Hout3).
  pose proof (array_sort_perm _ _ _ Hout3) as Hperm3.
  set (out4 := slice0 out3 (spatialmatch_stack_limit options)).
  assert (Hsub4 : forall s, s ∈ out4 -> s ∈ out2).
  { intros s Hs. rewrite <- Hperm3. eapply elem_of_sublist; [exact Hs | apply slice0_sublist]. }
  assert (Hfull4 : Forall (fun s : Stack Archetype => elems s <> []) out4).
  { apply Forall_forall. intros s Hs. rewrite Forall_forall in Hfull2. apply Hfull2, Hsub4, Hs. }
  eexists. split.
  { unfold build_stacks. destruct rs; [congruence|].
    rewrite Hout0. cbn [bind]. fold out1. rewrite Hout2. cbn [bind]. rewrite Hout3.
    cbn [bind]. fold out4. apply expandFromArchetypes_firstn, Hfull4. }
  split; [rewrite length_take; lia|].
  intros s Hs. apply elem_of_take in Hs as (i & Hi & _).
  apply list_elem_of_lookup_2 in Hi.
  destruct (full_expansion_picks out4 s Hi) as (s4 & Hs4 & _ & _ & Hpicked).
  destruct (Hback s4 (Hsub4 s4 Hs4)) as (s1 & Hs1 & Hperm).
  destruct (stackable_drawn (stackable_limit options) (collapseToArchetypes rs)
              out0 s1 Hout0 Hs1) as (zs0 & Hzs0 & Hdrawn).
  rewrite <- Hzs0 in Hperm.
  apply Permutation_map_inv in Hperm as (zs1 & Hzs1 & Hperm1).
  rewrite Hzs1 in Hpicked.
  destruct (pick_positions zs1 (elems s) Hpicked) as (zs & Hsnd & Hfst & Hpick).
  exists zs. split; [|split; [exact Hsnd|]].
  - intros ->. simpl in Hfst. destruct zs1; [|discriminate].
    simpl in Hzs1. rewrite Forall_forall in Hfull4. exact (Hfull4 s4 Hs4 Hzs1).
  - apply (stacked_from_archetypes rs zs1 zs); [|exact Hfst|exact Hpick].
    apply (drawn_from_perm _ zs0 zs1 Hperm1 Hdrawn).
Qed.

(** X17: with options, the part of [spatialmatch] that builds the stacks
    (collapse, [stackable], [allowed], the two sorts, the cut and the
    expansion) never throws, whatever the phrasematch results; it builds
    at most max(spatialmatch_stack_limit, 1) stacks; and every stack it
    builds is not empty and holds phrasematches of the input, drawn from
    results at pairwise distinct positions, with pairwise disjoint masks,
    from results with pairwise disjoint nmasks, the bmask of the later of
    two results not being set at the idx of the earlier one. *)
Theorem spatialmatch_stacks_from_results rs options :
  exists stacks,
    build_stacks rs (Some options) = Normal stacks
    /\ (length stacks <= Z.to_nat (Z.max 1 (spatialmatch_stack_limit options)))%nat
    /\ forall s, s ∈ stacks ->
         exists zs, zs <> [] /\ map snd zs = elems s /\ stacked_from rs zs.
Proof. apply build_stacks_spec. Qed.

Lemma spatialmatch_stacks_from_results_witness :
  exists stacks,
    build_stacks three_levels (Some near_options) = Normal stacks
    /\ (length stacks <= Z.to_nat (Z.max 1 (spatialmatch_stack_limit near_options)))%nat
    /\ forall s, s ∈ stacks ->
         exists zs, zs <> [] /\ map snd zs = elems s /\ stacked_from three_levels zs.
Proof. exact (spatialmatch_stacks_from_results three_levels near_options). Defined.

Section SpatialmatchRun.
Variable roundTo : float -> Z -> float.
Variable decode3BitLogScale : float -> float -> float.
Variable center2zxy : float * float -> Z -> list Z.
Variable bufferPoint_miles : float -> float * float -> float -> list float.
Variable bbox_intersection : list float -> list float -> option (list float).
Variable insideTile : list float -> Z -> list Z.
Variable COALESCE_PROXIMITY_RADIUS : float.
Variable coalesce : Rebalanced -> CoalesceOpts -> option (list CacheSpatialmatch).
Variable completion : list nat.

(** X18: a run of [spatialmatch] with options that goes through has built
    its stacks before any call; it calls the coalesce primitive at most
    once per stack, on the rebalanced stacks in their order, so at most
    max(spatialmatch_stack_limit, 1) times. *)
Theorem spatialmatch_calls_within_limit query rs options run :
  spatialmatch roundTo decode3BitLogScale center2zxy bufferPoint_miles bbox_intersection
               insideTile COALESCE_PROXIMITY_RADIUS coalesce completion query rs
               (Some options)
  = Normal run ->
  build_stacks rs (Some options) = Normal (run_stacks run)
  /\ (length (run_calls run) <= length (run_stacks run)
      <= Z.to_nat (Z.max 1 (spatialmatch_stack_limit options)))%nat
  /\ sublist (map fst (run_calls run))
             (map (fun stack => rebalance roundTo query (elems stack)) (run_stacks run)).
Proof.
  unfold spatialmatch. intros Hrun.
  destruct (build_stacks_spec rs options) as (stacks & Hstacks & Hlen & _).
  rewrite Hstacks in Hrun. cbn [bind] in Hrun.
  destruct (coalesceStacks _ _ _ _ _ _ _ _ _ _ _) as [[w results]|] eqn:Hcalls;
    [|discriminate].
  cbn [bind fst snd] in Hrun.
  destruct (coalesceFinalize _ _ _) as [args|]; [|discriminate].
  cbn [bind] in Hrun. injection Hrun as <-. cbn [run_stacks run_calls].
  apply coalesceStacks_accounted in Hcalls as (_ & calls & added & Hsub & Hmade & _).
  simpl in Hmade. subst calls.
  split; [exact Hstacks|]. split; [|exact Hsub].
  split; [|exact Hlen].
  apply sublist_length in Hsub. rewrite !length_map in Hsub. exact Hsub.
Qed.
End SpatialmatchRun.

Lemma spatialmatch_calls_within_limit_witness :
  exists run,
    spatialmatch unrounded scaled tile_centre point_box no_overlap whole_tile 40 no_coalesce
                 [1; 0]%nat ["main"; "st"; "city"]%string three_levels (Some near_options)
    = Normal run
    /\ build_stacks three_levels (Some near_options) = Normal (run_stacks run)
    /\ (length (run_calls run) <= length (run_stacks run)
        <= Z.to_nat (Z.max 1 (spatialmatch_stack_limit near_options)))%nat
    /\ sublist (map fst (run_calls run))
               (map (fun stack => rebalance unrounded ["main"; "st"; "city"]%string
                                            (elems stack))
                    (run_stacks run)).
Proof.
  destruct (spatialmatch unrounded scaled tile_centre point_box no_overlap whole_tile 40
              no_coalesce [1; 0]%nat ["main"; "st"; "city"]%string three_levels
              (Some near_options))
    as [run|] eqn:Hrun; [|vm_compute in Hrun; discriminate].
  exists run. split; [reflexivity|].
  exact (spatialmatch_calls_within_limit unrounded scaled tile_centre point_box no_overlap
           whole_tile 40 no_coalesce _ _ _ _ run Hrun).
Defined.

(** ** coalesceFinalize on what coalesceStacks hands on *)

Lemma sortByRelev_returns (a b : Spatialmatch) :
  covers a <> [] -> covers b <> [] -> exists v, sortByRelev a b = Normal v.
Proof.
  intros Ha Hb. unfold sortByRelev. destruct (truthy _); [eexists; reflexivity|].
  destruct (covers a); [congruence|]. destruct (covers b); [congruence|].
  eexists. reflexivity.
Qed.

Section FinalizeAfterCoalesce.
Variable decode3BitLogScale : float -> float -> float.
Variable center2zxy : float * float -> Z -> list Z.
Variable bufferPoint_miles : float -> float * float -> float -> list float.
Variable bbox_intersection : list float -> list float -> option (list float).
Variable insideTile : list float -> Z -> list Z.
Variable COALESCE_PROXIMITY_RADIUS : float.
Variable coalesce : Rebalanced -> CoalesceOpts -> option (list CacheSpatialmatch).
Variable completion : list nat.

Lemma spatialmatches_of_covers cacheSpatialmatches stackByIdx addressDataByIdx partialNumber sms :
  spatialmatches_of decode3BitLogScale cacheSpatialmatches stackByIdx addressDataByIdx
                    partialNumber = Normal sms ->
  Forall (fun sm => covers sm <> []) sms.
Proof.
  revert sms. induction cacheSpatialmatches as [|c more IH]; intros sms Hrun; simpl in Hrun.
  - injection Hrun as <-. constructor.
  - destruct (new_Spatialmatch _ _ _ _ _) as [sm|] eqn:Hsm; [|discriminate].
    cbn [bind] in Hrun.
    destruct (spatialmatches_of _ _ _ _ _) as [rest|]; [|discriminate].
    cbn [bind] in Hrun. injection Hrun as <-.
    constructor; [|apply IH; reflexivity].
    apply new_Spatialmatch_inv in Hsm as (first & others & address & _ & ->).
    discriminate.
Qed.

Lemma coalesce_then_covers stack coalesceOpts addressDataByIdx partialNumber w0 w sms :
  coalesce_then decode3BitLogScale coalesce stack coalesceOpts addressDataByIdx
                partialNumber w0 = Normal (w, sms) ->
  Forall (fun sm => covers sm <> []) sms.
Proof.
  unfold coalesce_then.
  destruct (spatialmatches_of _ _ _ _ _) as [sms'|] eqn:Hsms; [|discriminate].
  cbn [bind]. intros [= <- <-]. eapply spatialmatches_of_covers, Hsms.
Qed.

Lemma coalesceStack_covers options stack w0 w sms :
  coalesceStack decode3BitLogScale center2zxy bufferPoint_miles bbox_intersection insideTile
                COALESCE_PROXIMITY_RADIUS coalesce options stack w0 = Normal (w, sms) ->
  Forall (fun sm => covers sm <> []) sms.
Proof.
  unfold coalesceStack. intros Hrun.
  repeat match type of Hrun with
         | Normal _ = Normal _ => injection Hrun as <- <-; constructor
         | Throw = _ => discriminate Hrun
         | coalesce_then _ _ _ _ _ _ _ = _ => eapply coalesce_then_covers, Hrun
         | bind ?c _ = _ => destruct c eqn:?; cbn [bind] in Hrun
         | match ?x with _ => _ end = _ => destruct x eqn:?; cbn [bind fst snd] in Hrun
         | (if ?x then _ else _) = _ => destruct x eqn:?; cbn [bind fst snd] in Hrun
         end.
Qed.

Lemma defer_all_covers options stacks tasks :
  defer_all decode3BitLogScale center2zxy bufferPoint_miles bbox_intersection insideTile
            COALESCE_PROXIMITY_RADIUS coalesce options stacks = Normal tasks ->
  Forall (fun sm => covers sm <> []) (concat (map t_results tasks)).
Proof.
  revert tasks. induction stacks as [|stack stacks IH]; intros tasks Hrun; simpl in Hrun.
  - injection Hrun as <-. constructor.
  - unfold defer in Hrun.
    destruct (coalesceStack _ _ _ _ _ _ _ _ _ _) as [[w sms]|] eqn:Hone; [|discriminate].
    cbn [bind fst snd] in Hrun.
    destruct (defer_all _ _ _ _ _ _ _ _ _) as [more|] eqn:Hmore; [|discriminate].
    cbn [bind] in Hrun. injection Hrun as <-. cbn [map concat t_results].
    apply Forall_app. split; [eapply coalesceStack_covers, Hone | apply IH; reflexivity].
Qed.

Lemma coalesceStacks_covers options stacks w0 w rs :
  coalesceStacks decode3BitLogScale center2zxy bufferPoint_miles bbox_intersection insideTile
                 COALESCE_PROXIMITY_RADIUS coalesce completion options stacks w0
  = Normal (w, rs) ->
  Forall (fun sm => covers sm <> []) (concat rs).
Proof.
  unfold coalesceStacks.
  destruct (defer_all _ _ _ _ _ _ _ _ _) as [tasks|] eqn:Htasks; [|discriminate].
  cbn [bind]. intros [= <- <-]. eapply defer_all_covers, Htasks.
Qed.

(** X19: on the result lists that [coalesceStacks] hands on,
    [coalesceFinalize] never throws: every Spatialmatch the constructor
    built has a cover, so the sort and the pass over the sorted array
    read [covers[0]] safely.  The callback receives the waste as it is
    and, as results, only spatialmatches of the result lists. *)
Theorem coalesceFinalize_after_coalesceStacks options stacks w0 w rs :
  coalesceStacks decode3BitLogScale center2zxy bufferPoint_miles bbox_intersection insideTile
                 COALESCE_PROXIMITY_RADIUS coalesce completion options stacks w0
  = Normal (w, rs) ->
  exists out,
    coalesceFinalize (w_waste w) None rs = Normal (CallbackResult out)
    /\ waste out = w_waste w
    /\ forall sm, sm ∈ results out -> sm ∈ concat rs /\ covers sm <> [].
Proof.
  intros Hrun. apply coalesceStacks_covers in Hrun.
  destruct (array_sort_returns sortByRelev (fun sm => covers sm <> []) sortByRelev_returns
              (concat rs) Hrun) as (combined & Hsorted).
  pose proof (array_sort_perm _ _ _ Hsorted) as Hperm.
  assert (Hcovers : Forall (fun sm => covers sm <> []) combined) by (rewrite Hperm; exact Hrun).
  destruct (dedup_loop_inv combined Hcovers [] _ dedup_inv_start) as (d & Hd & Hsub & _).
  exists {| results := filteredSpatialmatches d; sets := d_sets d; waste := w_waste w |}.
  unfold coalesceFinalize. rewrite Hsorted. cbn [bind]. unfold dedup. rewrite Hd. cbn [bind].
  split; [reflexivity|]. split; [reflexivity|]. cbn [results]. intros sm Hsm.
  assert (Hin : sm ∈ combined) by (eapply elem_of_sublist; eassumption).
  split; [rewrite <- Hperm; exact Hin|].
  rewrite Forall_forall in Hcovers. apply Hcovers, Hin.
Qed.
End FinalizeAfterCoalesce.

Lemma coalesceFinalize_after_coalesceStacks_witness :
  exists w rs out,
    coalesceStacks scaled tile_centre point_box no_overlap whole_tile 40 sample_coalesce
                   [1; 0]%nat None [country_stack; two_level_stack] fresh_world
    = Normal (w, rs)
    /\ coalesceFinalize (w_waste w) None rs = Normal (CallbackResult out)
    /\ length (results out) = 1%nat
    /\ waste out = w_waste w
    /\ forall sm, sm ∈ results out -> sm ∈ concat rs /\ covers sm <> [].
Proof.
  destruct (coalesceStacks scaled tile_centre point_box no_overlap whole_tile 40
              sample_coalesce [1; 0]%nat None [country_stack; two_level_stack] fresh_world)
    as [[w rs]|] eqn:Hrun; [|vm_compute in Hrun; discriminate].
  destruct (coalesceFinalize_after_coalesceStacks scaled tile_centre point_box no_overlap
              whole_tile 40 sample_coalesce [1; 0]%nat None _ _ w rs Hrun)
    as (out & Hout & Hwaste & Hin).
  exists w, rs, out. split; [reflexivity|]. split; [exact Hout|].
  split; [|split; [exact Hwaste | exact Hin]].
  vm_compute in Hrun. injection Hrun as <- <-.
  vm_compute in Hout. injection Hout as <-. reflexivity.
Defined.

(** ** collapseToArchetypes: the order of groups and exemplars *)

(** The first exemplars of the entries of [uniqMap], in map order. *)
Definition first_exemplars (uniqMap : list (Signature * Archetype)) : list Phrasematch :=
  omap (fun entry => head (exemplars (snd entry))) uniqMap.

(** After the phrasematches [seen]: every entry holds its exemplars in
    the order they were seen, has one at least, and the entries come in
    the order their first exemplars were seen. *)
Definition in_order (seen : list Phrasematch) (uniqMap : list (Signature * Archetype)) : Prop :=
  Forall (fun entry => exemplars (snd entry) <> []
                       /\ sublist (exemplars (snd entry)) seen) uniqMap
  /\ sublist (first_exemplars uniqMap) seen.

Lemma uniq_push_first_exemplars r_idx uniqMap inMatch :
  Forall (fun entry => exemplars (snd entry) <> []) uniqMap ->
  first_exemplars (uniq_push r_idx uniqMap inMatch)
  = first_exemplars uniqMap
    ++ match JsMap.get signature_eqb (signature inMatch) uniqMap with
       | Some _ => []
       | None => [inMatch]
       end.
Proof.
  unfold uniq_push, first_exemplars. generalize (signature inMatch). intros sig.
  induction 1 as [|[k g] more Hg Hmore IH]; [reflexivity|].
  cbn [JsMap.get JsMap.set]. destruct (signature_eqb sig k).
  - cbn [omap list_omap snd push_exemplar exemplars] in *.
    destruct (exemplars g); [congruence|]. cbn [app head]. rewrite app_nil_r. reflexivity.
  - cbn [omap list_omap snd] in *. destruct (exemplars g); [congruence|].
    cbn [head]. rewrite IH. reflexivity.
Qed.

Lemma JsMap_update_step {K V : Type} (eqb : K -> K -> bool) (P Q : K * V -> Prop)
    (f : V -> V) (k : K) (d : V) (m : list (K * V)) :
  Forall P m ->
  (forall entry, P entry -> Q entry) ->
  (forall k' v, P (k', v) -> eqb k k' = true -> Q (k', f v)) ->
  Q (k, f d) ->
  Forall Q (JsMap.set eqb k
              (f (match JsMap.get eqb k m with Some v => v | None => d end)) m).
Proof.
  intros Hm Hkeep Hhit Hnew. induction Hm as [|[k' v'] more Hx Hmore IH]; simpl.
  - constructor; [exact Hnew | constructor].
  - destruct (eqb k k') eqn:E.
    + constructor; [apply Hhit; assumption|].
      eapply Forall_impl; [exact Hmore | exact Hkeep].
    + constructor; [apply Hkeep, Hx | exact IH].
Qed.

Lemma uniq_push_in_order r_idx uniqMap inMatch seen :
  in_order seen uniqMap -> in_order (seen ++ [inMatch]) (uniq_push r_idx uniqMap inMatch).
Proof.
  intros [Hall Hfirst]. split.
  - unfold uniq_push.
    apply (JsMap_update_step signature_eqb
             (fun entry => exemplars (snd entry) <> []
                           /\ sublist (exemplars (snd entry)) seen)
             (fun entry => exemplars (snd entry) <> []
                           /\ sublist (exemplars (snd entry)) (seen ++ [inMatch]))
             (fun g => push_exemplar g inMatch)); [exact Hall| | |].
    + intros entry [H1 H2]. split; [exact H1 | apply sublist_inserts_r, H2].
    + intros k g [Hne Hsub] _. cbn [snd push_exemplar exemplars] in *. split.
      * destruct (exemplars g); discriminate.
      * apply sublist_app; [exact Hsub | reflexivity].
    + cbn [snd push_exemplar new_archetype exemplars app]. split; [discriminate|].
      apply sublist_inserts_l. reflexivity.
  - rewrite uniq_push_first_exemplars
      by (eapply Forall_impl; [exact Hall|]; intros entry [H1 _]; exact H1).
    destruct (JsMap.get _ _ _); [rewrite app_nil_r; apply sublist_inserts_r, Hfirst|].
    apply sublist_app; [exact Hfirst | reflexivity].
Qed.

Lemma build_uniqMap_in_order r_idx ms : in_order ms (build_uniqMap r_idx ms).
Proof.
  unfold build_uniqMap.
  assert (G : forall seen m, in_order seen m ->
                in_order (seen ++ ms) (fold_left (uniq_push r_idx) ms m)).
  { induction ms as [|x ms IH]; intros seen m Hm; simpl.
    - rewrite app_nil_r. exact Hm.
    - replace (seen ++ x :: ms) with ((seen ++ [x]) ++ ms)
        by (rewrite <- app_assoc; reflexivity).
      apply IH, uniq_push_in_order, Hm. }
  apply (G [] []). split; [constructor | reflexivity].
Qed.

Lemma collapse_result_in_order inResult :
  Forall (fun g => sublist (exemplars g) (phrasematches inResult))
         (phrasematches (collapse_result inResult))
  /\ sublist (group_heads (phrasematches (collapse_result inResult)))
             (phrasematches inResult).
Proof.
  destruct (build_uniqMap_in_order (r_idx inResult) (phrasematches inResult))
    as [Hall Hfirst].
  unfold collapse_result, JsMap.values, group_heads. cbn [phrasematches]. split.
  - rewrite map_map. apply Forall_map. eapply Forall_impl; [exact Hall|].
    intros entry [_ Hsub]. cbn beta. rewrite exemplars_penalise. exact Hsub.
  - assert (Heq : forall m : list (Signature * Archetype),
              omap (fun g => head (exemplars g)) (map penalise (map snd m))
              = first_exemplars m).
    { induction m as [|entry m IH]; [reflexivity|].
      unfold first_exemplars in *. cbn [omap list_omap map].
      rewrite exemplars_penalise, IH. reflexivity. }
    rewrite Heq. exact Hfirst.
Qed.


(** X20: [collapseToArchetypes] keeps the order of the input: within
    every archetype the exemplars stand in the order the phrasematches
    have in the result, and the archetypes of a result stand in the order
    in which their first exemplars do. *)
Theorem collapse_keeps_input_order rs :
  Forall2
    (fun inResult r =>
       Forall (fun g => sublist (exemplars g) (phrasematches inResult)) (phrasematches r)
       /\ sublist (group_heads (phrasematches r)) (phrasematches inResult))
    rs (collapseToArchetypes rs).
Proof.
  unfold collapseToArchetypes. induction rs as [|inResult rs IH]; simpl; constructor;
    [apply collapse_result_in_order | exact IH].
Qed.

(** ** coalesceStack: the address data by idx *)

Lemma address_by_idx_snoc stack m :
  address_by_idx (stack ++ [m])
  = match address m with
    | Some a => JsMap.set Nat.eqb (idx m) a (address_by_idx stack)
    | None => address_by_idx stack
    end.
Proof. unfold address_by_idx. rewrite fold_left_app. reflexivity. Qed.

(** X21: the address data that [coalesceStack] collects for an idx is
    that of the last element of the stack with that idx that has address
    data (where [getStackByIdx] keeps the first element of an idx), and
    none when no element of that idx has any. *)
Theorem address_by_idx_last_of_idx stack i :
  JsMap.get Nat.eqb i (address_by_idx stack) = last_address i stack.
Proof.
  unfold last_address. induction stack as [|m stack IH] using rev_ind; [reflexivity|].
  rewrite address_by_idx_snoc, rev_app_distr. cbn [rev app omap list_omap].
  destruct (address m) as [a|].
  - rewrite JsMap_get_set, (Nat.eqb_sym i (idx m)).
    destruct (idx m =? i)%nat; [reflexivity | exact IH].
  - destruct (idx m =? i)%nat; exact IH.
Qed.
